(** * GLIFExperiment: the fitting harness of allen_wrench/model/GLIF/experiment.py

    A shallow embedding of [GLIFExperiment] (parameter mapping onto the
    neuron's attributes, target-driven and free-running sweeps) and the
    properties of its specification.

    The neuron object is the external collaborator: here it is its attribute
    dictionary, and its two simulation methods are functions of that
    dictionary and of their arguments. *)

From stdpp Require Import gmap strings list fin_maps pretty.

(** ** Exceptions *)

(** The exceptions that can leave the harness.  [NotAllowed] is the
    [Exception('you are trying to fit a variable that is not allowed')] of
    [set_neuron_parameters] (the specification calls it ConfigurationError);
    [AttributeError] comes from [getattr], [IndexError] from subscripting a
    sequence out of range, [SimulationError] is whatever a simulation method
    of the neuron raises. *)
Inductive exn : Type :=
| NotAllowed
| AttributeError (name : string)
| IndexError
| SimulationError.

(** ** Values returned by the neuron's simulation methods *)

Module Target.
(** The 11-tuple returned by [neuron.run_wrt_target_spike_train], named
    after the variables it is unpacked into in [run]. *)
Record sweep (ndarray : Type) : Type := Sweep {
  voltage : ndarray;
  threshold : ndarray;
  AScurrentMatrix : ndarray;
  gridTime : ndarray;
  interpolatedTime : ndarray;
  gridISIFromLastTargSpike : ndarray;
  interpolatedISIFromLastTargSpike : ndarray;
  voltageOfModelAtGridBioSpike_array : ndarray;
  theshOfModelAtGridBioSpike_array : ndarray;
  voltageOfModelAtInterpolatedTargSpike_array : ndarray;
  thresholdOfModelAtInterpolatedTargSpike_array : ndarray
}.

(** The eleven accumulator lists of [run]. *)
Record lists (ndarray : Type) : Type := Lists {
  interpolatedTime_list : list ndarray;
  voltage_list : list ndarray;
  threshold_list : list ndarray;
  gridISIFromLastTargSpike_list : list ndarray;
  interpolatedISIFromLastTargSpike_list : list ndarray;
  gridTime_list : list ndarray;
  voltageOfModelAtGridBioSpike_list : list ndarray;
  theshOfModelAtGridBioSpike_list : list ndarray;
  AScurrentMatrix_list : list ndarray;
  voltageOfModelAtInterpolatedBioSpike_list : list ndarray;
  thresholdOfModelAtInterpolatedBioSpike_list : list ndarray
}.

Arguments Sweep {ndarray}.
Arguments voltage {ndarray}.
Arguments threshold {ndarray}.
Arguments AScurrentMatrix {ndarray}.
Arguments gridTime {ndarray}.
Arguments interpolatedTime {ndarray}.
Arguments gridISIFromLastTargSpike {ndarray}.
Arguments interpolatedISIFromLastTargSpike {ndarray}.
Arguments voltageOfModelAtGridBioSpike_array {ndarray}.
Arguments theshOfModelAtGridBioSpike_array {ndarray}.
Arguments voltageOfModelAtInterpolatedTargSpike_array {ndarray}.
Arguments thresholdOfModelAtInterpolatedTargSpike_array {ndarray}.
Arguments Lists {ndarray}.
Arguments interpolatedTime_list {ndarray}.
Arguments voltage_list {ndarray}.
Arguments threshold_list {ndarray}.
Arguments gridISIFromLastTargSpike_list {ndarray}.
Arguments interpolatedISIFromLastTargSpike_list {ndarray}.
Arguments gridTime_list {ndarray}.
Arguments voltageOfModelAtGridBioSpike_list {ndarray}.
Arguments theshOfModelAtGridBioSpike_list {ndarray}.
Arguments AScurrentMatrix_list {ndarray}.
Arguments voltageOfModelAtInterpolatedBioSpike_list {ndarray}.
Arguments thresholdOfModelAtInterpolatedBioSpike_list {ndarray}.
End Target.

Module Base.
(** The 8-tuple returned by [neuron.run], named after the variables it is
    unpacked into in [run_base_model]. *)
Record sweep (ndarray : Type) : Type := Sweep {
  voltage : ndarray;
  threshold : ndarray;
  AScurrentMatrix : ndarray;
  gridSpikeTime : ndarray;
  interpolatedSpikeTime : ndarray;
  gridSpikeIndex : ndarray;
  interpolatedSpikeVoltage : ndarray;
  interpolatedSpikeThreshold : ndarray
}.

(** The eight accumulator lists of [run_base_model]. *)
Record lists (ndarray : Type) : Type := Lists {
  voltage_list : list ndarray;
  threshold_list : list ndarray;
  AScurrentMatrix_list : list ndarray;
  gridSpikeTime_list : list ndarray;
  interpolatedSpikeTime_list : list ndarray;
  gridSpikeIndex_list : list ndarray;
  interpolatedSpikeVoltage_list : list ndarray;
  interpolatedSpikeThreshold_list : list ndarray
}.

Arguments Sweep {ndarray}.
Arguments voltage {ndarray}.
Arguments threshold {ndarray}.
Arguments AScurrentMatrix {ndarray}.
Arguments gridSpikeTime {ndarray}.
Arguments interpolatedSpikeTime {ndarray}.
Arguments gridSpikeIndex {ndarray}.
Arguments interpolatedSpikeVoltage {ndarray}.
Arguments interpolatedSpikeThreshold {ndarray}.
Arguments Lists {ndarray}.
Arguments voltage_list {ndarray}.
Arguments threshold_list {ndarray}.
Arguments AScurrentMatrix_list {ndarray}.
Arguments gridSpikeTime_list {ndarray}.
Arguments interpolatedSpikeTime_list {ndarray}.
Arguments gridSpikeIndex_list {ndarray}.
Arguments interpolatedSpikeVoltage_list {ndarray}.
Arguments interpolatedSpikeThreshold_list {ndarray}.
End Base.

(** ** The attributes of the neuron *)

(** An attribute of the neuron is a number or a sequence of numbers;
    [hasattr(a, "__len__")] tells them apart. *)
Inductive value (num : Type) : Type :=
| Scalar (x : num)
| Vector (xs : list num).
Arguments Scalar {num}.
Arguments Vector {num}.

(** The neuron's two simulation methods, as functions of its attributes and
    of their arguments; a method returns its tuple or raises. *)
Class Neuron (num ndarray : Type) : Type := {
  neuron_run_wrt_target_spike_train :
    gmap string (value num) → num → num → ndarray →
    ndarray → ndarray → ndarray → ndarray → exn + Target.sweep ndarray;
  neuron_run :
    gmap string (value num) → num → num → ndarray →
    ndarray → exn + Base.sweep ndarray
}.

(** [GLIFExperiment.FIT_PARAMETERS] *)
Definition FIT_PARAMETERS : list string :=
  ["coeff_th"; "coeff_C"; "coeff_G"; "coeff_a"; "coeff_b"; "coeff_a_vector"]%string.

(** [p[i:j]] for [0 <= i <= j]: the elements at positions [i .. j-1] that
    exist; never an error. *)
Definition slice {A : Type} (p : list A) (i j : nat) : list A :=
  take (j - i) (drop i p).

Section GLIFExperiment.
(** [num] is the type of numbers, [ndarray] the type of the arrays the
    harness only passes around (stimuli, target spike data, simulated
    traces). *)
Context {num ndarray : Type} `{!Neuron num ndarray}.

(** The fields set by [__init__]; [neuron] is the attribute dictionary of
    the neuron object. *)
Record GLIFExperiment : Type := Build_GLIFExperiment {
  neuron : gmap string (value num);
  dt : num;
  stim_list : list ndarray;
  grid_spike_index_target_list : list ndarray;
  grid_spike_time_target_list : list ndarray;
  interpolated_spike_time_target_list : list ndarray;
  init_voltage : num;
  init_threshold : num;
  init_AScurrents : ndarray;
  target_spike_mask : list ndarray;
  fit_names_list : list string
}.

(** One call of a simulation method: the attributes of the neuron at the
    time of the call, and the arguments. *)
Inductive sim_call : Type :=
| Call_run_wrt_target_spike_train
    (attrs : gmap string (value num)) (v th : num) (asc : ndarray)
    (stim grid_spike_index_target mask interpolated_spike_time_target : ndarray)
| Call_run
    (attrs : gmap string (value num)) (v th : num) (asc : ndarray)
    (stim : ndarray).

(** The initial (voltage, threshold, AScurrents) triple a call received. *)
Definition call_init (c : sim_call) : num * num * ndarray :=
  match c with
  | Call_run_wrt_target_spike_train _ v th asc _ _ _ _ => (v, th, asc)
  | Call_run _ v th asc _ => (v, th, asc)
  end.

(** *** The monad of the methods

    A method reads and updates [self], may raise, and calls the simulator;
    updates made before an exception stay. *)
Definition M (A : Type) : Type :=
  GLIFExperiment → (exn + A) * GLIFExperiment * list sim_call.

#[global] Instance M_ret : MRet M := λ A a self, (inr a, self, []).
#[global] Instance M_bind : MBind M := λ A B f m self,
  match m self with
  | (inl e, self', calls) => (inl e, self', calls)
  | (inr a, self', calls) =>
      let '(r, self'', calls') := f a self' in (r, self'', calls ++ calls')
  end.

Definition raise {A : Type} (e : exn) : M A := λ self, (inl e, self, []).

Definition get_self : M GLIFExperiment := λ self, (inr self, self, []).

(** [getattr(self.neuron, name)] *)
Definition getattr_neuron (name : string) : M (value num) := λ self,
  match neuron self !! name with
  | Some a => (inr a, self, [])
  | None => (inl (AttributeError name), self, [])
  end.

(** [self] with [self.neuron]'s attribute dictionary replaced; the other
    fields are kept. *)
Definition with_neuron (self : GLIFExperiment)
    (attrs : gmap string (value num)) : GLIFExperiment :=
  {| neuron := attrs;
     dt := dt self;
     stim_list := stim_list self;
     grid_spike_index_target_list := grid_spike_index_target_list self;
     grid_spike_time_target_list := grid_spike_time_target_list self;
     interpolated_spike_time_target_list :=
       interpolated_spike_time_target_list self;
     init_voltage := init_voltage self;
     init_threshold := init_threshold self;
     init_AScurrents := init_AScurrents self;
     target_spike_mask := target_spike_mask self;
     fit_names_list := fit_names_list self |}.

(** [setattr(self.neuron, name, a)] *)
Definition setattr_neuron (name : string) (a : value num) : M unit := λ self,
  (inr tt, with_neuron self (<[name := a]> (neuron self)), []).

(** [l[i]] for [0 <= i] *)
Definition getitem {A : Type} (l : list A) (i : nat) : M A :=
  match l !! i with
  | Some x => mret x
  | None => raise IndexError
  end.

(** *** set_neuron_parameters *)

(** The body of [for fit_name in self.fit_names_list], with the local
    [index]; the value is [index] after the loop. *)
Fixpoint fit_loop (fit_names : list string) (param_guess : list num)
    (index : nat) : M nat :=
  match fit_names with
  | [] => mret index
  | fit_name :: rest =>
      a ← getattr_neuron fit_name;
      match a with
      | Vector xs =>
          let a_size := length xs in
          setattr_neuron fit_name
            (Vector (slice param_guess index (index + a_size)));;
          fit_loop rest param_guess (index + a_size)
      | Scalar _ =>
          x ← getitem param_guess index;
          setattr_neuron fit_name (Scalar x);;
          fit_loop rest param_guess (index + 1)
      end
  end.

Definition set_neuron_parameters (param_guess : list num) : M unit :=
  self ← get_self;
  if existsb (λ param, negb (bool_decide (param ∈ FIT_PARAMETERS)))
       (fit_names_list self)
  then raise NotAllowed
  else
    fit_loop (fit_names_list self) param_guess 0;;
    mret tt.

(** *** run *)

(** [self.neuron.run_wrt_target_spike_train(...)] *)
Definition call_run_wrt_target_spike_train (v th : num) (asc : ndarray)
    (stim grid_spike_index_target mask interpolated_spike_time_target : ndarray)
    : M (Target.sweep ndarray) := λ self,
  (neuron_run_wrt_target_spike_train (neuron self) v th asc
     stim grid_spike_index_target mask interpolated_spike_time_target,
   self,
   [Call_run_wrt_target_spike_train (neuron self) v th asc
      stim grid_spike_index_target mask interpolated_spike_time_target]).

Definition run_no_lists : Target.lists ndarray :=
  Target.Lists [] [] [] [] [] [] [] [] [] [] [].

(** The eleven [append]s at the end of the loop body of [run]. *)
Definition run_append (l : Target.lists ndarray) (r : Target.sweep ndarray)
    : Target.lists ndarray :=
  {| Target.interpolatedTime_list :=
       Target.interpolatedTime_list l ++ [Target.interpolatedTime r];
     Target.voltage_list := Target.voltage_list l ++ [Target.voltage r];
     Target.threshold_list := Target.threshold_list l ++ [Target.threshold r];
     Target.gridTime_list := Target.gridTime_list l ++ [Target.gridTime r];
     Target.gridISIFromLastTargSpike_list :=
       Target.gridISIFromLastTargSpike_list l
         ++ [Target.gridISIFromLastTargSpike r];
     Target.interpolatedISIFromLastTargSpike_list :=
       Target.interpolatedISIFromLastTargSpike_list l
         ++ [Target.interpolatedISIFromLastTargSpike r];
     Target.voltageOfModelAtGridBioSpike_list :=
       Target.voltageOfModelAtGridBioSpike_list l
         ++ [Target.voltageOfModelAtGridBioSpike_array r];
     Target.theshOfModelAtGridBioSpike_list :=
       Target.theshOfModelAtGridBioSpike_list l
         ++ [Target.theshOfModelAtGridBioSpike_array r];
     Target.voltageOfModelAtInterpolatedBioSpike_list :=
       Target.voltageOfModelAtInterpolatedBioSpike_list l
         ++ [Target.voltageOfModelAtInterpolatedTargSpike_array r];
     Target.thresholdOfModelAtInterpolatedBioSpike_list :=
       Target.thresholdOfModelAtInterpolatedBioSpike_list l
         ++ [Target.thresholdOfModelAtInterpolatedTargSpike_array r];
     Target.AScurrentMatrix_list :=
       Target.AScurrentMatrix_list l ++ [Target.AScurrentMatrix r] |}.

(** [for stim_list_index in range(0,len(stim_list))], over the indices
    still to visit; [stim_list] and [grid_spike_index_target_list] are the
    locals of [run]. *)
Fixpoint run_loop (stim_list grid_spike_index_target_list : list ndarray)
    (indices : list nat) (l : Target.lists ndarray)
    : M (Target.lists ndarray) :=
  match indices with
  | [] => mret l
  | stim_list_index :: rest =>
      self ← get_self;
      stim ← getitem stim_list stim_list_index;
      grid_spike_index_target ←
        getitem grid_spike_index_target_list stim_list_index;
      mask ← getitem (target_spike_mask self) stim_list_index;
      interpolated_spike_time_target ←
        getitem (interpolated_spike_time_target_list self) stim_list_index;
      r ← call_run_wrt_target_spike_train
            (init_voltage self) (init_threshold self) (init_AScurrents self)
            stim grid_spike_index_target mask interpolated_spike_time_target;
      run_loop stim_list grid_spike_index_target_list rest (run_append l r)
  end.

(** The tuple returned by [run], in the order of its [return]. *)
Definition run_tuple (l : Target.lists ndarray) : list (list ndarray) :=
  [ Target.voltage_list l;
    Target.threshold_list l;
    Target.AScurrentMatrix_list l;
    Target.gridTime_list l;
    Target.interpolatedTime_list l;
    Target.gridISIFromLastTargSpike_list l;
    Target.interpolatedISIFromLastTargSpike_list l;
    Target.voltageOfModelAtGridBioSpike_list l;
    Target.theshOfModelAtGridBioSpike_list l;
    Target.voltageOfModelAtInterpolatedBioSpike_list l;
    Target.thresholdOfModelAtInterpolatedBioSpike_list l ].

Definition run (param_guess : list num) : M (list (list ndarray)) :=
  self ← get_self;
  let stim_list := stim_list self in
  let grid_spike_index_target_list := grid_spike_index_target_list self in
  set_neuron_parameters param_guess;;
  l ← run_loop stim_list grid_spike_index_target_list
        (seq 0 (length stim_list)) run_no_lists;
  mret (run_tuple l).

(** *** run_base_model *)

(** [self.neuron.run(...)] *)
Definition call_run (v th : num) (asc : ndarray) (stim : ndarray)
    : M (Base.sweep ndarray) := λ self,
  (neuron_run (neuron self) v th asc stim,
   self,
   [Call_run (neuron self) v th asc stim]).

Definition run_base_model_no_lists : Base.lists ndarray :=
  Base.Lists [] [] [] [] [] [] [] [].

(** The eight [append]s at the end of the loop body of [run_base_model];
    the last one appends [interpolatedSpikeVoltage]. *)
Definition run_base_model_append (l : Base.lists ndarray)
    (r : Base.sweep ndarray) : Base.lists ndarray :=
  {| Base.voltage_list := Base.voltage_list l ++ [Base.voltage r];
     Base.threshold_list := Base.threshold_list l ++ [Base.threshold r];
     Base.AScurrentMatrix_list :=
       Base.AScurrentMatrix_list l ++ [Base.AScurrentMatrix r];
     Base.gridSpikeTime_list :=
       Base.gridSpikeTime_list l ++ [Base.gridSpikeTime r];
     Base.interpolatedSpikeTime_list :=
       Base.interpolatedSpikeTime_list l ++ [Base.interpolatedSpikeTime r];
     Base.gridSpikeIndex_list :=
       Base.gridSpikeIndex_list l ++ [Base.gridSpikeIndex r];
     Base.interpolatedSpikeVoltage_list :=
       Base.interpolatedSpikeVoltage_list l
         ++ [Base.interpolatedSpikeVoltage r];
     Base.interpolatedSpikeThreshold_list :=
       Base.interpolatedSpikeThreshold_list l
         ++ [Base.interpolatedSpikeVoltage r] |}.

(** [for stim_list_index in xrange(len(stim_list))] *)
Fixpoint run_base_model_loop (stim_list : list ndarray)
    (indices : list nat) (l : Base.lists ndarray)
    : M (Base.lists ndarray) :=
  match indices with
  | [] => mret l
  | stim_list_index :: rest =>
      self ← get_self;
      stim ← getitem stim_list stim_list_index;
      r ← call_run
            (init_voltage self) (init_threshold self) (init_AScurrents self)
            stim;
      run_base_model_loop stim_list rest (run_base_model_append l r)
  end.

(** The tuple returned by [run_base_model], in the order of its [return]. *)
Definition run_base_model_tuple (l : Base.lists ndarray)
    : list (list ndarray) :=
  [ Base.voltage_list l;
    Base.threshold_list l;
    Base.AScurrentMatrix_list l;
    Base.gridSpikeTime_list l;
    Base.interpolatedSpikeTime_list l;
    Base.gridSpikeIndex_list l;
    Base.interpolatedSpikeVoltage_list l;
    Base.interpolatedSpikeThreshold_list l ].

Definition run_base_model (param_guess : list num)
    : M (list (list ndarray)) :=
  self ← get_self;
  let stim_list := stim_list self in
  set_neuron_parameters param_guess;;
  l ← run_base_model_loop stim_list (seq 0 (length stim_list))
        run_base_model_no_lists;
  mret (run_base_model_tuple l).

End GLIFExperiment.

Arguments GLIFExperiment : clear implicits.
Arguments sim_call : clear implicits.
Arguments M : clear implicits.

(** ** The layout of the parameter vector *)

Section Layout.
Context {num ndarray : Type}.
Implicit Types (self : GLIFExperiment num ndarray).
Implicit Types (m : gmap string (value num)) (p : list num).

(** The slots an attribute takes in the parameter vector: one for a number,
    its length for a sequence. *)
Definition slot_count (a : value num) : nat :=
  match a with
  | Scalar _ => 1
  | Vector xs => length xs
  end.

Definition slots m (name : string) : nat :=
  from_option slot_count 0 (m !! name).

(** The sum of the slots of the names of a fit specification. *)
Definition required_slots m (fit_names : list string) : nat :=
  sum_list_with (slots m) fit_names.

(** The cursor at position [i] of the fit specification: the slots of the
    names before it. *)
Definition cursor_at m (fit_names : list string) (i : nat) : nat :=
  required_slots m (take i fit_names).

(** What an attribute holding [a] receives when the cursor is [c]. *)
Definition chunk (a : value num) p (c : nat) : option (value num) :=
  match a with
  | Scalar _ => Scalar <$> p !! c
  | Vector xs => Some (Vector (slice p c (c + length xs)))
  end.

(** [b] is what an attribute holding [a] receives from a parameter vector
    that reaches far enough when the cursor is [c]: a number the value at
    the cursor, a sequence of length [k] the next [k] values. *)
Definition receives (a : value num) p (c : nat) (b : option (value num))
    : Prop :=
  match a with
  | Scalar _ => ∃ x, p !! c = Some x ∧ b = Some (Scalar x)
  | Vector xs =>
      c + length xs ≤ length p ∧
      b = Some (Vector (take (length xs) (drop c p)))
  end.

(** Two values of the same kind and, for sequences, of the same length. *)
Definition same_shape (a b : value num) : Prop :=
  match a, b with
  | Scalar _, Scalar _ => True
  | Vector xs, Vector ys => length xs = length ys
  | _, _ => False
  end.

(** Two attribute dictionaries with the same names, kinds and lengths. *)
Definition shapes_agree m m' : Prop :=
  ∀ name, option_Forall2 same_shape (m !! name) (m' !! name).

(** A parameter vector the fit specification of [self] accepts: every name
    is in the allow-list and is an attribute of the neuron, and the vector
    covers the required slots. *)
Definition valid_params self p : Prop :=
  Forall (λ name, name ∈ FIT_PARAMETERS ∧ is_Some (neuron self !! name))
    (fit_names_list self) ∧
  required_slots (neuron self) (fit_names_list self) ≤ length p.

(** [hasattr(a, "__len__")] *)
Definition has_len (a : value num) : bool :=
  match a with
  | Scalar _ => false
  | Vector _ => true
  end.

(** The names of a fit specification whose attribute is a sequence, in the
    order and with the repetitions of the fit specification. *)
Definition sequence_names m (fit_names : list string) : list string :=
  List.filter (λ name, bool_decide (has_len <$> m !! name = Some true))
    fit_names.

(** The cursor [c2] of a second mapping of [p] against the cursor [c1] of
    the first one: the same while the first is inside [p]; at the end of
    [p] once the first is beyond it. *)
Definition cursor_follows p (c1 c2 : nat) : Prop :=
  (c1 = c2 ∧ c1 ≤ length p) ∨ (length p < c1 ∧ c2 = length p).

(** The simulation of sweep [i] in target-driven mode: what
    [run_wrt_target_spike_train] gives on the data of sweep [i] from the
    stored initial triple; [None] when a list has no entry [i]. *)
Definition simulate_target `{!Neuron num ndarray} self (i : nat)
    : option (exn + Target.sweep ndarray) :=
  stim ← stim_list self !! i;
  grid_spike_index_target ← grid_spike_index_target_list self !! i;
  mask ← target_spike_mask self !! i;
  interpolated_spike_time_target ←
    interpolated_spike_time_target_list self !! i;
  Some (neuron_run_wrt_target_spike_train (neuron self)
          (init_voltage self) (init_threshold self) (init_AScurrents self)
          stim grid_spike_index_target mask interpolated_spike_time_target).

(** The simulation of sweep [i] in free-running mode. *)
Definition simulate_base `{!Neuron num ndarray} self (i : nat)
    : option (exn + Base.sweep ndarray) :=
  stim ← stim_list self !! i;
  Some (neuron_run (neuron self)
          (init_voltage self) (init_threshold self) (init_AScurrents self)
          stim).

(** The attributes of the neuron a call saw. *)
Definition call_attrs (c : sim_call num ndarray) : gmap string (value num) :=
  match c with
  | Call_run_wrt_target_spike_train attrs _ _ _ _ _ _ _ => attrs
  | Call_run attrs _ _ _ _ => attrs
  end.

(** A call made on the neuron of [self] from its stored initial triple. *)
Definition call_of self (c : sim_call num ndarray) : Prop :=
  call_init c = (init_voltage self, init_threshold self, init_AScurrents self)
  ∧ call_attrs c = neuron self.

(** The eleven sequences of [run] when the sweeps gave [rs], in the order
    of its [return]. *)
Definition target_sequences (rs : list (Target.sweep ndarray))
    : list (list ndarray) :=
  [ Target.voltage <$> rs;
    Target.threshold <$> rs;
    Target.AScurrentMatrix <$> rs;
    Target.gridTime <$> rs;
    Target.interpolatedTime <$> rs;
    Target.gridISIFromLastTargSpike <$> rs;
    Target.interpolatedISIFromLastTargSpike <$> rs;
    Target.voltageOfModelAtGridBioSpike_array <$> rs;
    Target.theshOfModelAtGridBioSpike_array <$> rs;
    Target.voltageOfModelAtInterpolatedTargSpike_array <$> rs;
    Target.thresholdOfModelAtInterpolatedTargSpike_array <$> rs ].

(** The eight sequences of [run_base_model] when the sweeps gave [rs], in
    the order of its [return]; the last one holds the interpolated spike
    voltages. *)
Definition base_sequences (rs : list (Base.sweep ndarray))
    : list (list ndarray) :=
  [ Base.voltage <$> rs;
    Base.threshold <$> rs;
    Base.AScurrentMatrix <$> rs;
    Base.gridSpikeTime <$> rs;
    Base.interpolatedSpikeTime <$> rs;
    Base.gridSpikeIndex <$> rs;
    Base.interpolatedSpikeVoltage <$> rs;
    Base.interpolatedSpikeVoltage <$> rs ].

(** A fit specification given with the slice of the parameter vector of
    each name: the names are [entries.*1], the parameter vector is the
    concatenation of [entries.*2].  [swap_entries] exchanges the entries at
    positions [i] and [j], names and slices together. *)
Definition swap_entries (entries : list (string * list num)) (i j : nat)
    : list (string * list num) :=
  match entries !! i, entries !! j with
  | Some ei, Some ej => <[j := ei]> (<[i := ej]> entries)
  | _, _ => entries
  end.

(** The slice of an entry has the slots of the attribute it names. *)
Definition entry_fits m (entry : string * list num) : Prop :=
  ∃ a, m !! entry.1 = Some a ∧ length entry.2 = slot_count a.

(** The value an attribute holding [a] takes from its slice [s]. *)
Definition entry_value (a : value num) (s : list num) : option (value num) :=
  match a with
  | Scalar _ => Scalar <$> head s
  | Vector _ => Some (Vector s)
  end.


(** A dataset with [n] sweeps: the four per-sweep lists have [n] entries. *)
Definition dataset_with (n : nat) self : Prop :=
  length (stim_list self) = n ∧
  length (grid_spike_index_target_list self) = n ∧
  length (target_spike_mask self) = n ∧
  length (interpolated_spike_time_target_list self) = n.

(** The state [set_neuron_parameters] leaves. *)
Definition mapped self p : GLIFExperiment num ndarray :=
  (set_neuron_parameters p self).1.2.
End Layout.

(** ** What the methods read and keep *)

Section Inputs.
Context {num ndarray : Type}.
Implicit Types (self : GLIFExperiment num ndarray).
Implicit Types (m : gmap string (value num)) (p : list num).

(** [b] is of the kind of [a] and, for a sequence, not longer than [a]. *)
Definition shrinks (a b : value num) : Prop :=
  match a, b with
  | Scalar _, Scalar _ => True
  | Vector xs, Vector ys => length ys ≤ length xs
  | _, _ => False
  end.

(** [m'] has the names of [m], each with a value that [shrinks] the one of
    [m]. *)
Definition shrinks_all m m' : Prop :=
  ∀ name, option_Forall2 shrinks (m !! name) (m' !! name).

(** The call [run] makes for sweep [i]: the entries [i] of the four lists
    it reads; [None] when a list has no entry [i]. *)
Definition target_call self (i : nat) : option (sim_call num ndarray) :=
  stim ← stim_list self !! i;
  grid_spike_index_target ← grid_spike_index_target_list self !! i;
  mask ← target_spike_mask self !! i;
  interpolated_spike_time_target ←
    interpolated_spike_time_target_list self !! i;
  Some (Call_run_wrt_target_spike_train (neuron self)
          (init_voltage self) (init_threshold self) (init_AScurrents self)
          stim grid_spike_index_target mask interpolated_spike_time_target).

(** The call [run_base_model] makes for sweep [i]. *)
Definition base_call self (i : nat) : option (sim_call num ndarray) :=
  stim ← stim_list self !! i;
  Some (Call_run (neuron self)
          (init_voltage self) (init_threshold self) (init_AScurrents self)
          stim).

(** Two runners with the same neuron, fit specification, stimuli and
    initial triple: they may differ in the target spike data and in [dt]. *)
Definition same_base_inputs self1 self2 : Prop :=
  neuron self1 = neuron self2 ∧
  fit_names_list self1 = fit_names_list self2 ∧
  stim_list self1 = stim_list self2 ∧
  init_voltage self1 = init_voltage self2 ∧
  init_threshold self1 = init_threshold self2 ∧
  init_AScurrents self1 = init_AScurrents self2.

(** Two runners that may differ only in [dt] and in
    [grid_spike_time_target_list]. *)
Definition same_target_inputs self1 self2 : Prop :=
  same_base_inputs self1 self2 ∧
  grid_spike_index_target_list self1 = grid_spike_index_target_list self2 ∧
  target_spike_mask self1 = target_spike_mask self2 ∧
  interpolated_spike_time_target_list self1 =
    interpolated_spike_time_target_list self2.
End Inputs.

(** ** The client of the data API: allensdk/api/api.py

    An [Api] object is the record of the attributes [__init__] sets.  The
    network, the JSON parser, [urllib2.quote] and the opening of files are
    the environment [Web]; a method runs on a world of files, the error
    log and the list of the urls requested. *)

Module Api.

(** The exceptions the methods tell apart: [urllib2.HTTPError], which
    [retrieve_file_over_http] catches, and every other one. *)
Inductive exn : Type :=
| HTTPError (code : nat)
| OtherError (what : string).

(** [Api.default_api_url] *)
Definition default_api_url : string := "http://api.brain-map.org".

Record t : Type := Build {
  api_url : string;
  well_known_file_endpoint : string;
  expression_grid_endpoint : string;
  svg_download_endpoint : string;
  structure_graph_endpoint : string;
  tree_search_endpoint : string;
  annotated_section_data_sets_endpoint : string;
  image_to_atlas_endpoint : string;
  image_to_image_endpoint : string;
  image_to_image_2d_endpoint : string;
  reference_to_image_endpoint : string;
  image_to_reference_endpoint : string;
  structure_to_image_endpoint : string;
  rma_endpoint : string;
  default_working_directory : option string
}.

(** The object before [__init__] has set anything; [__init__] overwrites
    every field. *)
Definition fresh : t :=
  Build "" "" "" "" "" "" "" "" "" "" "" "" "" "" None.

Definition set_api_urls (api_base_url_string : string) (self : t) : t :=
  {| api_url := api_base_url_string;
     well_known_file_endpoint :=
       api_base_url_string +:+ "/api/v2/well_known_file_download";
     expression_grid_endpoint := api_base_url_string +:+ "/grid_data";
     svg_download_endpoint := api_base_url_string +:+ "/api/v2/svg_download";
     structure_graph_endpoint :=
       api_base_url_string +:+ "/api/v2/structure_graph_download";
     tree_search_endpoint := api_base_url_string +:+ "/api/v2/tree_search";
     annotated_section_data_sets_endpoint :=
       api_base_url_string +:+ "/api/v2/annotated_section_data_sets";
     image_to_atlas_endpoint :=
       api_base_url_string +:+ "/api/v2/image_to_atlas";
     image_to_image_endpoint :=
       api_base_url_string +:+ "/api/v2/image_to_image";
     image_to_image_2d_endpoint :=
       api_base_url_string +:+ "/api/v2/image_to_image_2d";
     reference_to_image_endpoint :=
       api_base_url_string +:+ "/api/v2/reference_to_image";
     image_to_reference_endpoint :=
       api_base_url_string +:+ "/api/v2/image_to_reference";
     structure_to_image_endpoint :=
       api_base_url_string +:+ "/api/v2/structure_to_image";
     rma_endpoint := api_base_url_string +:+ "/api/v2/data";
     default_working_directory := default_working_directory self |}.

(** [self.default_working_directory = d] *)
Definition with_default_working_directory (d : option string) (self : t) : t :=
  {| api_url := api_url self;
     well_known_file_endpoint := well_known_file_endpoint self;
     expression_grid_endpoint := expression_grid_endpoint self;
     svg_download_endpoint := svg_download_endpoint self;
     structure_graph_endpoint := structure_graph_endpoint self;
     tree_search_endpoint := tree_search_endpoint self;
     annotated_section_data_sets_endpoint :=
       annotated_section_data_sets_endpoint self;
     image_to_atlas_endpoint := image_to_atlas_endpoint self;
     image_to_image_endpoint := image_to_image_endpoint self;
     image_to_image_2d_endpoint := image_to_image_2d_endpoint self;
     reference_to_image_endpoint := reference_to_image_endpoint self;
     image_to_reference_endpoint := image_to_reference_endpoint self;
     structure_to_image_endpoint := structure_to_image_endpoint self;
     rma_endpoint := rma_endpoint self;
     default_working_directory := d |}.

(** [Api.__init__]; [None] is the default of [api_base_url_string]. *)
Definition init (api_base_url_string : option string) : t :=
  let api_base_url_string :=
    match api_base_url_string with
    | None => default_api_url
    | Some url => url
    end in
  with_default_working_directory None (set_api_urls api_base_url_string fresh).

Definition set_default_working_directory (working_directory : string)
    (self : t) : t :=
  with_default_working_directory (Some working_directory) self.

(** [well_known_file_id]: an integer or a string. *)
Inductive file_id : Type :=
| IdInt (z : Z)
| IdStr (s : string).

(** [str(well_known_file_id)] *)
Definition str (id : file_id) : string :=
  match id with
  | IdInt z => pretty z
  | IdStr s => s
  end.

Definition construct_well_known_file_download_url (self : t)
    (well_known_file_id : file_id) : string :=
  well_known_file_endpoint self +:+ str well_known_file_id.

(** *** The environment and the world *)

(** [urlopen url] is the body of the response of [urllib2.urlopen(url)] or
    the exception it raises; [json_load] is [json.load] on a body; [quote]
    is [urllib2.quote]; [opens path] tells whether [open(path, 'wb')]
    succeeds (it raises an [IOError] otherwise). *)
Class Web (json : Type) : Type := {
  urlopen : string → exn + string;
  json_load : string → exn + json;
  quote : string → string → string;
  opens : string → bool
}.

Record world : Type := World {
  files : gmap string string;
  log : list string;
  requests : list string
}.

(** A method runs on the world and returns or raises. *)
Definition IO (A : Type) : Type := world → (exn + A) * world.

#[global] Instance IO_ret : MRet IO := λ A a w, (inr a, w).
#[global] Instance IO_bind : MBind IO := λ A B f m w,
  match m w with
  | (inl e, w') => (inl e, w')
  | (inr a, w') => f a w'
  end.

Definition raise {A : Type} (e : exn) : IO A := λ w, (inl e, w).

(** The value or the exception of a function given by the caller. *)
Definition call {A : Type} (r : exn + A) : IO A := λ w, (r, w).

(** [try: body except urllib2.HTTPError: handler; raise] *)
Definition try_except_HTTPError {A : Type} (body : IO A) (handler : IO unit)
    : IO A := λ w,
  match body w with
  | (inl (HTTPError code), w') =>
      match handler w' with
      | (inl e, w'') => (inl e, w'')
      | (inr _, w'') => (inl (HTTPError code), w'')
      end
  | r => r
  end.

Section Methods.
Context {json : Type} `{!Web json}.

(** [urllib2.urlopen(url)], read to the end *)
Definition do_urlopen (url : string) : IO string := λ w,
  (urlopen url,
   {| files := files w; log := log w; requests := requests w ++ [url] |}).

(** [open(file_path, 'wb')]: the file is created or emptied. *)
Definition open_wb (file_path : string) : IO unit := λ w,
  if opens file_path
  then (inr (),
        {| files := <[file_path := ""]> (files w);
           log := log w; requests := requests w |})
  else (inl (OtherError "IOError"), w).

(** [f.write(data)] on the file just opened, then its closing *)
Definition write (file_path : string) (data : string) : IO unit := λ w,
  (inr (),
   {| files := <[file_path := data]> (files w);
      log := log w; requests := requests w |}).

(** [self._log.error(message)] *)
Definition log_error (message : string) : IO unit := λ w,
  (inr (),
   {| files := files w; log := log w ++ [message]; requests := requests w |}).

Definition retrieve_parsed_json_over_http (rma_url : string) : IO json :=
  response ← do_urlopen rma_url;
  call (json_load response).

Definition do_rma_query {A B : Type} (rma_builder_fn : A → exn + string)
    (json_traversal_fn : json → exn + B) (args : A) : IO B :=
  rma_url ← call (rma_builder_fn args);
  let quoted_rma_url := quote rma_url ";/?:@&=+$," in
  json_parsed_data ← retrieve_parsed_json_over_http quoted_rma_url;
  call (json_traversal_fn json_parsed_data).

Definition load_api_schema (self : t) : IO json :=
  let schema_url := rma_endpoint self +:+ "/enumerate.json" in
  retrieve_parsed_json_over_http schema_url.

Definition retrieve_file_over_http (url file_path : string) : IO unit :=
  try_except_HTTPError
    (open_wb file_path;;
     response ← do_urlopen url;
     write file_path response)
    (log_error ("Couldn't retrieve file from " +:+ url)).
End Methods.

(** The calls of the two setters after [__init__]. *)
Inductive setter : Type :=
| SetApiUrls (api_base_url_string : string)
| SetDefaultWorkingDirectory (working_directory : string).

Definition apply_setter (self : t) (c : setter) : t :=
  match c with
  | SetApiUrls url => set_api_urls url self
  | SetDefaultWorkingDirectory d => set_default_working_directory d self
  end.

(** Every endpoint is [api_url] followed by its path. *)
Definition endpoints_follow_api_url (self : t) : Prop :=
  well_known_file_endpoint self =
    api_url self +:+ "/api/v2/well_known_file_download" ∧
  expression_grid_endpoint self = api_url self +:+ "/grid_data" ∧
  svg_download_endpoint self = api_url self +:+ "/api/v2/svg_download" ∧
  structure_graph_endpoint self =
    api_url self +:+ "/api/v2/structure_graph_download" ∧
  tree_search_endpoint self = api_url self +:+ "/api/v2/tree_search" ∧
  annotated_section_data_sets_endpoint self =
    api_url self +:+ "/api/v2/annotated_section_data_sets" ∧
  image_to_atlas_endpoint self = api_url self +:+ "/api/v2/image_to_atlas" ∧
  image_to_image_endpoint self = api_url self +:+ "/api/v2/image_to_image" ∧
  image_to_image_2d_endpoint self =
    api_url self +:+ "/api/v2/image_to_image_2d" ∧
  reference_to_image_endpoint self =
    api_url self +:+ "/api/v2/reference_to_image" ∧
  image_to_reference_endpoint self =
    api_url self +:+ "/api/v2/image_to_reference" ∧
  structure_to_image_endpoint self =
    api_url self +:+ "/api/v2/structure_to_image" ∧
  rma_endpoint self = api_url self +:+ "/api/v2/data".

(** The url the last [set_api_urls] of [calls] gave, [url] if there is
    none. *)
Definition last_api_url (url : string) (calls : list setter) : string :=
  foldl (λ u c, match c with SetApiUrls u' => u' | _ => u end) url calls.

(** The directory the last [set_default_working_directory] of [calls]
    gave, [d] if there is none. *)
Definition last_working_directory (d : option string) (calls : list setter)
    : option string :=
  foldl (λ d c, match c with
                | SetDefaultWorkingDirectory d' => Some d'
                | _ => d
                end) d calls.

End Api.

(** ** A concrete runner

    Integers for numbers, lists of integers for arrays; the neuron holds two
    numbers and a sequence of three, and its simulation methods return
    tuples built from its [coeff_a_vector] and from their arguments. *)

Module Examples.
Definition attrs : gmap string (value Z) :=
  {[ "coeff_th" := Scalar 0%Z;
     "coeff_C" := Scalar 0%Z;
     "coeff_a_vector" := Vector [0; 0; 0]%Z ]}.

Definition coeffs (m : gmap string (value Z)) : list Z :=
  match m !! "coeff_a_vector" with
  | Some (Vector xs) => xs
  | _ => []
  end.

Definition echo : Neuron Z (list Z) :=
  {| neuron_run_wrt_target_spike_train m v th asc stim grid mask interp :=
       inr (Target.Sweep (coeffs m) stim asc grid interp mask mask
              [v] [th] [v] [th]);
     neuron_run m v th asc stim :=
       inr (Base.Sweep (coeffs m) stim asc stim stim stim [v] [th]) |}.

(** A runner on the sweeps [sweeps] with the fit specification [names]. *)
Definition runner (names : list string) (sweeps : list (list Z))
    : GLIFExperiment Z (list Z) :=
  {| neuron := attrs;
     dt := 1%Z;
     stim_list := sweeps;
     grid_spike_index_target_list := sweeps;
     grid_spike_time_target_list := sweeps;
     interpolated_spike_time_target_list := sweeps;
     init_voltage := 0%Z;
     init_threshold := 1%Z;
     init_AScurrents := [0; 0]%Z;
     target_spike_mask := sweeps;
     fit_names_list := names |}.

Definition two_sweeps : list (list Z) := [[5; 6]; [7]]%Z.

(** What [echo] returns on [two_sweeps] once [[1; 2; 3; 4]] is mapped on
    [coeff_th] and [coeff_a_vector]. *)
Definition target_results : list (Target.sweep (list Z)) :=
  (λ stim, Target.Sweep [2; 3; 4] stim [0; 0] stim stim stim stim
             [0] [1] [0] [1])%Z <$> two_sweeps.

Definition base_results : list (Base.sweep (list Z)) :=
  (λ stim, Base.Sweep [2; 3; 4] stim [0; 0] stim stim stim [0] [1])%Z
    <$> two_sweeps.

(** A fit specification that names [coeff_th] twice, with its slices. *)
Definition repeated_entries : list (string * list Z) :=
  [("coeff_th", [1]); ("coeff_th", [2]); ("coeff_C", [3])]%Z.

Definition distinct_entries : list (string * list Z) :=
  [("coeff_th", [1]); ("coeff_a_vector", [2; 3; 4]); ("coeff_C", [5])]%Z.
End Examples.

(** ** More concrete runners and a concrete web *)

Module MoreExamples.
(** A neuron whose simulation methods raise on the stimulus [[7]] and
    return what [Examples.echo] returns on the others. *)
Definition moody : Neuron Z (list Z) :=
  {| neuron_run_wrt_target_spike_train m v th asc stim grid mask interp :=
       if bool_decide (stim = [7%Z]) then inl SimulationError
       else inr (Target.Sweep (Examples.coeffs m) stim asc grid interp mask
                   mask [v] [th] [v] [th]);
     neuron_run m v th asc stim :=
       if bool_decide (stim = [7%Z]) then inl SimulationError
       else inr (Base.Sweep (Examples.coeffs m) stim asc stim stim stim
                   [v] [th]) |}.

(** What both neurons return on the first of [Examples.two_sweeps]. *)
Definition first_target_result : Target.sweep (list Z) :=
  (Target.Sweep [2; 3; 4] [5; 6] [0; 0] [5; 6] [5; 6] [5; 6] [5; 6]
     [0] [1] [0] [1])%Z.

Definition first_base_result : Base.sweep (list Z) :=
  (Base.Sweep [2; 3; 4] [5; 6] [0; 0] [5; 6] [5; 6] [5; 6] [0] [1])%Z.

(** A runner on two sweeps whose mask list has one entry only. *)
Definition ragged : GLIFExperiment Z (list Z) :=
  {| neuron := Examples.attrs;
     dt := 1%Z;
     stim_list := Examples.two_sweeps;
     grid_spike_index_target_list := Examples.two_sweeps;
     grid_spike_time_target_list := Examples.two_sweeps;
     interpolated_spike_time_target_list := Examples.two_sweeps;
     init_voltage := 0%Z;
     init_threshold := 1%Z;
     init_AScurrents := [0; 0]%Z;
     target_spike_mask := [[5; 6]]%Z;
     fit_names_list := ["coeff_th"; "coeff_a_vector"]%string |}.

(** [Examples.runner] on [Examples.two_sweeps] with another [dt], other
    grid spike times and, when [targets] is not [two_sweeps], other target
    spike data. *)
Definition other_data (targets : list (list Z)) : GLIFExperiment Z (list Z) :=
  {| neuron := Examples.attrs;
     dt := 2%Z;
     stim_list := Examples.two_sweeps;
     grid_spike_index_target_list := targets;
     grid_spike_time_target_list := [[9]]%Z;
     interpolated_spike_time_target_list := targets;
     init_voltage := 0%Z;
     init_threshold := 1%Z;
     init_AScurrents := [0; 0]%Z;
     target_spike_mask := targets;
     fit_names_list := ["coeff_th"; "coeff_a_vector"]%string |}.

(** A web with one file to download and one path that opens; a parsed
    document is its text, and [quote] changes nothing. *)
Definition web : Api.Web string :=
  {| Api.urlopen url :=
       if bool_decide (url = "http://host/file"%string) then inr "data"%string
       else if bool_decide (url = "http://host/down"%string)
       then inl (Api.OtherError "URLError")
       else inl (Api.HTTPError 404);
     Api.json_load body := inr body;
     Api.quote s safe := s;
     Api.opens path := bool_decide (path = "/tmp/f"%string) |}.

Definition world : Api.world :=
  Api.World {[ "/tmp/f"%string := "old"%string ]} [] [].
End MoreExamples.

Section Properties.
Context {num ndarray : Type} `{!Neuron num ndarray}.
Implicit Types (self : GLIFExperiment num ndarray).
Implicit Types (m : gmap string (value num)) (p : list num).
Implicit Types (names : list string) (name : string).

(** *** Records and the monad *)

Lemma with_neuron_id self : with_neuron self (neuron self) = self.
Proof. by destruct self. Qed.

Lemma with_neuron_twice self m m' :
  with_neuron (with_neuron self m) m' = with_neuron self m'.
Proof. done. Qed.

Lemma slice_length {A} (l : list A) i k :
  i + k ≤ length l → length (slice l i (i + k)) = k.
Proof.
  intros Hle. unfold slice. rewrite length_take, length_drop. lia.
Qed.

Lemma slice_length_le {A} (l : list A) i k : length (slice l i (i + k)) ≤ k.
Proof. unfold slice. rewrite length_take. lia. Qed.

(** *** One step of the loop of [set_neuron_parameters] *)

Lemma fit_loop_nil p c self : fit_loop [] p c self = (inr c, self, []).
Proof. done. Qed.

Lemma fit_loop_missing name names p c self :
  neuron self !! name = None →
  fit_loop (name :: names) p c self = (inl (AttributeError name), self, []).
Proof.
  intros Hm. cbn. unfold mbind, M_bind, getattr_neuron. by rewrite Hm.
Qed.

Lemma fit_loop_vector name names p c self xs :
  neuron self !! name = Some (Vector xs) →
  fit_loop (name :: names) p c self =
  fit_loop names p (c + length xs)
    (with_neuron self
       (<[name := Vector (slice p c (c + length xs))]> (neuron self))).
Proof.
  intros Hm. cbn. unfold mbind, M_bind, getattr_neuron. rewrite Hm. cbn.
  by destruct (fit_loop names p (c + length xs) _) as [[[e|c'] self'] calls].
Qed.

Lemma fit_loop_scalar name names p c self x0 x :
  neuron self !! name = Some (Scalar x0) →
  p !! c = Some x →
  fit_loop (name :: names) p c self =
  fit_loop names p (c + 1)
    (with_neuron self (<[name := Scalar x]> (neuron self))).
Proof.
  intros Hm Hp. cbn. unfold mbind, M_bind, getattr_neuron, getitem.
  rewrite Hm. cbn. rewrite Hp. cbn.
  by destruct (fit_loop names p (c + 1) _) as [[[e|c'] self'] calls].
Qed.

Lemma fit_loop_scalar_short name names p c self x0 :
  neuron self !! name = Some (Scalar x0) →
  p !! c = None →
  fit_loop (name :: names) p c self = (inl IndexError, self, []).
Proof.
  intros Hm Hp. cbn. unfold mbind, M_bind, getattr_neuron, getitem.
  rewrite Hm. cbn. by rewrite Hp.
Qed.

(** *** The frame of the loop: no simulator call, only [neuron] changes,
    and only at the names of the fit specification *)

Lemma fit_loop_frame names p c self :
  ∃ m',
    (fit_loop names p c self).1.2 = with_neuron self m' ∧
    (fit_loop names p c self).2 = [] ∧
    (∀ name, name ∉ names → m' !! name = neuron self !! name) ∧
    (∀ name, is_Some (neuron self !! name) → is_Some (m' !! name)).
Proof.
  revert c self. induction names as [|n names IH]; intros c self.
  { exists (neuron self). rewrite fit_loop_nil, with_neuron_id. done. }
  destruct (neuron self !! n) as [[x0|xs]|] eqn:Hn.
  - destruct (p !! c) as [x|] eqn:Hp.
    + rewrite (fit_loop_scalar _ _ _ _ _ _ _ Hn Hp).
      destruct (IH (c + 1) (with_neuron self (<[n:=Scalar x]> (neuron self))))
        as (m' & Hs & Hc & Hf & Hd).
      exists m'. rewrite Hs, Hc. split_and!; [done..| |].
      * intros name [Hne Hnot]%not_elem_of_cons.
        rewrite Hf by done. cbn. by rewrite lookup_insert_ne.
      * intros name Hsome. apply Hd. cbn.
        rewrite lookup_insert. case_decide; [by eexists | done].
    + rewrite (fit_loop_scalar_short _ _ _ _ _ _ Hn Hp).
      exists (neuron self). by rewrite with_neuron_id.
  - rewrite (fit_loop_vector _ _ _ _ _ _ Hn).
    destruct (IH (c + length xs) (with_neuron self
        (<[n:=Vector (slice p c (c + length xs))]> (neuron self))))
      as (m' & Hs & Hc & Hf & Hd).
    exists m'. rewrite Hs, Hc. split_and!; [done..| |].
    + intros name [Hne Hnot]%not_elem_of_cons.
      rewrite Hf by done. cbn. by rewrite lookup_insert_ne.
    + intros name Hsome. apply Hd. cbn.
      rewrite lookup_insert. case_decide; [by eexists | done].
  - rewrite (fit_loop_missing _ _ _ _ _ Hn).
    exists (neuron self). by rewrite with_neuron_id.
Qed.

(** *** Shapes *)

Lemma same_shape_refl (a : value num) : same_shape a a.
Proof. by destruct a. Qed.

Lemma same_shape_trans (a b c : value num) :
  same_shape a b → same_shape b c → same_shape a c.
Proof. destruct a, b, c; cbn; try done. congruence. Qed.

Lemma same_shape_slot_count (a b : value num) :
  same_shape a b → slot_count a = slot_count b.
Proof. by destruct a, b. Qed.

Lemma shapes_agree_refl m : shapes_agree m m.
Proof.
  intros name. destruct (m !! name); constructor. apply same_shape_refl.
Qed.

Lemma shapes_agree_trans m1 m2 m3 :
  shapes_agree m1 m2 → shapes_agree m2 m3 → shapes_agree m1 m3.
Proof.
  intros H12 H23 name. specialize (H12 name). specialize (H23 name).
  destruct H12 as [a b Hab|]; inversion H23; subst; constructor.
  eauto using same_shape_trans.
Qed.

Lemma shapes_agree_insert m name a b :
  m !! name = Some a → same_shape a b → shapes_agree m (<[name := b]> m).
Proof.
  intros Hm Hab n. rewrite lookup_insert. case_decide as Hn.
  - subst. rewrite Hm. by constructor.
  - apply shapes_agree_refl.
Qed.

Lemma shapes_agree_slots m m' name :
  shapes_agree m m' → slots m name = slots m' name.
Proof.
  intros Hs. unfold slots. destruct (Hs name); cbn; [|done].
  by apply same_shape_slot_count.
Qed.

Lemma shapes_agree_required_slots m m' names :
  shapes_agree m m' → required_slots m names = required_slots m' names.
Proof.
  intros Hs. unfold required_slots.
  induction names as [|n names IH]; cbn; [done|].
  by rewrite IH, (shapes_agree_slots _ _ _ Hs).
Qed.

Lemma shapes_agree_is_Some m m' name :
  shapes_agree m m' → is_Some (m !! name) → is_Some (m' !! name).
Proof.
  intros Hs [a Ha]. specialize (Hs name). rewrite Ha in Hs.
  inversion Hs. by eexists.
Qed.

Lemma same_shape_chunk (a b : value num) p c :
  same_shape a b → chunk a p c = chunk b p c.
Proof. destruct a, b; cbn; try done. by intros ->. Qed.

Lemma required_slots_cons m name names :
  required_slots m (name :: names) = slots m name + required_slots m names.
Proof. done. Qed.

Lemma cursor_at_0 m names : cursor_at m names 0 = 0.
Proof. unfold cursor_at. by rewrite take_0. Qed.

Lemma cursor_at_S m name names i :
  cursor_at m (name :: names) (S i) = slots m name + cursor_at m names i.
Proof. done. Qed.

(** *** The loop on a parameter vector that covers the required slots *)

Lemma fit_loop_valid names p c self :
  Forall (λ name, is_Some (neuron self !! name)) names →
  c + required_slots (neuron self) names ≤ length p →
  ∃ m',
    fit_loop names p c self =
      (inr (c + required_slots (neuron self) names), with_neuron self m', []) ∧
    shapes_agree (neuron self) m' ∧
    (∀ name, name ∉ names → m' !! name = neuron self !! name) ∧
    (∀ i name, names !! i = Some name → name ∉ drop (S i) names →
       m' !! name =
       neuron self !! name ≫= λ a,
         chunk a p (c + cursor_at (neuron self) names i)).
Proof.
  revert c self. induction names as [|n names IH]; intros c self Hin Hlen.
  { exists (neuron self). rewrite fit_loop_nil, with_neuron_id.
    unfold required_slots; cbn. rewrite Nat.add_0_r.
    split_and!; [done|apply shapes_agree_refl|done|]. by intros []. }
  apply Forall_cons in Hin as [[a Hn] Hin].
  assert (slots (neuron self) n = slot_count a) as Hslots
    by (unfold slots; by rewrite Hn).
  rewrite required_slots_cons, Hslots in Hlen |- *.
  assert (∃ b, chunk a p c = Some b ∧ same_shape a b ∧
            fit_loop (n :: names) p c self =
            fit_loop names p (c + slot_count a)
              (with_neuron self (<[n := b]> (neuron self))))
    as (b & Hchunk & Hab & ->).
  { destruct a as [x0|xs]; cbn in Hlen |- *.
    - destruct (lookup_lt_is_Some_2 p c) as [x Hp]; [lia|].
      exists (Scalar x). rewrite Hp. split_and!; [done..|].
      by apply (fit_loop_scalar _ _ _ _ _ x0).
    - eexists. split_and!; [done| |by apply fit_loop_vector].
      cbn. rewrite slice_length; [done|lia]. }
  set (self1 := with_neuron self (<[n := b]> (neuron self))).
  assert (shapes_agree (neuron self) (neuron self1)) as Hshape
    by by apply (shapes_agree_insert _ _ a).
  destruct (IH (c + slot_count a) self1) as (m' & Hrun & Hsh & Hfr & Hval).
  { eapply Forall_impl; [exact Hin|]. intros name Hsome. cbn.
    rewrite lookup_insert. case_decide; [by eexists|done]. }
  { rewrite <-(shapes_agree_required_slots _ _ _ Hshape). lia. }
  exists m'. rewrite Hrun, <-(shapes_agree_required_slots _ _ _ Hshape).
  split_and!.
  - do 3 f_equal. lia.
  - eauto using shapes_agree_trans.
  - intros name [Hne Hnot]%not_elem_of_cons. rewrite Hfr by done.
    cbn. by rewrite lookup_insert_ne.
  - intros [|i] name Hi Hlast; cbn in Hi, Hlast.
    + simplify_eq. rewrite drop_0 in Hlast. rewrite Hfr by done.
      unfold self1. cbn [neuron with_neuron].
      rewrite lookup_insert_eq, Hn, cursor_at_0, Nat.add_0_r. done.
    + rewrite (Hval i name Hi Hlast), cursor_at_S.
      unfold cursor_at.
      rewrite <-(shapes_agree_required_slots _ _ _ Hshape).
      rewrite Hslots, Nat.add_assoc.
      destruct (Hshape name) as [a1 a2 H12|]; [cbn|done].
      symmetry. by apply same_shape_chunk.
Qed.

(** The loop over a list is the loop over a prefix, then the loop over the
    rest from the cursor the prefix left. *)
Lemma fit_loop_app names1 names2 p c self :
  fit_loop (names1 ++ names2) p c self =
  (c' ← fit_loop names1 p c; fit_loop names2 p c') self.
Proof.
  revert c self. induction names1 as [|n names1 IH]; intros c self.
  { cbn. unfold mbind, M_bind, mret, M_ret.
    by destruct (fit_loop names2 p c self) as [[r s] calls]. }
  rewrite <-app_comm_cons. unfold mbind, M_bind.
  destruct (neuron self !! n) as [[x0|xs]|] eqn:Hn.
  - destruct (p !! c) as [x|] eqn:Hp.
    + rewrite !(fit_loop_scalar _ _ _ _ _ _ _ Hn Hp). apply IH.
    + by rewrite !(fit_loop_scalar_short _ _ _ _ _ _ Hn Hp).
  - rewrite !(fit_loop_vector _ _ _ _ _ _ Hn). apply IH.
  - by rewrite !(fit_loop_missing _ _ _ _ _ Hn).
Qed.

(** *** The allow-list check of [set_neuron_parameters] *)

Lemma allow_list_check_false names :
  existsb (λ param, negb (bool_decide (param ∈ FIT_PARAMETERS))) names = false
  ↔ Forall (λ name, name ∈ FIT_PARAMETERS) names.
Proof.
  induction names as [|n names IH]; cbn; [done|].
  rewrite orb_false_iff, negb_false_iff, bool_decide_eq_true, IH.
  by rewrite Forall_cons.
Qed.

Lemma allow_list_check_true names :
  existsb (λ param, negb (bool_decide (param ∈ FIT_PARAMETERS))) names = true
  ↔ Exists (λ name, name ∉ FIT_PARAMETERS) names.
Proof.
  induction names as [|n names IH]; cbn.
  { split; [done|by intros ?%Exists_nil]. }
  rewrite orb_true_iff, negb_true_iff, bool_decide_eq_false, IH.
  by rewrite Exists_cons.
Qed.

Lemma set_neuron_parameters_not_allowed p self :
  Exists (λ name, name ∉ FIT_PARAMETERS) (fit_names_list self) →
  set_neuron_parameters p self = (inl NotAllowed, self, []).
Proof.
  intros Hex%allow_list_check_true. unfold set_neuron_parameters.
  unfold mbind, M_bind, get_self. by rewrite Hex.
Qed.

Lemma set_neuron_parameters_allowed p self :
  Forall (λ name, name ∈ FIT_PARAMETERS) (fit_names_list self) →
  set_neuron_parameters p self =
  (fit_loop (fit_names_list self) p 0;; mret ()) self.
Proof.
  intros Hall%allow_list_check_false. unfold set_neuron_parameters.
  unfold mbind at 1, M_bind at 1, get_self. cbn. rewrite Hall.
  by destruct ((fit_loop _ _ _;; mret ()) self) as [[r s] calls].
Qed.

Lemma set_neuron_parameters_fit_loop p self c self' :
  Forall (λ name, name ∈ FIT_PARAMETERS) (fit_names_list self) →
  fit_loop (fit_names_list self) p 0 self = (inr c, self', []) →
  set_neuron_parameters p self = (inr (), self', []).
Proof.
  intros Hall Hloop. rewrite set_neuron_parameters_allowed by done.
  unfold mbind, M_bind. by rewrite Hloop.
Qed.

Lemma valid_params_allowed self p :
  valid_params self p →
  Forall (λ name, name ∈ FIT_PARAMETERS) (fit_names_list self).
Proof. intros [Hn _]. eapply Forall_impl; [exact Hn|]. by intros ? []. Qed.

Lemma valid_params_present self p :
  valid_params self p →
  Forall (λ name, is_Some (neuron self !! name)) (fit_names_list self).
Proof. intros [Hn _]. eapply Forall_impl; [exact Hn|]. by intros ? []. Qed.

(** On a valid parameter vector the mapping returns, keeps every shape, and
    leaves at each name the chunk of its last position. *)
Lemma set_neuron_parameters_valid self p :
  valid_params self p →
  ∃ m',
    set_neuron_parameters p self = (inr (), with_neuron self m', []) ∧
    shapes_agree (neuron self) m' ∧
    (∀ name, name ∉ fit_names_list self → m' !! name = neuron self !! name) ∧
    (∀ i name, fit_names_list self !! i = Some name →
       name ∉ drop (S i) (fit_names_list self) →
       m' !! name =
       neuron self !! name ≫= λ a,
         chunk a p (cursor_at (neuron self) (fit_names_list self) i)).
Proof.
  intros Hv.
  destruct (fit_loop_valid (fit_names_list self) p 0 self)
    as (m' & Hrun & Hsh & Hfr & Hval).
  { by eapply valid_params_present. }
  { destruct Hv as [_ Hlen]. lia. }
  exists m'. split_and!; [|done..].
  eapply set_neuron_parameters_fit_loop; [|exact Hrun].
  by eapply valid_params_allowed.
Qed.

Lemma slice_take_drop {A} (l : list A) c k :
  slice l c (c + k) = take k (drop c l).
Proof. unfold slice. by rewrite Nat.add_sub'. Qed.

Lemma required_slots_app m names1 names2 :
  required_slots m (names1 ++ names2) =
  required_slots m names1 + required_slots m names2.
Proof. apply sum_list_with_app. Qed.

Lemma required_slots_take_le m names i :
  required_slots m (take i names) ≤ required_slots m names.
Proof.
  rewrite <-(take_drop i names) at 2. rewrite required_slots_app. lia.
Qed.

Lemma cursor_at_step m names i name :
  names !! i = Some name →
  cursor_at m names (S i) = cursor_at m names i + slots m name.
Proof.
  intros Hi. unfold cursor_at. rewrite (take_S_r _ _ _ Hi).
  rewrite required_slots_app. unfold required_slots at 2. cbn. lia.
Qed.

Lemma chunk_receives (a : value num) p c b :
  c + slot_count a ≤ length p → chunk a p c = Some b → receives a p c (Some b).
Proof.
  destruct a as [x0|xs]; cbn; intros Hlen Hb.
  - destruct (p !! c) as [x|]; simplify_eq/=. by exists x.
  - simplify_eq. by rewrite slice_take_drop.
Qed.

(** A name of a list has a last position in it. *)
Lemma elem_of_last_position names name :
  name ∈ names → ∃ i, names !! i = Some name ∧ name ∉ drop (S i) names.
Proof.
  induction names as [|n names IH]; [by intros ?%elem_of_nil|].
  intros Hin. destruct (decide (name ∈ names)) as [Hrest|Hrest].
  - destruct (IH Hrest) as (i & Hi & Hlast). by exists (S i).
  - apply elem_of_cons in Hin as [->|]; [|done]. by exists 0.
Qed.

(** *** The layout of the parameter vector (C1) *)

(** C1: on a fit specification of allow-listed attribute names and a
    parameter vector that covers the required slots,
    [set_neuron_parameters] returns and has assigned the slots left to
    right with a cursor that starts at 0 and advances by the slots of each
    name (the length of a sequence, 1 for a number): when the loop has
    reached position [i] the attribute named there has received the chunk
    at the cursor of [i] (the next [k] values for a sequence of length [k],
    the value at the cursor for a number), and the attribute keeps it to
    the end when its name does not come again.  In particular for
    [fit_names = [scalar_attr; vector_attr]] with a sequence of length 3
    and [param_guess = [v0; v1; v2; v3]], afterwards [scalar_attr] is [v0]
    and [vector_attr] is [[v1; v2; v3]]. *)
Theorem set_neuron_parameters_layout :
  (∀ self p,
     valid_params self p →
     let names := fit_names_list self in
     let m := neuron self in
     ∃ m',
       set_neuron_parameters p self = (inr (), with_neuron self m', []) ∧
       cursor_at m names 0 = 0 ∧
       ∀ i name,
         names !! i = Some name →
         cursor_at m names (S i) = cursor_at m names i + slots m name ∧
         ∃ a m_i,
           m !! name = Some a ∧
           fit_loop (take (S i) names) p 0 self =
             (inr (cursor_at m names (S i)), with_neuron self m_i, []) ∧
           fit_loop names p 0 self =
             fit_loop (drop (S i) names) p (cursor_at m names (S i))
               (with_neuron self m_i) ∧
           receives a p (cursor_at m names i) (m_i !! name) ∧
           (name ∉ drop (S i) names → m' !! name = m_i !! name)) ∧
  (∀ self scalar_attr vector_attr x0 xs v0 v1 v2 v3,
     fit_names_list self = [scalar_attr; vector_attr] →
     scalar_attr ∈ FIT_PARAMETERS →
     vector_attr ∈ FIT_PARAMETERS →
     neuron self !! scalar_attr = Some (Scalar x0) →
     neuron self !! vector_attr = Some (Vector xs) →
     length xs = 3 →
     ∃ m',
       set_neuron_parameters [v0; v1; v2; v3] self =
         (inr (), with_neuron self m', []) ∧
       m' !! scalar_attr = Some (Scalar v0) ∧
       m' !! vector_attr = Some (Vector [v1; v2; v3])).
Proof.
  split.
  - intros self p Hv names m.
    destruct (set_neuron_parameters_valid self p Hv)
      as (m' & Hrun & _ & _ & Hlast).
    fold names m in Hlast.
    exists m'. split_and!; [done|apply cursor_at_0|].
    intros i name Hi. split; [by apply cursor_at_step|].
    pose proof (valid_params_present _ _ Hv) as Hpres. fold names m in Hpres.
    destruct (Forall_lookup_1 _ _ _ _ Hpres Hi) as [a Ha].
    assert (cursor_at m names (S i) ≤ length p) as Hle.
    { destruct Hv as [_ Hlen]. unfold cursor_at.
      etrans; [apply required_slots_take_le|done]. }
    destruct (fit_loop_valid (take (S i) names) p 0 self)
      as (m_i & Hpre & _ & _ & Hpos).
    { by apply Forall_take. }
    { done. }
    fold m in Hpre, Hpos.
    assert (m_i !! name = chunk a p (cursor_at m names i)) as Hmi.
    { rewrite (Hpos i name).
      - unfold cursor_at. rewrite take_take, Nat.min_l by lia.
        by rewrite Ha.
      - rewrite lookup_take_lt by lia. done.
      - rewrite drop_ge; [apply not_elem_of_nil|].
        rewrite length_take. lia. }
    assert (cursor_at m names i + slot_count a ≤ length p) as Hfit.
    { rewrite (cursor_at_step _ _ _ _ Hi) in Hle.
      unfold slots in Hle. by rewrite Ha in Hle. }
    exists a, m_i. split_and!; [done|exact Hpre| | |].
    + rewrite <-(take_drop (S i) names) at 1.
      rewrite fit_loop_app. unfold mbind, M_bind. rewrite Hpre.
      by destruct (fit_loop (drop _ _) _ _ _) as [[r s] calls].
    + rewrite Hmi.
      destruct (chunk a p (cursor_at m names i)) as [b|] eqn:Hb.
      * by apply chunk_receives.
      * destruct a as [x0|xs]; [|done]. cbn in Hb, Hfit.
        destruct (lookup_lt_is_Some_2 p (cursor_at m names i)) as [x Hx];
          [lia|]. by rewrite Hx in Hb.
    + intros Hnot. rewrite Hmi, (Hlast i name Hi Hnot).
      by rewrite Ha.
  - intros self s v x0 xs v0 v1 v2 v3 Hnames Hs Hv Hms Hmv Hlen.
    assert (s ≠ v) as Hne by (intros ->; congruence).
    destruct (set_neuron_parameters_valid self [v0; v1; v2; v3])
      as (m' & Hrun & _ & _ & Hlast).
    { split; rewrite Hnames.
      - repeat apply Forall_cons_2; [by eauto..|apply Forall_nil_2].
      - unfold required_slots, slots. cbn. rewrite Hms, Hmv. cbn. lia. }
    exists m'. split_and!; [done| |].
    + rewrite (Hlast 0 s); rewrite ?Hnames; [|done|].
      * by rewrite Hms.
      * cbn. apply not_elem_of_cons. split; [done|apply not_elem_of_nil].
    + rewrite (Hlast 1 v); rewrite ?Hnames; [|done|].
      * rewrite Hmv. cbn. unfold cursor_at, required_slots, slots. cbn.
        rewrite Hms, Hlen. done.
      * cbn. apply not_elem_of_nil.
Qed.

(** *** The frame of [set_neuron_parameters] *)

Lemma set_neuron_parameters_frame p self :
  ∃ m',
    (set_neuron_parameters p self).1.2 = with_neuron self m' ∧
    (set_neuron_parameters p self).2 = [] ∧
    (∀ name, name ∉ fit_names_list self → m' !! name = neuron self !! name).
Proof.
  destruct (decide (Forall (λ name, name ∈ FIT_PARAMETERS)
                      (fit_names_list self))) as [Hall|Hex].
  - rewrite set_neuron_parameters_allowed by done.
    destruct (fit_loop_frame (fit_names_list self) p 0 self)
      as (m' & Hs & Hc & Hf & _).
    exists m'. unfold mbind, M_bind.
    destruct (fit_loop _ _ _ _) as [[[e|c] s'] calls]; cbn in *; subst;
      done.
  - apply not_Forall_Exists in Hex; [|apply _].
    rewrite set_neuron_parameters_not_allowed by done.
    exists (neuron self). by rewrite with_neuron_id.
Qed.

Lemma mapped_with_neuron self p :
  mapped self p = with_neuron self (neuron (mapped self p)).
Proof.
  unfold mapped. destruct (set_neuron_parameters_frame p self)
    as (m' & -> & _). done.
Qed.

(** *** The sweeps of [run] *)

Lemma run_eq p self :
  run p self =
  match set_neuron_parameters p self with
  | (inl e, self', calls) => (inl e, self', calls)
  | (inr _, self', calls) =>
      let '(r, self'', calls') :=
        run_loop (stim_list self) (grid_spike_index_target_list self)
          (seq 0 (length (stim_list self))) run_no_lists self' in
      (match r with inl e => inl e | inr l => inr (run_tuple l) end,
       self'', calls ++ calls')
  end.
Proof.
  unfold run, mbind, M_bind, get_self, mret, M_ret.
  destruct (set_neuron_parameters p self) as [[[e|[]] self'] calls];
    [done|].
  destruct (run_loop _ _ _ _ self') as [[[e|l] self''] calls']; [done|].
  by rewrite app_nil_r.
Qed.

Lemma run_base_model_eq p self :
  run_base_model p self =
  match set_neuron_parameters p self with
  | (inl e, self', calls) => (inl e, self', calls)
  | (inr _, self', calls) =>
      let '(r, self'', calls') :=
        run_base_model_loop (stim_list self)
          (seq 0 (length (stim_list self))) run_base_model_no_lists self' in
      (match r with inl e => inl e | inr l => inr (run_base_model_tuple l) end,
       self'', calls ++ calls')
  end.
Proof.
  unfold run_base_model, mbind, M_bind, get_self, mret, M_ret.
  destruct (set_neuron_parameters p self) as [[[e|[]] self'] calls];
    [done|].
  destruct (run_base_model_loop _ _ _ self') as [[[e|l] self''] calls'];
    [done|].
  by rewrite app_nil_r.
Qed.

(** The loops leave [self] as it is, and each call they make receives the
    stored initial triple and sees the attributes of [self]. *)

Lemma run_loop_frame sl gl idxs l self :
  (run_loop sl gl idxs l self).1.2 = self ∧
  Forall (call_of self) (run_loop sl gl idxs l self).2 ∧
  length (run_loop sl gl idxs l self).2 ≤ length idxs.
Proof.
  revert l. induction idxs as [|i idxs IH]; intros l; cbn.
  { split_and!; [done|constructor|done]. }
  unfold mbind, M_bind, get_self, getitem, mret, M_ret, raise. cbn.
  destruct (sl !! i); cbn; [|split_and!; [done|constructor|lia]].
  destruct (gl !! i); cbn; [|split_and!; [done|constructor|lia]].
  destruct (target_spike_mask self !! i); cbn;
    [|split_and!; [done|constructor|lia]].
  destruct (interpolated_spike_time_target_list self !! i); cbn;
    [|split_and!; [done|constructor|lia]].
  unfold call_run_wrt_target_spike_train.
  destruct (neuron_run_wrt_target_spike_train _ _ _ _ _ _ _ _) as [e|r]; cbn.
  { split_and!; [done|by repeat constructor|lia]. }
  destruct (IH (run_append l r)) as (Hs & Hc & Hn).
  destruct (run_loop sl gl idxs (run_append l r) self) as [[out s'] calls].
  cbn in *. split_and!; [done|by repeat constructor|lia].
Qed.

Lemma run_base_model_loop_frame sl idxs l self :
  (run_base_model_loop sl idxs l self).1.2 = self ∧
  Forall (call_of self) (run_base_model_loop sl idxs l self).2 ∧
  length (run_base_model_loop sl idxs l self).2 ≤ length idxs.
Proof.
  revert l. induction idxs as [|i idxs IH]; intros l; cbn.
  { split_and!; [done|constructor|done]. }
  unfold mbind, M_bind, get_self, getitem, mret, M_ret, raise. cbn.
  destruct (sl !! i); cbn; [|split_and!; [done|constructor|lia]].
  unfold call_run.
  destruct (neuron_run _ _ _ _ _) as [e|r]; cbn.
  { split_and!; [done|by repeat constructor|lia]. }
  destruct (IH (run_base_model_append l r)) as (Hs & Hc & Hn).
  destruct (run_base_model_loop sl idxs _ self) as [[out s'] calls].
  cbn in *. split_and!; [done|by repeat constructor|lia].
Qed.

(** *** The accumulators after the sweeps *)

Lemma run_tuple_foldl (rs : list (Target.sweep ndarray)) l :
  run_tuple (foldl run_append l rs) =
  zip_with app (run_tuple l) (target_sequences rs).
Proof.
  revert l. induction rs as [|r rs IH]; intros l.
  { cbn. unfold run_tuple. by rewrite !app_nil_r. }
  cbn [foldl]. rewrite IH. unfold run_tuple, target_sequences. cbn.
  by rewrite <-!app_assoc.
Qed.

Lemma run_base_model_tuple_foldl (rs : list (Base.sweep ndarray)) l :
  run_base_model_tuple (foldl run_base_model_append l rs) =
  zip_with app (run_base_model_tuple l) (base_sequences rs).
Proof.
  revert l. induction rs as [|r rs IH]; intros l.
  { cbn. unfold run_base_model_tuple. by rewrite !app_nil_r. }
  cbn [foldl]. rewrite IH. unfold run_base_model_tuple, base_sequences. cbn.
  by rewrite <-!app_assoc.
Qed.

(** When the simulator returns [rs] on the sweeps [idxs], the loop appends
    them in this order. *)
Lemma run_loop_returns idxs rs l self :
  Forall2 (λ i r, simulate_target self i = Some (inr r)) idxs rs →
  ∃ calls,
    run_loop (stim_list self) (grid_spike_index_target_list self)
      idxs l self = (inr (foldl run_append l rs), self, calls) ∧
    length calls = length idxs.
Proof.
  intros Hrs. revert l.
  induction Hrs as [|i r idxs rs Hi _ IH]; intros l; [by exists []|].
  destruct (IH (run_append l r)) as (calls & Hloop & Hlen).
  unfold simulate_target in Hi. cbn.
  unfold mbind at 1 2 3 4 5, M_bind, get_self, getitem, mret, M_ret. cbn.
  destruct (stim_list self !! i) as [stim|]; [cbn in *|done].
  destruct (grid_spike_index_target_list self !! i) as [g|]; [cbn in *|done].
  destruct (target_spike_mask self !! i) as [mask|]; [cbn in *|done].
  destruct (interpolated_spike_time_target_list self !! i) as [it|];
    [cbn in *|done].
  unfold call_run_wrt_target_spike_train, mbind, M_bind. cbn.
  injection Hi as ->.
  rewrite Hloop. eexists. split; [done|]. cbn. by rewrite Hlen.
Qed.

Lemma run_base_model_loop_returns idxs rs l self :
  Forall2 (λ i r, simulate_base self i = Some (inr r)) idxs rs →
  ∃ calls,
    run_base_model_loop (stim_list self) idxs l self =
      (inr (foldl run_base_model_append l rs), self, calls) ∧
    length calls = length idxs.
Proof.
  intros Hrs. revert l.
  induction Hrs as [|i r idxs rs Hi _ IH]; intros l; [by exists []|].
  destruct (IH (run_base_model_append l r)) as (calls & Hloop & Hlen).
  unfold simulate_base in Hi. cbn.
  unfold mbind at 1 2 3, M_bind, get_self, getitem, mret, M_ret. cbn.
  destruct (stim_list self !! i) as [stim|]; [cbn in *|done].
  unfold call_run, mbind, M_bind. cbn.
  injection Hi as ->.
  rewrite Hloop. eexists. split; [done|]. cbn. by rewrite Hlen.
Qed.

Lemma mapped_valid self p :
  valid_params self p →
  set_neuron_parameters p self = (inr (), mapped self p, []).
Proof.
  intros Hv. destruct (set_neuron_parameters_valid self p Hv)
    as (m' & Hrun & _). unfold mapped. by rewrite Hrun.
Qed.

Lemma Forall2_seq_lookup {A} (P : nat → A → Prop) n (l : list A) :
  length l = n →
  (∀ i x, l !! i = Some x → P i x) →
  Forall2 P (seq 0 n) l.
Proof.
  intros Hlen HP. apply Forall2_same_length_lookup_2.
  - by rewrite length_seq.
  - intros i j x [-> _]%lookup_seq Hx. by apply HP.
Qed.

Lemma run_returns self p rs :
  valid_params self p →
  length rs = length (stim_list self) →
  (∀ i r, rs !! i = Some r →
     simulate_target (mapped self p) i = Some (inr r)) →
  ∃ calls,
    run p self = (inr (target_sequences rs), mapped self p, calls) ∧
    length calls = length rs.
Proof.
  intros Hv Hlen Hrs. rewrite run_eq, (mapped_valid _ _ Hv).
  rewrite (mapped_with_neuron self p) in Hrs |- *.
  set (self' := with_neuron self (neuron (mapped self p))) in *.
  destruct (run_loop_returns (seq 0 (length (stim_list self))) rs
              run_no_lists self') as (calls & Hloop & Hcalls).
  { by apply Forall2_seq_lookup. }
  change (stim_list self') with (stim_list self) in Hloop.
  change (grid_spike_index_target_list self')
    with (grid_spike_index_target_list self) in Hloop.
  rewrite Hloop. exists calls. split.
  - by rewrite run_tuple_foldl.
  - by rewrite Hcalls, length_seq.
Qed.

Lemma run_base_model_returns self p rs :
  valid_params self p →
  length rs = length (stim_list self) →
  (∀ i r, rs !! i = Some r →
     simulate_base (mapped self p) i = Some (inr r)) →
  ∃ calls,
    run_base_model p self =
      (inr (run_base_model_tuple (foldl run_base_model_append
                                    run_base_model_no_lists rs)),
       mapped self p, calls) ∧
    length calls = length rs.
Proof.
  intros Hv Hlen Hrs. rewrite run_base_model_eq, (mapped_valid _ _ Hv).
  rewrite (mapped_with_neuron self p) in Hrs |- *.
  set (self' := with_neuron self (neuron (mapped self p))) in *.
  destruct (run_base_model_loop_returns (seq 0 (length (stim_list self))) rs
              run_base_model_no_lists self') as (calls & Hloop & Hcalls).
  { by apply Forall2_seq_lookup. }
  change (stim_list self') with (stim_list self) in Hloop.
  rewrite Hloop. exists calls. split; [done|].
  by rewrite Hcalls, length_seq.
Qed.

(** *** The result sequences (C3) *)

(** C3: on a dataset with [n] sweeps and a valid parameter vector, when the
    simulator returns [rs !! i] (resp. [rs_base !! i]) on sweep [i] for the
    [n] sweeps, [run] returns exactly 11 sequences and [run_base_model]
    exactly 8, each of length [n], and entry [i] of each sequence is a
    component of the result of sweep [i]: the sequences are the components
    of [rs] (resp. [rs_base]) in the order of the sweeps. *)
Theorem run_returns_parallel_sequences self p n
    (rs : list (Target.sweep ndarray)) (rs_base : list (Base.sweep ndarray)) :
  dataset_with n self →
  valid_params self p →
  length rs = n →
  (∀ i r, rs !! i = Some r →
     simulate_target (mapped self p) i = Some (inr r)) →
  length rs_base = n →
  (∀ i r, rs_base !! i = Some r →
     simulate_base (mapped self p) i = Some (inr r)) →
  (∃ calls,
     run p self = (inr (target_sequences rs), mapped self p, calls)) ∧
  length (target_sequences rs) = 11 ∧
  Forall (λ sequence, length sequence = n) (target_sequences rs) ∧
  (∃ calls,
     run_base_model p self =
       (inr (base_sequences rs_base), mapped self p, calls)) ∧
  length (base_sequences rs_base) = 8 ∧
  Forall (λ sequence, length sequence = n) (base_sequences rs_base).
Proof.
  intros (Hn & _) Hv Hrs Hsim Hrsb Hsimb. split_and!.
  - destruct (run_returns self p rs) as (calls & Hrun & _); [done|lia|done|].
    by exists calls.
  - done.
  - unfold target_sequences.
    repeat apply Forall_cons_2; rewrite ?length_fmap; try done.
  - destruct (run_base_model_returns self p rs_base)
      as (calls & Hrun & _); [done|lia|done|].
    exists calls. by rewrite Hrun, run_base_model_tuple_foldl.
  - done.
  - unfold base_sequences.
    repeat apply Forall_cons_2; rewrite ?length_fmap; try done.
Qed.

(** *** The interpolated spike threshold sequence of [run_base_model] (C4) *)

Lemma interpolatedSpikeThreshold_list_foldl (rs : list (Base.sweep ndarray)) l :
  Base.interpolatedSpikeThreshold_list (foldl run_base_model_append l rs) =
  Base.interpolatedSpikeThreshold_list l
    ++ (Base.interpolatedSpikeVoltage <$> rs).
Proof.
  revert l. induction rs as [|r rs IH]; intros l; cbn [foldl].
  { by rewrite app_nil_r. }
  rewrite IH. cbn. by rewrite <-app_assoc.
Qed.

(** C4: in free-running mode, on a valid parameter vector and when the
    simulator returns [rs !! i] on sweep [i] for every sweep,
    [run_base_model] returns the tuple of its eight lists [l], the last of
    which is [interpolatedSpikeThreshold_list], and entry [i] of that list
    is the interpolated spike voltage the simulator returned for sweep [i];
    so it is not the interpolated spike threshold it returned whenever the
    two differ. *)
Theorem run_base_model_threshold_is_voltage self p
    (rs : list (Base.sweep ndarray)) :
  valid_params self p →
  length rs = length (stim_list self) →
  (∀ i r, rs !! i = Some r →
     simulate_base (mapped self p) i = Some (inr r)) →
  ∃ l calls,
    run_base_model p self =
      (inr (run_base_model_tuple l), mapped self p, calls) ∧
    last (run_base_model_tuple l) =
      Some (Base.interpolatedSpikeThreshold_list l) ∧
    length (Base.interpolatedSpikeThreshold_list l) =
      length (stim_list self) ∧
    ∀ i r, rs !! i = Some r →
      Base.interpolatedSpikeThreshold_list l !! i =
        Some (Base.interpolatedSpikeVoltage r) ∧
      (Base.interpolatedSpikeVoltage r ≠ Base.interpolatedSpikeThreshold r →
       Base.interpolatedSpikeThreshold_list l !! i ≠
         Some (Base.interpolatedSpikeThreshold r)).
Proof.
  intros Hv Hlen Hsim.
  destruct (run_base_model_returns self p rs Hv Hlen Hsim)
    as (calls & Hrun & _).
  eexists _, calls. split_and!; [exact Hrun|done| |].
  - rewrite interpolatedSpikeThreshold_list_foldl. cbn.
    by rewrite length_fmap.
  - intros i r Hi. rewrite interpolatedSpikeThreshold_list_foldl. cbn.
    rewrite list_lookup_fmap, Hi. cbn. split; [done|]. congruence.
Qed.

(** *** Names outside the allow-list (C2) *)

(** C2: when the fit specification holds a name outside the allow-list,
    [set_neuron_parameters] raises the exception of the allow-list check
    and leaves [self], so every attribute of the neuron, as it was; [run]
    and [run_base_model] raise it too without any call of the simulator. *)
Theorem set_neuron_parameters_rejects_unknown_name self p name :
  name ∈ fit_names_list self →
  name ∉ FIT_PARAMETERS →
  set_neuron_parameters p self = (inl NotAllowed, self, []) ∧
  run p self = (inl NotAllowed, self, []) ∧
  run_base_model p self = (inl NotAllowed, self, []).
Proof.
  intros Hin Hnot.
  assert (set_neuron_parameters p self = (inl NotAllowed, self, [])) as Hset.
  { apply set_neuron_parameters_not_allowed, Exists_exists. eauto. }
  by rewrite run_eq, run_base_model_eq, Hset.
Qed.

(** *** The empty fit specification (C9) *)

(** C9: with an empty fit specification [set_neuron_parameters] returns
    for every parameter vector, the empty one too, and leaves [self], so
    every attribute of the neuron, as it was. *)
Theorem set_neuron_parameters_no_names self p :
  fit_names_list self = [] →
  set_neuron_parameters p self = (inr (), self, []) ∧
  set_neuron_parameters [] self = (inr (), self, []).
Proof.
  intros Hnil. unfold set_neuron_parameters, mbind, M_bind, get_self.
  by rewrite Hnil.
Qed.

(** *** The empty dataset (C10) *)

(** What a valid parameter vector leaves at a name that does not come
    again: the chunk at its cursor, and the vector reaches that far. *)
Lemma mapped_receives self p i name :
  valid_params self p →
  fit_names_list self !! i = Some name →
  name ∉ drop (S i) (fit_names_list self) →
  ∃ a,
    neuron self !! name = Some a ∧
    receives a p (cursor_at (neuron self) (fit_names_list self) i)
      (neuron (mapped self p) !! name).
Proof.
  intros Hv Hi Hnot.
  destruct (set_neuron_parameters_valid self p Hv)
    as (m' & Hrun & _ & _ & Hlast).
  assert (neuron (mapped self p) = m') as ->
    by (unfold mapped; by rewrite Hrun).
  pose proof (valid_params_present _ _ Hv) as Hpres.
  destruct (Forall_lookup_1 _ _ _ _ Hpres Hi) as [a Ha].
  exists a. split; [done|].
  assert (cursor_at (neuron self) (fit_names_list self) i + slot_count a
          ≤ length p) as Hfit.
  { destruct Hv as [_ Hlen].
    pose proof (required_slots_take_le (neuron self) (fit_names_list self)
                  (S i)) as Hle.
    fold (cursor_at (neuron self) (fit_names_list self) (S i)) in Hle.
    rewrite (cursor_at_step _ _ _ _ Hi) in Hle.
    unfold slots in Hle. rewrite Ha in Hle. cbn in Hle. lia. }
  rewrite (Hlast i name Hi Hnot), Ha. cbn [mbind option_bind].
  destruct (chunk a p _) as [b|] eqn:Hb.
  - by apply chunk_receives.
  - destruct a as [x0|xs]; [|done]. cbn in Hb, Hfit.
    destruct (lookup_lt_is_Some_2 p
                (cursor_at (neuron self) (fit_names_list self) i))
      as [x Hx]; [lia|]. by rewrite Hx in Hb.
Qed.

(** C10: with no sweep in [stim_list] and a valid parameter vector, [run]
    returns 11 empty sequences and [run_base_model] 8, neither calls the
    simulator, and the parameters are still mapped onto the attributes of
    the neuron: in the state either method leaves, the attribute at each
    name of the fit specification holds the chunk of the parameter vector
    at the cursor of the last position of the name (the value at the
    cursor for a number, the next [k] values for a sequence of length
    [k]), and the attributes that are not named are as before. *)
Theorem run_without_sweeps self p :
  stim_list self = [] →
  valid_params self p →
  set_neuron_parameters p self = (inr (), mapped self p, []) ∧
  run p self = (inr (replicate 11 []), mapped self p, []) ∧
  run_base_model p self = (inr (replicate 8 []), mapped self p, []) ∧
  (∀ i name,
     fit_names_list self !! i = Some name →
     name ∉ drop (S i) (fit_names_list self) →
     ∃ a,
       neuron self !! name = Some a ∧
       receives a p (cursor_at (neuron self) (fit_names_list self) i)
         (neuron (run p self).1.2 !! name) ∧
       receives a p (cursor_at (neuron self) (fit_names_list self) i)
         (neuron (run_base_model p self).1.2 !! name)) ∧
  (∀ name,
     name ∉ fit_names_list self →
     neuron (run p self).1.2 !! name = neuron self !! name ∧
     neuron (run_base_model p self).1.2 !! name = neuron self !! name).
Proof.
  intros Hnil Hv. pose proof (mapped_valid _ _ Hv) as Hset.
  assert (run p self = (inr (replicate 11 []), mapped self p, [])) as Hrun
    by (by rewrite run_eq, Hset, Hnil).
  assert (run_base_model p self = (inr (replicate 8 []), mapped self p, []))
    as Hbase by (by rewrite run_base_model_eq, Hset, Hnil).
  rewrite Hrun, Hbase. cbn [fst snd]. split_and!; [done..| |].
  - intros i name Hi Hnot.
    destruct (mapped_receives self p i name Hv Hi Hnot) as (a & Ha & Hr).
    by exists a.
  - intros name Hnot.
    destruct (set_neuron_parameters_frame p self) as (m' & Hs & _ & Hfr).
    unfold mapped. rewrite Hs. cbn [neuron with_neuron].
    by rewrite (Hfr name Hnot).
Qed.

(** *** The frame of [run] and [run_base_model] (C8) *)



(** *** Fit specifications given with their slices (C6) *)

Lemma required_slots_entries m (entries : list (string * list num)) :
  Forall (entry_fits m) entries →
  required_slots m entries.*1 = length (concat entries.*2).
Proof.
  induction 1 as [|[n s] entries (a & Hn & Hs) _ IH]; [done|].
  cbn in *. rewrite length_app, <-IH. unfold required_slots. cbn.
  unfold slots at 1. rewrite Hn. cbn. lia.
Qed.

Lemma cursor_at_entries m (entries : list (string * list num)) i :
  Forall (entry_fits m) entries →
  cursor_at m entries.*1 i = length (concat (take i entries).*2).
Proof.
  intros Hfit. unfold cursor_at. rewrite <-fmap_take.
  apply required_slots_entries. by apply Forall_take.
Qed.

Lemma concat_entries_middle (entries : list (string * list num)) i n s extra :
  entries !! i = Some (n, s) →
  concat entries.*2 ++ extra =
  concat (take i entries).*2 ++ s ++
    (concat (drop (S i) entries).*2 ++ extra).
Proof.
  intros Hi. rewrite <-(take_drop_middle _ _ _ Hi) at 1.
  rewrite fmap_app, concat_app. cbn. by rewrite <-!app_assoc.
Qed.

Lemma chunk_entry (a : value num) pre s post :
  length s = slot_count a →
  chunk a (pre ++ s ++ post) (length pre) = entry_value a s.
Proof.
  destruct a as [x0|xs]; cbn; intros Hs.
  - destruct s as [|x [|]]; simplify_eq/=.
    rewrite lookup_app_r, Nat.sub_diag by lia. done.
  - rewrite slice_take_drop, drop_app_length, <-Hs, take_app_length. done.
Qed.

(** With pairwise distinct names, each attribute named by an entry ends
    with the value of its slice, and the others are as before. *)
Lemma set_neuron_parameters_entries self (entries : list (string * list num))
    extra :
  NoDup entries.*1 →
  Forall (λ entry, entry.1 ∈ FIT_PARAMETERS) entries →
  Forall (entry_fits (neuron self)) entries →
  fit_names_list self = entries.*1 →
  ∃ m',
    set_neuron_parameters (concat entries.*2 ++ extra) self =
      (inr (), with_neuron self m', []) ∧
    (∀ n s, (n, s) ∈ entries →
       m' !! n = neuron self !! n ≫= λ a, entry_value a s) ∧
    (∀ n, n ∉ entries.*1 → m' !! n = neuron self !! n).
Proof.
  intros Hnodup Hallow Hfit Hnames.
  destruct (set_neuron_parameters_valid self (concat entries.*2 ++ extra))
    as (m' & Hrun & _ & Hfr & Hlast).
  { split; rewrite Hnames.
    - apply Forall_fmap, Forall_forall. intros [n s] Hin.
      rewrite Forall_forall in Hallow, Hfit.
      split; [by apply (Hallow (n, s))|].
      destruct (Hfit _ Hin) as (a & Ha & _). by exists a.
    - rewrite (required_slots_entries _ _ Hfit), length_app. lia. }
  rewrite Hnames in Hfr, Hlast.
  exists m'. split_and!; [done| |done].
  intros n s [i Hi]%list_elem_of_lookup.
  rewrite (Hlast i n).
  - rewrite (cursor_at_entries _ _ _ Hfit).
    destruct (Forall_lookup_1 _ _ _ _ Hfit Hi) as (a & Ha & Hs).
    cbn in Ha, Hs. rewrite Ha. cbn.
    rewrite (concat_entries_middle _ _ _ _ _ Hi). by apply chunk_entry.
  - by rewrite list_lookup_fmap, Hi.
  - intros [k Hk]%list_elem_of_lookup. rewrite lookup_drop in Hk.
    assert (entries.*1 !! i = Some n) as Hin
      by by rewrite list_lookup_fmap, Hi.
    pose proof (NoDup_lookup _ _ _ _ Hnodup Hin Hk). lia.
Qed.

Lemma swap_entries_Permutation (entries : list (string * list num)) i j :
  swap_entries entries i j ≡ₚ entries.
Proof.
  unfold swap_entries.
  destruct (entries !! i) as [ei|] eqn:Hi; [|done].
  destruct (entries !! j) as [ej|] eqn:Hj; [|done].
  by apply Permutation_insert_swap.
Qed.

(** C6, amended: for a fit specification of pairwise distinct allow-listed
    names, each given with its slice of the parameter vector (of the slots
    of its attribute), exchanging two entries, names and slices together,
    leaves [set_neuron_parameters] with the same final attributes; values
    beyond the slices ([extra]) stay where they are. *)
Theorem set_neuron_parameters_swap self1 self2
    (entries : list (string * list num)) i j extra :
  NoDup entries.*1 →
  Forall (λ entry, entry.1 ∈ FIT_PARAMETERS) entries →
  Forall (entry_fits (neuron self1)) entries →
  neuron self2 = neuron self1 →
  fit_names_list self1 = entries.*1 →
  fit_names_list self2 = (swap_entries entries i j).*1 →
  ∃ m',
    set_neuron_parameters (concat entries.*2 ++ extra) self1 =
      (inr (), with_neuron self1 m', []) ∧
    set_neuron_parameters
      (concat (swap_entries entries i j).*2 ++ extra) self2 =
      (inr (), with_neuron self2 m', []).
Proof.
  intros Hnodup Hallow Hfit Hneuron Hnames1 Hnames2.
  pose proof (swap_entries_Permutation entries i j) as Hperm.
  destruct (set_neuron_parameters_entries self1 entries extra)
    as (m1 & Hrun1 & Hin1 & Hout1); [done..|].
  destruct (set_neuron_parameters_entries self2 (swap_entries entries i j)
              extra) as (m2 & Hrun2 & Hin2 & Hout2).
  { by rewrite Hperm. }
  { by rewrite Hperm. }
  { by rewrite Hperm, Hneuron. }
  { done. }
  exists m1. split; [done|]. rewrite Hrun2. do 2 f_equal. f_equal.
  apply map_eq. intros n. rewrite Hneuron in Hin2, Hout2.
  destruct (decide (n ∈ entries.*1)) as [Hn|Hn].
  - apply list_elem_of_fmap in Hn as ([n' s] & -> & Hns). cbn.
    rewrite (Hin1 _ _ Hns). apply Hin2. by rewrite Hperm.
  - rewrite (Hout1 _ Hn). apply Hout2. by rewrite Hperm.
Qed.

(** *** Parameter vectors shorter or longer than the required slots (C5) *)

(** When every named attribute is a sequence, the loop returns whatever
    the parameter vector. *)
Lemma fit_loop_vectors names p c self :
  Forall (λ name, ∃ xs, neuron self !! name = Some (Vector xs)) names →
  ∃ c' m', fit_loop names p c self = (inr c', with_neuron self m', []).
Proof.
  revert c self. induction names as [|n names IH]; intros c self Hvec.
  { exists c, (neuron self). by rewrite fit_loop_nil, with_neuron_id. }
  apply Forall_cons in Hvec as [[xs Hn] Hvec].
  rewrite (fit_loop_vector _ _ _ _ _ _ Hn).
  edestruct IH as (c' & m' & ->); [|by exists c', m'].
  eapply Forall_impl; [exact Hvec|]. intros name [ys Hname]. cbn.
  rewrite lookup_insert. case_decide; by eauto.
Qed.

(** With every name an attribute of the neuron, the loop returns or stops
    at [param_guess[index]]. *)
Lemma fit_loop_outcome names p c self :
  Forall (λ name, is_Some (neuron self !! name)) names →
  (∃ c', (fit_loop names p c self).1.1 = inr c') ∨
  (fit_loop names p c self).1.1 = inl IndexError.
Proof.
  revert c self. induction names as [|n names IH]; intros c self Hin.
  { left. by exists c. }
  apply Forall_cons in Hin as [[a Hn] Hin].
  assert (∀ b, Forall (λ name, is_Some
            (neuron (with_neuron self (<[n := b]> (neuron self))) !! name))
            names) as Hin'.
  { intros b. eapply Forall_impl; [exact Hin|]. intros name Hsome. cbn.
    rewrite lookup_insert. case_decide; [by eexists|done]. }
  destruct a as [x0|xs].
  - destruct (p !! c) as [x|] eqn:Hp.
    + rewrite (fit_loop_scalar _ _ _ _ _ _ _ Hn Hp). by apply IH.
    + rewrite (fit_loop_scalar_short _ _ _ _ _ _ Hn Hp). by right.
  - rewrite (fit_loop_vector _ _ _ _ _ _ Hn). by apply IH.
Qed.

Lemma slice_short {A} (l : list A) c k :
  length l < c + k →
  slice l c (c + k) = drop c l ∧
  length (slice l c (c + k)) ≤ k ∧
  (0 < k → length (slice l c (c + k)) < k).
Proof.
  intros Hshort. rewrite slice_take_drop.
  rewrite take_ge by (rewrite length_drop; lia).
  rewrite length_drop. split_and!; [done|lia..].
Qed.

Lemma slice_beyond {A} (l : list A) c j : length l ≤ c → slice l c j = [].
Proof. intros Hc. unfold slice. rewrite drop_ge by done. apply take_nil. Qed.

(** A step that keeps the shape: the parameter vector reaches the end of
    the chunk of the first name. *)
Lemma fit_loop_step_covered n names p c self a :
  neuron self !! n = Some a →
  c + slot_count a ≤ length p →
  ∃ b,
    chunk a p c = Some b ∧ same_shape a b ∧
    fit_loop (n :: names) p c self =
    fit_loop names p (c + slot_count a)
      (with_neuron self (<[n := b]> (neuron self))).
Proof.
  intros Hn Hlen. destruct a as [x0|xs]; cbn in Hlen |- *.
  - destruct (lookup_lt_is_Some_2 p c) as [x Hp]; [lia|].
    exists (Scalar x). rewrite Hp. split_and!; [done..|].
    by apply (fit_loop_scalar _ _ _ _ _ x0).
  - eexists. split_and!; [done| |by apply fit_loop_vector].
    cbn. rewrite slice_length; [done|lia].
Qed.

Lemma fit_loop_final_neuron names p c self c' self' calls n :
  fit_loop names p c self = (inr c', self', calls) →
  n ∉ names → neuron self' !! n = neuron self !! n.
Proof.
  intros Hrun Hn.
  destruct (fit_loop_frame names p c self) as (m' & Hs & _ & Hfr & _).
  rewrite Hrun in Hs. cbn in Hs. subst self'. cbn. by apply Hfr.
Qed.

(** From a cursor at or past the end of the parameter vector, a loop that
    returns has met sequences only and has emptied each of them. *)
Lemma fit_loop_beyond names p c self c' self' calls :
  length p ≤ c →
  fit_loop names p c self = (inr c', self', calls) →
  ∀ name, name ∈ names →
    (∃ xs, neuron self !! name = Some (Vector xs)) ∧
    neuron self' !! name = Some (Vector []).
Proof.
  revert c self. induction names as [|n names IH]; intros c self Hc Hrun name.
  { by intros ?%elem_of_nil. }
  destruct (neuron self !! n) as [[x0|xs]|] eqn:Hn.
  - rewrite (fit_loop_scalar_short _ _ _ _ _ _ Hn) in Hrun; [done|].
    by apply lookup_ge_None.
  - rewrite (fit_loop_vector _ _ _ _ _ _ Hn) in Hrun.
    rewrite (slice_beyond p c _ Hc) in Hrun.
    set (self1 := with_neuron self (<[n := Vector []]> (neuron self))) in *.
    assert (length p ≤ c + length xs) as Hc1 by lia.
    intros Hin. destruct (decide (name ∈ names)) as [Hrest|Hrest].
    + destruct (IH _ _ Hc1 Hrun name Hrest) as [[ys Hys] Hfinal].
      split; [|done]. unfold self1 in Hys. cbn in Hys.
      rewrite lookup_insert in Hys. case_decide; subst; by eauto.
    + apply elem_of_cons in Hin as [->|]; [|done].
      split; [by eauto|].
      rewrite (fit_loop_final_neuron _ _ _ _ _ _ _ n Hrun Hrest).
      unfold self1. cbn. by rewrite lookup_insert_eq.
  - by rewrite (fit_loop_missing _ _ _ _ _ Hn) in Hrun.
Qed.

(** Whatever the length of the parameter vector, a loop that returns has
    left at each name the chunk of its last position, cut off at the end of
    the parameter vector: the slice [p[cursor : cursor + k]] for a sequence
    of length [k], with the cursor and the length of the attributes as they
    were before the call. *)
Lemma fit_loop_returns_chunks names p c self c' self' calls :
  fit_loop names p c self = (inr c', self', calls) →
  ∀ i name, names !! i = Some name → name ∉ drop (S i) names →
    neuron self' !! name =
    neuron self !! name ≫= λ a,
      chunk a p (c + cursor_at (neuron self) names i).
Proof.
  revert c self. induction names as [|n names IH]; intros c self Hrun;
    [by intros []|].
  destruct (neuron self !! n) as [a|] eqn:Hn;
    [|by rewrite (fit_loop_missing _ _ _ _ _ Hn) in Hrun].
  assert (slots (neuron self) n = slot_count a) as Hslots
    by (unfold slots; by rewrite Hn).
  destruct (decide (c + slot_count a ≤ length p)) as [Hfit|Hcut].
  - destruct (fit_loop_step_covered n names p c self a Hn Hfit)
      as (b & Hb & Hab & Hstep).
    rewrite Hstep in Hrun.
    set (self1 := with_neuron self (<[n := b]> (neuron self))) in *.
    assert (shapes_agree (neuron self) (neuron self1)) as Hshape
      by by apply (shapes_agree_insert _ _ a).
    intros [|i] name Hi Hlast; cbn in Hi, Hlast.
    + simplify_eq.
      rewrite (fit_loop_final_neuron _ _ _ _ _ _ _ name Hrun Hlast).
      unfold self1. cbn [neuron with_neuron].
      by rewrite lookup_insert_eq, Hn, cursor_at_0, Nat.add_0_r.
    + rewrite (IH _ _ Hrun i name Hi Hlast), cursor_at_S.
      unfold cursor_at.
      rewrite <-(shapes_agree_required_slots _ _ _ Hshape).
      rewrite Hslots, Nat.add_assoc.
      destruct (Hshape name) as [a1 a2 H12|]; [cbn|done].
      symmetry. by apply same_shape_chunk.
  - destruct a as [x0|xs]; cbn in Hcut.
    { rewrite (fit_loop_scalar_short _ _ _ _ _ _ Hn) in Hrun; [done|].
      apply lookup_ge_None. lia. }
    rewrite (fit_loop_vector _ _ _ _ _ _ Hn) in Hrun.
    set (self1 := with_neuron self
           (<[n := Vector (slice p c (c + length xs))]> (neuron self))) in *.
    intros [|i] name Hi Hlast; cbn in Hi, Hlast.
    + simplify_eq.
      rewrite (fit_loop_final_neuron _ _ _ _ _ _ _ name Hrun Hlast).
      unfold self1. cbn [neuron with_neuron].
      by rewrite lookup_insert_eq, Hn, cursor_at_0, Nat.add_0_r.
    + assert (name ∈ names) as Hin by by eapply list_elem_of_lookup_2.
      destruct (fit_loop_beyond names p (c + length xs) self1 c' self' calls)
        with (name := name) as [[ys Hys] ->]; [lia|done|done|].
      assert (∃ zs, neuron self !! name = Some (Vector zs)) as [zs ->].
      { unfold self1 in Hys. cbn in Hys. rewrite lookup_insert in Hys.
        case_decide; subst; by eauto. }
      rewrite cursor_at_S, Hslots. cbn [mbind option_bind chunk slot_count].
      rewrite slice_beyond; [done|lia].
Qed.

(** With every name an attribute of the neuron, the loop returns exactly
    when the cursor of every number lies inside the parameter vector. *)
Lemma fit_loop_returns_iff names p c self :
  Forall (λ name, is_Some (neuron self !! name)) names →
  (∃ c', (fit_loop names p c self).1.1 = inr c') ↔
  (∀ i name x0, names !! i = Some name →
     neuron self !! name = Some (Scalar x0) →
     c + cursor_at (neuron self) names i < length p).
Proof.
  revert c self. induction names as [|n names IH]; intros c self Hin.
  { split; [by intros _ []|]. intros _. by exists c. }
  apply Forall_cons in Hin as [[a Hn] Hin].
  assert (slots (neuron self) n = slot_count a) as Hslots
    by (unfold slots; by rewrite Hn).
  assert (∀ b, Forall (λ name, is_Some
            (neuron (with_neuron self (<[n := b]> (neuron self))) !! name))
            names) as Hin'.
  { intros b. eapply Forall_impl; [exact Hin|]. intros name Hsome. cbn.
    rewrite lookup_insert. case_decide; [by eexists|done]. }
  destruct (decide (c + slot_count a ≤ length p)) as [Hfit|Hcut].
  - destruct (fit_loop_step_covered n names p c self a Hn Hfit)
      as (b & Hb & Hab & ->).
    set (self1 := with_neuron self (<[n := b]> (neuron self))) in *.
    assert (shapes_agree (neuron self) (neuron self1)) as Hshape
      by by apply (shapes_agree_insert _ _ a).
    rewrite (IH (c + slot_count a) self1 (Hin' b)). split.
    + intros Hrest [|i] name x0 Hi Hname; cbn in Hi.
      * simplify_eq. rewrite cursor_at_0. cbn in Hfit. lia.
      * rewrite cursor_at_S, Hslots, Nat.add_assoc. unfold cursor_at.
        rewrite (shapes_agree_required_slots _ _ _ Hshape).
        pose proof (Hshape name) as Hsn. rewrite Hname in Hsn.
        inversion Hsn as [a1 a2 H12 Ha1 Ha2|]; subst.
        destruct a2 as [x1|]; [|done].
        by apply (Hrest i name x1).
    + intros Hall i name x1 Hi Hname.
      pose proof (Hshape name) as Hsn. rewrite Hname in Hsn.
      inversion Hsn as [a1 a2 H12 Ha1 Ha2|]; subst.
      destruct a1 as [x0|]; [|done].
      assert (neuron self !! name = Some (Scalar x0)) as Hname0 by done.
      specialize (Hall (S i) name x0 Hi Hname0).
      rewrite cursor_at_S, Hslots, Nat.add_assoc in Hall. unfold cursor_at in *.
      by rewrite <-(shapes_agree_required_slots _ _ _ Hshape).
  - destruct a as [x0|xs]; cbn in Hcut.
    { rewrite (fit_loop_scalar_short _ _ _ _ _ _ Hn)
        by (apply lookup_ge_None; lia).
      split; [by intros [? ?]|]. intros Hall.
      specialize (Hall 0 n x0 eq_refl Hn). rewrite cursor_at_0 in Hall. lia. }
    rewrite (fit_loop_vector _ _ _ _ _ _ Hn).
    set (self1 := with_neuron self
           (<[n := Vector (slice p c (c + length xs))]> (neuron self))) in *.
    split.
    + intros [c' Hrun] [|i] name x0 Hi Hname; cbn in Hi; [congruence|].
      assert (name ∈ names) as Hinn by by eapply list_elem_of_lookup_2.
      destruct (fit_loop_frame names p (c + length xs) self1)
        as (m' & Hs & Hc & _).
      destruct (fit_loop names p (c + length xs) self1)
        as [[o s'] calls] eqn:Hloop. cbn in Hrun, Hs, Hc. subst o.
      destruct (fit_loop_beyond names p (c + length xs) self1 c' s' calls)
        with (name := name) as [[ys Hys] _]; [lia|done|done|].
      unfold self1 in Hys. cbn in Hys. rewrite lookup_insert in Hys.
      case_decide; subst; congruence.
    + intros Hall.
      destruct (fit_loop_vectors names p (c + length xs) self1)
        as (c' & m' & ->); [|by exists c'].
      apply Forall_forall. intros name Hname.
      apply list_elem_of_lookup in Hname as [i Hi].
      unfold self1. cbn. rewrite lookup_insert. case_decide; [by eauto|].
      destruct (Forall_lookup_1 _ _ _ _ Hin Hi) as [[x0|ys] Hname];
        [|by eauto].
      specialize (Hall (S i) name x0 Hi Hname).
      rewrite cursor_at_S, Hslots in Hall. cbn in Hall. lia.
Qed.

(** Values beyond the required slots are not read. *)
Lemma fit_loop_extra names p extra c self :
  c + required_slots (neuron self) names ≤ length p →
  fit_loop names (p ++ extra) c self = fit_loop names p c self.
Proof.
  revert c self. induction names as [|n names IH]; intros c self Hlen;
    [done|].
  rewrite required_slots_cons in Hlen. unfold slots at 1 in Hlen.
  destruct (neuron self !! n) as [[x0|xs]|] eqn:Hn; cbn in Hlen.
  - destruct (lookup_lt_is_Some_2 p c) as [x Hp]; [lia|].
    rewrite (fit_loop_scalar _ _ _ _ _ _ x Hn)
      by (by rewrite lookup_app_l by lia).
    rewrite (fit_loop_scalar _ _ _ _ _ _ _ Hn Hp). apply IH.
    rewrite <-(shapes_agree_required_slots (neuron self)); [lia|].
    by apply (shapes_agree_insert _ _ (Scalar x0)).
  - rewrite !(fit_loop_vector _ _ _ _ _ _ Hn).
    assert (slice (p ++ extra) c (c + length xs) =
            slice p c (c + length xs)) as ->.
    { rewrite !slice_take_drop, drop_app_le by lia.
      apply take_app_le. rewrite length_drop. lia. }
    apply IH.
    rewrite <-(shapes_agree_required_slots (neuron self)); [lia|].
    apply (shapes_agree_insert _ _ (Vector xs)); [done|].
    cbn. rewrite slice_length; [done|lia].
  - by rewrite !(fit_loop_missing _ _ _ _ _ Hn).
Qed.

(** C5, amended: for a fit specification of allow-listed attribute names
    and a parameter vector shorter than the required slots,
    [set_neuron_parameters] either returns or stops with the [IndexError]
    of [param_guess[index]]; it returns exactly when the cursor of every
    number lies inside the parameter vector, so whenever every named
    attribute is a sequence.  When it returns, each name holds the chunk of
    its last position: for a sequence of length [k] the slice
    [param_guess[cursor : cursor + k]], cut off at the end of the parameter
    vector; the final attribute is a sequence and holds
    [param_guess[cursor : cursor + k]], which is the tail of the parameter
    vector from its cursor, with fewer values than the attribute had when it
    had any.  Values beyond the required slots are ignored. *)
Theorem set_neuron_parameters_short :
  (∀ self p,
     Forall (λ name, name ∈ FIT_PARAMETERS ∧ is_Some (neuron self !! name))
       (fit_names_list self) →
     length p < required_slots (neuron self) (fit_names_list self) →
     ((set_neuron_parameters p self).1.1 = inr () ∨
      (set_neuron_parameters p self).1.1 = inl IndexError) ∧
     ((set_neuron_parameters p self).1.1 = inr () ↔
      ∀ i name x0,
        fit_names_list self !! i = Some name →
        neuron self !! name = Some (Scalar x0) →
        cursor_at (neuron self) (fit_names_list self) i < length p) ∧
     (Forall (λ name, ∃ xs, neuron self !! name = Some (Vector xs))
        (fit_names_list self) →
      (set_neuron_parameters p self).1.1 = inr ()) ∧
     ((set_neuron_parameters p self).1.1 = inr () →
      (∀ i name a,
         fit_names_list self !! i = Some name →
         name ∉ drop (S i) (fit_names_list self) →
         neuron self !! name = Some a →
         neuron (mapped self p) !! name =
           chunk a p (cursor_at (neuron self) (fit_names_list self) i)) ∧
      ∃ name xs,
        last (fit_names_list self) = Some name ∧
        neuron self !! name = Some (Vector xs) ∧
        neuron (mapped self p) !! name =
          Some (Vector
                  (slice p
                     (cursor_at (neuron self) (fit_names_list self)
                        (length (fit_names_list self) - 1))
                     (cursor_at (neuron self) (fit_names_list self)
                        (length (fit_names_list self) - 1) + length xs))) ∧
        slice p
          (cursor_at (neuron self) (fit_names_list self)
             (length (fit_names_list self) - 1))
          (cursor_at (neuron self) (fit_names_list self)
             (length (fit_names_list self) - 1) + length xs) =
        drop (cursor_at (neuron self) (fit_names_list self)
                (length (fit_names_list self) - 1)) p ∧
        (xs ≠ [] →
         length
           (drop (cursor_at (neuron self) (fit_names_list self)
                    (length (fit_names_list self) - 1)) p) < length xs))) ∧
  (∀ self p extra,
     required_slots (neuron self) (fit_names_list self) ≤ length p →
     set_neuron_parameters (p ++ extra) self = set_neuron_parameters p self).
Proof.
  split.
  - intros self p Hnames Hshort.
    assert (Forall (λ name, name ∈ FIT_PARAMETERS) (fit_names_list self))
      as Hallow by (eapply Forall_impl; [exact Hnames|]; by intros ? []).
    assert (Forall (λ name, is_Some (neuron self !! name))
              (fit_names_list self))
      as Hpres by (eapply Forall_impl; [exact Hnames|]; by intros ? []).
    pose proof (fit_loop_returns_iff (fit_names_list self) p 0 self Hpres)
      as Hiff.
    pose proof (fit_loop_returns_chunks (fit_names_list self) p 0 self)
      as Hchunks.
    pose proof (fit_loop_outcome (fit_names_list self) p 0 self Hpres)
      as Hout.
    destruct (fit_loop_frame (fit_names_list self) p 0 self)
      as (m' & Hs & Hc & _).
    unfold mapped. rewrite set_neuron_parameters_allowed by done.
    unfold mbind, M_bind, mret, M_ret.
    destruct (fit_loop (fit_names_list self) p 0 self)
      as [[[e|c'] s'] calls] eqn:Hrun; cbn in Hs, Hc, Hout, Hiff |- *;
      subst calls.
    { (* the loop raises *)
      destruct Hout as [[? [=]]|[= ->]].
      split_and!; [by right| |..|done].
      - split; [done|]. intros Hall.
        by destruct (proj2 Hiff Hall) as [? [=]].
      - intros Hvec.
        destruct (fit_loop_vectors _ p 0 self Hvec) as (c1 & m1 & Heq).
        rewrite Hrun in Heq. done. }
    (* the loop returns *)
    assert (∀ i name x0,
              fit_names_list self !! i = Some name →
              neuron self !! name = Some (Scalar x0) →
              cursor_at (neuron self) (fit_names_list self) i < length p)
      as Hscalars.
    { intros i name x0 Hi Hname.
      apply (proj1 Hiff (ex_intro _ c' eq_refl) i name x0 Hi Hname). }
    assert (∀ i name a,
              fit_names_list self !! i = Some name →
              name ∉ drop (S i) (fit_names_list self) →
              neuron self !! name = Some a →
              neuron s' !! name =
                chunk a p (cursor_at (neuron self) (fit_names_list self) i))
      as Hlast.
    { intros i name a Hi Hl Ha.
      by rewrite (Hchunks c' s' [] eq_refl i name Hi Hl), Ha. }
    split_and!; [by left|done|done|]. intros _. split; [done|].
    destruct (fit_names_list self) as [|n0 names0] eqn:Hfit using rev_ind.
    { unfold required_slots in Hshort. cbn in Hshort. lia. }
    clear IHnames0.
    rewrite last_snoc, length_app. cbn [length].
    replace (length names0 + 1 - 1) with (length names0) by lia.
    assert ((names0 ++ [n0]) !! length names0 = Some n0) as Hi
      by (by rewrite lookup_app_r, Nat.sub_diag by lia).
    destruct (Forall_lookup_1 _ _ _ _ Hpres Hi) as [a Ha].
    assert (required_slots (neuron self) (names0 ++ [n0]) =
            cursor_at (neuron self) (names0 ++ [n0]) (length names0)
              + slot_count a) as Hreq.
    { unfold cursor_at. rewrite take_app_length, required_slots_app.
      unfold required_slots at 2. cbn. unfold slots. rewrite Ha. cbn. lia. }
    destruct a as [x0|xs].
    { specialize (Hscalars _ _ _ Hi Ha). cbn in Hreq. lia. }
    exists n0, xs. cbn in Hreq.
    destruct (slice_short p
                (cursor_at (neuron self) (names0 ++ [n0]) (length names0))
                (length xs)) as (Hdrop & _ & Hlt); [lia|].
    split_and!; [done|done| |done|].
    + rewrite (Hlast _ _ (Vector xs) Hi); [done| |done].
      rewrite drop_ge by (rewrite length_app; cbn; lia).
      apply not_elem_of_nil.
    + intros Hne. rewrite <-Hdrop. apply Hlt. destruct xs; [done|cbn; lia].
  - intros self p extra Hlen.
    destruct (decide (Forall (λ name, name ∈ FIT_PARAMETERS)
                        (fit_names_list self))) as [Hall|Hex].
    + rewrite !set_neuron_parameters_allowed by done.
      unfold mbind, M_bind. by rewrite fit_loop_extra.
    + apply not_Forall_Exists in Hex; [|apply _].
      by rewrite !set_neuron_parameters_not_allowed.
Qed.

(** *** Mapping the same parameter vector again (C7) *)

Lemma slice_again p c1 c2 k k' :
  cursor_follows p c1 c2 →
  k' = length (slice p c1 (c1 + k)) →
  slice p c2 (c2 + k') = slice p c1 (c1 + k) ∧
  cursor_follows p (c1 + k) (c2 + k').
Proof.
  intros Hc ->. rewrite !slice_take_drop.
  destruct Hc as [[<- Hle]|[Hlt ->]].
  - rewrite length_take, length_drop. split.
    + destruct (decide (k ≤ length p - c1)) as [Hk|Hk].
      * by rewrite Nat.min_l by done.
      * rewrite Nat.min_r by lia.
        by rewrite !take_ge by (rewrite length_drop; lia).
    + destruct (decide (k ≤ length p - c1)) as [Hk|Hk].
      * rewrite Nat.min_l by done. left. lia.
      * rewrite Nat.min_r by lia. right. lia.
  - rewrite (drop_ge p c1) by lia. rewrite take_nil. cbn.
    rewrite take_0. split; [done|]. right. lia.
Qed.

Lemma has_len_insert m n (b : value num) name :
  has_len <$> m !! n = Some (has_len b) →
  has_len <$> <[n := b]> m !! name = has_len <$> m !! name.
Proof.
  intros Hn. rewrite lookup_insert. case_decide; [by subst|done].
Qed.

(** The loop keeps the kind of every attribute. *)
Lemma fit_loop_has_len names p c self name :
  has_len <$> neuron (fit_loop names p c self).1.2 !! name =
  has_len <$> neuron self !! name.
Proof.
  revert c self. induction names as [|n names IH]; intros c self; [done|].
  destruct (neuron self !! n) as [[x0|xs]|] eqn:Hn.
  - destruct (p !! c) as [x|] eqn:Hp.
    + rewrite (fit_loop_scalar _ _ _ _ _ _ _ Hn Hp), IH.
      cbn [neuron with_neuron]. apply has_len_insert. by rewrite Hn.
    + by rewrite (fit_loop_scalar_short _ _ _ _ _ _ Hn Hp).
  - rewrite (fit_loop_vector _ _ _ _ _ _ Hn), IH.
    cbn [neuron with_neuron]. apply has_len_insert. by rewrite Hn.
  - by rewrite (fit_loop_missing _ _ _ _ _ Hn).
Qed.

Lemma sequence_names_cons m n names :
  sequence_names m (n :: names) =
  if bool_decide (has_len <$> m !! n = Some true)
  then n :: sequence_names m names
  else sequence_names m names.
Proof. done. Qed.

Lemma sequence_names_insert m n (b : value num) names :
  has_len <$> m !! n = Some (has_len b) →
  sequence_names (<[n := b]> m) names = sequence_names m names.
Proof.
  intros Hn. unfold sequence_names. apply List.filter_ext. intros name.
  by rewrite has_len_insert.
Qed.

Lemma elem_of_sequence_names m names name :
  name ∈ names →
  has_len <$> m !! name = Some true →
  name ∈ sequence_names m names.
Proof.
  intros Hin Hname. apply list_elem_of_In, List.filter_In.
  split; [by apply list_elem_of_In|]. by apply bool_decide_eq_true_2.
Qed.

(** Pairwise distinct names name no sequence twice. *)
Lemma NoDup_sequence_names m names :
  NoDup names → NoDup (sequence_names m names).
Proof.
  induction 1 as [|n names Hnot Hnd IH]; [constructor|].
  rewrite sequence_names_cons. case_bool_decide; [|done].
  apply NoDup_cons_2; [|done]. intros Hin. apply Hnot.
  apply list_elem_of_In, List.filter_In in Hin as [Hin _].
  by apply list_elem_of_In.
Qed.

(** On a parameter vector that covers the required slots the loop keeps
    every shape, also when it stops at a name that is no attribute. *)
Lemma fit_loop_covered_shapes names p c self :
  c + required_slots (neuron self) names ≤ length p →
  shapes_agree (neuron self) (neuron (fit_loop names p c self).1.2).
Proof.
  revert c self. induction names as [|n names IH]; intros c self Hlen.
  { apply shapes_agree_refl. }
  rewrite required_slots_cons in Hlen. unfold slots in Hlen.
  destruct (neuron self !! n) as [a|] eqn:Hn; cbn in Hlen.
  - destruct (fit_loop_step_covered n names p c self a Hn)
      as (b & _ & Hshape & ->); [lia|].
    pose proof (shapes_agree_insert _ _ _ _ Hn Hshape) as Hins.
    pose proof (IH (c + slot_count a)
                  (with_neuron self (<[n := b]> (neuron self)))) as Hrest.
    cbn [neuron with_neuron] in Hrest.
    apply (shapes_agree_trans _ _ _ Hins), Hrest.
    rewrite <-(shapes_agree_required_slots _ _ _ Hins). lia.
  - rewrite (fit_loop_missing _ _ _ _ _ Hn). apply shapes_agree_refl.
Qed.

(** The loop run again.  [self1] is the state before the first mapping,
    [self2] a state whose named attributes have the shapes the first
    mapping leaves; when no sequence is named twice, or the parameter
    vector covers the required slots, the second mapping ends as the first
    one and assigns what the first one assigned: at the end an attribute
    holds what the first mapping left, or neither mapping has touched it. *)
Lemma fit_loop_again names p c1 c2 self1 self2 :
  NoDup (sequence_names (neuron self1) names) ∨
    c1 + required_slots (neuron self1) names ≤ length p →
  cursor_follows p c1 c2 →
  (∀ name, name ∈ names →
     option_Forall2 same_shape
       (neuron (fit_loop names p c1 self1).1.2 !! name)
       (neuron self2 !! name)) →
  sum_map id (λ _, ()) (fit_loop names p c2 self2).1.1 =
    sum_map id (λ _, ()) (fit_loop names p c1 self1).1.1 ∧
  ∀ name,
    neuron (fit_loop names p c2 self2).1.2 !! name =
      neuron (fit_loop names p c1 self1).1.2 !! name ∨
    (neuron (fit_loop names p c2 self2).1.2 !! name = neuron self2 !! name ∧
     neuron (fit_loop names p c1 self1).1.2 !! name = neuron self1 !! name).
Proof.
  revert c1 c2 self1 self2.
  induction names as [|n names IH]; intros c1 c2 self1 self2 Hcase Hc Hshape.
  { rewrite !fit_loop_nil. split; [done|]. intros name. by right. }
  pose proof (Hshape n (list_elem_of_here _ _)) as Hn.
  assert (has_len <$> neuron self2 !! n = has_len <$> neuron self1 !! n)
    as Hkind.
  { rewrite <-(fit_loop_has_len (n :: names) p c1 self1 n).
    destruct Hn as [a b Hab|]; [|done]. cbn. by destruct a, b. }
  destruct (neuron self1 !! n) as [[x0|xs]|] eqn:Hn1.
  - (* a number *)
    destruct (neuron self2 !! n) as [[y0|ys]|] eqn:Hn2; try done.
    destruct (p !! c1) as [x|] eqn:Hp.
    + assert (c1 < length p) as Hlt by (by eapply lookup_lt_Some).
      destruct Hc as [[<- _]|[Hbeyond _]]; [|lia].
      rewrite (fit_loop_scalar _ _ _ _ _ _ _ Hn1 Hp) in Hshape |- *.
      rewrite (fit_loop_scalar _ _ _ _ _ _ _ Hn2 Hp).
      destruct (IH (c1 + 1) (c1 + 1)
                  (with_neuron self1 (<[n := Scalar x]> (neuron self1)))
                  (with_neuron self2 (<[n := Scalar x]> (neuron self2))))
        as [Hout Hst].
      * cbn [neuron with_neuron]. destruct Hcase as [Hnd|Hcov]; [left|right].
        -- rewrite sequence_names_insert by (by rewrite Hn1).
           rewrite sequence_names_cons, Hn1 in Hnd.
           by rewrite bool_decide_eq_false_2 in Hnd.
        -- rewrite required_slots_cons in Hcov. unfold slots in Hcov.
           rewrite Hn1 in Hcov. cbn in Hcov.
           rewrite <-(shapes_agree_required_slots (neuron self1)); [lia|].
           by eapply shapes_agree_insert.
      * left. lia.
      * intros name Hin. cbn [neuron with_neuron]. rewrite lookup_insert.
        case_decide as Heq; [subst name|].
        -- pose proof (fit_loop_has_len names p (c1 + 1)
                         (with_neuron self1
                            (<[n := Scalar x]> (neuron self1))) n) as Hk.
           cbn [neuron with_neuron] in Hk. rewrite lookup_insert_eq in Hk.
           destruct (neuron (fit_loop names p (c1 + 1) _).1.2 !! n)
             as [[?|?]|]; try done. apply Some_Forall2. by cbn.
        -- apply Hshape. by apply list_elem_of_further.
      * split; [done|]. intros name.
        destruct (Hst name) as [Heq|[H2 H1]]; [by left|].
        cbn [neuron with_neuron] in H1, H2. rewrite lookup_insert in H1, H2.
        case_decide; [left; congruence|by right].
    + assert (p !! c2 = None) as Hp2.
      { destruct Hc as [[<- _]|[_ ->]]; [done|].
        by apply lookup_ge_None_2. }
      rewrite (fit_loop_scalar_short _ _ _ _ _ _ Hn1 Hp).
      rewrite (fit_loop_scalar_short _ _ _ _ _ _ Hn2 Hp2).
      split; [done|]. intros name. by right.
  - (* a sequence *)
    destruct (neuron self2 !! n) as [[y0|ys]|] eqn:Hn2; try done.
    rewrite (fit_loop_vector _ _ _ _ _ _ Hn1) in Hshape, Hn |- *.
    set (v := slice p c1 (c1 + length xs)) in *.
    set (self1' := with_neuron self1 (<[n := Vector v]> (neuron self1))) in *.
    assert (∃ zs, neuron (fit_loop names p (c1 + length xs) self1').1.2 !! n
                  = Some (Vector zs) ∧ length zs = length v) as Hleft.
    { destruct Hcase as [Hnd|Hcov].
      - rewrite sequence_names_cons, Hn1 in Hnd.
        rewrite bool_decide_eq_true_2 in Hnd by done.
        apply NoDup_cons in Hnd as [Hnot _].
        assert (n ∉ names) as Hrest.
        { intros Hin. apply Hnot. apply elem_of_sequence_names; [done|].
          by rewrite Hn1. }
        destruct (fit_loop_frame names p (c1 + length xs) self1')
          as (m' & -> & _ & Hfr & _).
        exists v. split; [|done]. cbn [neuron with_neuron].
        rewrite (Hfr n Hrest). unfold self1'. cbn [neuron with_neuron].
        by rewrite lookup_insert_eq.
      - rewrite required_slots_cons in Hcov. unfold slots in Hcov.
        rewrite Hn1 in Hcov. cbn in Hcov.
        assert (length v = length xs) as Hv
          by (unfold v; apply slice_length; lia).
        assert (shapes_agree (neuron self1) (neuron self1')) as Hins.
        { unfold self1'. cbn [neuron with_neuron].
          eapply shapes_agree_insert; [done|]. by cbn. }
        pose proof (fit_loop_covered_shapes names p (c1 + length xs) self1')
          as Hsh.
        specialize (Hsh ltac:(rewrite <-(shapes_agree_required_slots _ _ _ Hins); lia) n).
        unfold self1' in Hsh at 1. cbn [neuron with_neuron] in Hsh.
        rewrite lookup_insert_eq in Hsh.
        inversion Hsh as [a1 a2 H12 Ha1 Ha2|]; subst.
        destruct a2 as [?|zs]; [done|]. exists zs. split; [done|].
        by cbn in H12. }
    destruct Hleft as (zs & Hzs & Hlen).
    rewrite Hzs in Hn. inversion Hn as [a1 a2 H12 Ha1 Ha2|]; subst a1 a2.
    cbn in H12.
    destruct (slice_again p c1 c2 (length xs) (length ys)) as [Hslice Hc'];
      [done|fold v; congruence|].
    fold v in Hslice.
    rewrite (fit_loop_vector _ _ _ _ _ _ Hn2), Hslice.
    destruct (IH (c1 + length xs) (c2 + length ys) self1'
                (with_neuron self2 (<[n := Vector v]> (neuron self2))))
      as [Hout Hst].
    + unfold self1'. cbn [neuron with_neuron].
      destruct Hcase as [Hnd|Hcov]; [left|right].
      * rewrite sequence_names_insert by (by rewrite Hn1).
        rewrite sequence_names_cons, Hn1 in Hnd.
        rewrite bool_decide_eq_true_2 in Hnd by done.
        by apply NoDup_cons in Hnd as [_ Hnd].
      * rewrite required_slots_cons in Hcov. unfold slots in Hcov.
        rewrite Hn1 in Hcov. cbn in Hcov.
        rewrite <-(shapes_agree_required_slots (neuron self1)); [lia|].
        eapply shapes_agree_insert; [done|]. cbn. symmetry.
        unfold v. apply slice_length. lia.
    + done.
    + intros name Hin. cbn [neuron with_neuron]. rewrite lookup_insert.
      case_decide as Heq; [subst name|].
      * rewrite Hzs. apply Some_Forall2. by cbn.
      * apply Hshape. by apply list_elem_of_further.
    + split; [done|]. intros name.
      destruct (Hst name) as [Heq|[H2 H1]]; [by left|].
      unfold self1' in H1 |- *. cbn [neuron with_neuron] in H1, H2.
      rewrite lookup_insert in H1, H2.
      case_decide; [left; congruence|by right].
  - (* no attribute *)
    destruct (neuron self2 !! n) as [?|] eqn:Hn2; [done|].
    rewrite (fit_loop_missing _ _ _ _ _ Hn1), (fit_loop_missing _ _ _ _ _ Hn2).
    split; [done|]. intros name. by right.
Qed.

(** When no sequence is named twice, or the parameter vector covers the
    required slots, mapping the same parameter vector again ends as the
    first mapping did and changes nothing. *)
Lemma set_neuron_parameters_again self p :
  NoDup (sequence_names (neuron self) (fit_names_list self)) ∨
    required_slots (neuron self) (fit_names_list self) ≤ length p →
  set_neuron_parameters p (mapped self p) =
    ((set_neuron_parameters p self).1.1, mapped self p, []).
Proof.
  intros Hcase.
  destruct (decide (Forall (λ name, name ∈ FIT_PARAMETERS)
                      (fit_names_list self))) as [Hall|Hex].
  - destruct (fit_loop_frame (fit_names_list self) p 0 self)
      as (m1 & Hs1 & Hc1 & _).
    assert (mapped self p = with_neuron self m1) as Hmapped.
    { unfold mapped. rewrite set_neuron_parameters_allowed by done.
      unfold mbind, M_bind, mret, M_ret. rewrite <-Hs1.
      by destruct (fit_loop _ _ _ _) as [[[e|c'] s'] calls]. }
    assert ((set_neuron_parameters p self).1.1 =
            sum_map id (λ _, ())
              (fit_loop (fit_names_list self) p 0 self).1.1) as Hout1.
    { rewrite set_neuron_parameters_allowed by done.
      unfold mbind, M_bind, mret, M_ret.
      by destruct (fit_loop _ _ _ _) as [[[e|c'] s'] calls]. }
    destruct (fit_loop_again (fit_names_list self) p 0 0 self
                (with_neuron self m1)) as [Hout Hst].
    + exact Hcase.
    + left. lia.
    + intros name _. rewrite Hs1. cbn [neuron with_neuron].
      destruct (m1 !! name) as [[?|?]|];
        [apply Some_Forall2; by cbn..|apply None_Forall2].
    + destruct (fit_loop_frame (fit_names_list self) p 0
                  (with_neuron self m1)) as (m2 & Hs2 & Hc2 & _).
      rewrite Hs1, Hs2 in Hst. cbn [neuron with_neuron] in Hst.
      assert (m2 = m1) as ->.
      { apply map_eq. intros name. by destruct (Hst name) as [?|[? _]]. }
      rewrite Hmapped, Hout1, <-Hout.
      rewrite set_neuron_parameters_allowed by done.
      cbn [fit_names_list with_neuron].
      unfold mbind, M_bind, mret, M_ret.
      destruct (fit_loop (fit_names_list self) p 0 (with_neuron self m1))
        as [[[e|c'] s'] calls]; cbn in Hs2, Hc2 |- *; by subst.
  - apply not_Forall_Exists in Hex; [|apply _].
    assert (mapped self p = self) as ->
      by (unfold mapped; by rewrite set_neuron_parameters_not_allowed).
    by rewrite set_neuron_parameters_not_allowed.
Qed.

(** C7, amended: when no sequence-valued attribute is named twice in the
    fit specification (so whenever its names are pairwise distinct), or the
    parameter vector covers the required slots, calling [run] again with
    the same vector on the state the first call left gives what the first
    call gave, whatever the parameter vector and the names otherwise: the
    same result bundle or the same exception, the same state and the same
    calls of the simulator; the simulator is a function of the attributes
    and of its arguments. *)
Theorem run_twice self p :
  NoDup (sequence_names (neuron self) (fit_names_list self)) ∨
    required_slots (neuron self) (fit_names_list self) ≤ length p →
  (run p (run p self).1.2).1.1 = (run p self).1.1 ∧
  run p (run p self).1.2 = run p self.
Proof.
  intros Hcase.
  pose proof (set_neuron_parameters_again self p Hcase) as Hagain.
  pose proof (mapped_with_neuron self p) as Hwith.
  assert ((run p self).1.2 = mapped self p) as Hstate.
  { rewrite run_eq. unfold mapped.
    destruct (set_neuron_parameters p self) as [[[e|[]] s'] calls]; [done|].
    cbn [fst snd].
    destruct (run_loop_frame (stim_list self)
                (grid_spike_index_target_list self)
                (seq 0 (length (stim_list self))) run_no_lists s')
      as (Hs & _).
    by destruct (run_loop _ _ _ _ _) as [[r s''] calls']. }
  assert (run p (mapped self p) = run p self) as Heq.
  { rewrite !run_eq, Hagain.
    assert (stim_list (mapped self p) = stim_list self) as ->
      by (by rewrite Hwith).
    assert (grid_spike_index_target_list (mapped self p) =
            grid_spike_index_target_list self) as -> by (by rewrite Hwith).
    destruct (set_neuron_parameters_frame p self) as (m' & _ & Hcalls & _).
    unfold mapped.
    destruct (set_neuron_parameters p self) as [[[e|[]] s'] calls];
      cbn in Hcalls |- *; by subst calls. }
  by rewrite Hstate, Heq.
Qed.

End Properties.

(** ** Further properties of the runner *)

Section MoreProperties.
Context {num ndarray : Type} `{!Neuron num ndarray}.
Implicit Types (self : GLIFExperiment num ndarray).
Implicit Types (m : gmap string (value num)) (p : list num).
Implicit Types (names : list string) (name : string).

(** *** Failures of the mapping after it has begun *)

Lemma fit_loop_prefix pre rest p self :
  Forall (λ n, is_Some (neuron self !! n)) pre →
  required_slots (neuron self) pre ≤ length p →
  ∃ m',
    fit_loop (pre ++ rest) p 0 self =
      fit_loop rest p (required_slots (neuron self) pre)
        (with_neuron self m') ∧
    shapes_agree (neuron self) m' ∧
    (∀ n, n ∉ pre → m' !! n = neuron self !! n) ∧
    (∀ i n, pre !! i = Some n → n ∉ drop (S i) pre →
       ∃ a, neuron self !! n = Some a ∧
            receives a p (cursor_at (neuron self) pre i) (m' !! n)).
Proof.
  intros Hpres Hlen.
  destruct (fit_loop_valid pre p 0 self Hpres) as (m' & Hrun & Hsh & Hfr & Hpos);
    [done|].
  exists m'. split_and!; [|done..|].
  - rewrite fit_loop_app. unfold mbind, M_bind. rewrite Hrun. cbn.
    by destruct (fit_loop rest _ _ _) as [[r s] calls].
  - intros i n Hi Hlast.
    destruct (Forall_lookup_1 _ _ _ _ Hpres Hi) as [a Ha].
    exists a. split; [done|]. rewrite (Hpos i n Hi Hlast), Ha. cbn.
    assert (cursor_at (neuron self) pre i + slot_count a ≤ length p) as Hfit.
    { pose proof (required_slots_take_le (neuron self) pre (S i)) as Hle.
      fold (cursor_at (neuron self) pre (S i)) in Hle.
      rewrite (cursor_at_step _ _ _ _ Hi) in Hle.
      unfold slots in Hle. rewrite Ha in Hle. cbn in Hle. lia. }
    destruct (chunk a p _) as [b|] eqn:Hb; [by apply chunk_receives|].
    destruct a as [x0|xs]; [|done]. cbn in Hb, Hfit.
    destruct (lookup_lt_is_Some_2 p (cursor_at (neuron self) pre i))
      as [x Hx]; [lia|]. by rewrite Hx in Hb.
Qed.

(** X1: when a name of the fit specification is not an attribute of the
    neuron, [getattr] raises [AttributeError] for it, and the names before
    it, covered by the parameter vector, have already been assigned: the
    failure is not all-or-nothing. *)
Theorem set_neuron_parameters_missing_attribute self p pre name post :
  fit_names_list self = pre ++ name :: post →
  Forall (λ n, n ∈ FIT_PARAMETERS) (fit_names_list self) →
  Forall (λ n, is_Some (neuron self !! n)) pre →
  required_slots (neuron self) pre ≤ length p →
  neuron self !! name = None →
  ∃ m',
    set_neuron_parameters p self =
      (inl (AttributeError name), with_neuron self m', []) ∧
    (∀ i n, pre !! i = Some n → n ∉ drop (S i) pre →
       ∃ a, neuron self !! n = Some a ∧
            receives a p (cursor_at (neuron self) pre i) (m' !! n)) ∧
    (∀ n, n ∉ pre → m' !! n = neuron self !! n).
Proof.
  intros Hnames Hallow Hpres Hlen Hmiss.
  destruct (fit_loop_prefix pre (name :: post) p self Hpres Hlen)
    as (m' & Hrun & Hsh & Hfr & Hpos).
  exists m'. split_and!; [|done..].
  rewrite set_neuron_parameters_allowed by done.
  unfold mbind, M_bind. rewrite Hnames, Hrun.
  rewrite fit_loop_missing; [done|]. cbn.
  specialize (Hsh name). rewrite Hmiss in Hsh. by inversion Hsh.
Qed.

(** X2: when the parameter vector ends exactly where a number is due,
    [param_guess[index]] raises [IndexError] at that name, and the names
    before it have already been assigned. *)
Theorem set_neuron_parameters_index_error self p pre name post x0 :
  fit_names_list self = pre ++ name :: post →
  Forall (λ n, n ∈ FIT_PARAMETERS) (fit_names_list self) →
  Forall (λ n, is_Some (neuron self !! n)) pre →
  required_slots (neuron self) pre = length p →
  neuron self !! name = Some (Scalar x0) →
  ∃ m',
    set_neuron_parameters p self =
      (inl IndexError, with_neuron self m', []) ∧
    (∀ i n, pre !! i = Some n → n ∉ drop (S i) pre →
       ∃ a, neuron self !! n = Some a ∧
            receives a p (cursor_at (neuron self) pre i) (m' !! n)) ∧
    (∀ n, n ∉ pre → m' !! n = neuron self !! n).
Proof.
  intros Hnames Hallow Hpres Hlen Hscalar.
  destruct (fit_loop_prefix pre (name :: post) p self Hpres)
    as (m' & Hrun & Hsh & Hfr & Hpos); [lia|].
  exists m'. split_and!; [|done..].
  rewrite set_neuron_parameters_allowed by done.
  unfold mbind, M_bind. rewrite Hnames, Hrun.
  specialize (Hsh name). rewrite Hscalar in Hsh.
  inversion Hsh as [a b Hab Ha Hb|]; subst. destruct b as [x1|]; [|done].
  rewrite (fit_loop_scalar_short _ _ _ _ _ x1); [done|by cbn|].
  apply lookup_ge_None. lia.
Qed.

(** *** What the mapping keeps whatever the parameter vector *)

Lemma shrinks_refl (a : value num) : shrinks a a.
Proof. destruct a; cbn; [done|lia]. Qed.

Lemma shrinks_trans (a b c : value num) :
  shrinks a b → shrinks b c → shrinks a c.
Proof. destruct a, b, c; cbn; try done. lia. Qed.

Lemma shrinks_all_refl m : shrinks_all m m.
Proof.
  intros name. destruct (m !! name); constructor. apply shrinks_refl.
Qed.

Lemma shrinks_all_trans m1 m2 m3 :
  shrinks_all m1 m2 → shrinks_all m2 m3 → shrinks_all m1 m3.
Proof.
  intros H12 H23 name. specialize (H12 name). specialize (H23 name).
  destruct H12 as [a b Hab|]; inversion H23; subst; constructor.
  eauto using shrinks_trans.
Qed.

Lemma shrinks_all_insert m name a b :
  m !! name = Some a → shrinks a b → shrinks_all m (<[name := b]> m).
Proof.
  intros Hm Hab n. rewrite lookup_insert. case_decide as Hn.
  - subst. rewrite Hm. by constructor.
  - apply shrinks_all_refl.
Qed.

Lemma fit_loop_shrinks names p c self :
  shrinks_all (neuron self) (neuron (fit_loop names p c self).1.2).
Proof.
  revert c self. induction names as [|n names IH]; intros c self.
  { apply shrinks_all_refl. }
  destruct (neuron self !! n) as [[x0|xs]|] eqn:Hn.
  - destruct (p !! c) as [x|] eqn:Hp.
    + rewrite (fit_loop_scalar _ _ _ _ _ _ _ Hn Hp).
      eapply shrinks_all_trans; [|apply IH]. cbn.
      by apply (shrinks_all_insert _ _ (Scalar x0)).
    + rewrite (fit_loop_scalar_short _ _ _ _ _ _ Hn Hp).
      apply shrinks_all_refl.
  - rewrite (fit_loop_vector _ _ _ _ _ _ Hn).
    eapply shrinks_all_trans; [|apply IH]. cbn.
    apply (shrinks_all_insert _ _ (Vector xs)); [done|].
    cbn. apply slice_length_le.
  - rewrite (fit_loop_missing _ _ _ _ _ Hn). apply shrinks_all_refl.
Qed.

(** X3: whatever the fit specification and the parameter vector, and
    whether [set_neuron_parameters] returns or raises, the neuron keeps its
    attribute names, a number stays a number, a sequence stays a sequence,
    and no sequence gets longer: a sequence cut by a short parameter vector
    is never restored by a later call. *)
Theorem set_neuron_parameters_never_grows self p name :
  match neuron self !! name, neuron (mapped self p) !! name with
  | Some (Scalar _), Some (Scalar _) => True
  | Some (Vector xs), Some (Vector ys) => length ys ≤ length xs
  | None, None => True
  | _, _ => False
  end.
Proof.
  assert (shrinks_all (neuron self) (neuron (mapped self p))) as Hall.
  { unfold mapped.
    destruct (decide (Forall (λ name, name ∈ FIT_PARAMETERS)
                        (fit_names_list self))) as [Hall|Hex].
    - rewrite set_neuron_parameters_allowed by done.
      pose proof (fit_loop_shrinks (fit_names_list self) p 0 self) as Hs.
      unfold mbind, M_bind.
      by destruct (fit_loop _ _ _ _) as [[[e|c] s'] calls].
    - apply not_Forall_Exists in Hex; [|apply _].
      rewrite set_neuron_parameters_not_allowed by done.
      apply shrinks_all_refl. }
  specialize (Hall name).
  destruct Hall as [[x|xs] [y|ys] Hab|]; done.
Qed.

(** *** The state [run] and [run_base_model] leave *)

Lemma run_leaves_mapped_state_aux self p :
  (run p self).1.2 = mapped self p ∧
  (run_base_model p self).1.2 = mapped self p.
Proof.
  destruct (set_neuron_parameters_frame p self) as (m' & Hs & Hc & _).
  unfold mapped. rewrite run_eq, run_base_model_eq.
  destruct (set_neuron_parameters p self) as [[[e|[]] self1] calls];
    cbn in Hs, Hc; subst; [done|].
  destruct (run_loop_frame (stim_list self)
              (grid_spike_index_target_list self)
              (seq 0 (length (stim_list self))) run_no_lists
              (with_neuron self m')) as (Hs1 & _).
  destruct (run_base_model_loop_frame (stim_list self)
              (seq 0 (length (stim_list self))) run_base_model_no_lists
              (with_neuron self m')) as (Hs2 & _).
  destruct (run_loop _ _ _ _ _) as [[r1 s1] calls1].
  destruct (run_base_model_loop _ _ _ _) as [[r2 s2] calls2].
  by cbn in *.
Qed.

(** X4: [run] and [run_base_model] leave the state [set_neuron_parameters]
    leaves, whatever the simulator returns or raises; and when the mapping
    raises, they raise the same exception without any call of the
    simulator. *)
Theorem run_leaves_mapped_state self p :
  (run p self).1.2 = mapped self p ∧
  (run_base_model p self).1.2 = mapped self p ∧
  (∀ e, (set_neuron_parameters p self).1.1 = inl e →
     (run p self).1.1 = inl e ∧ (run p self).2 = [] ∧
     (run_base_model p self).1.1 = inl e ∧ (run_base_model p self).2 = []).
Proof.
  destruct (set_neuron_parameters_frame p self) as (m' & Hs & Hc & _).
  unfold mapped. rewrite run_eq, run_base_model_eq.
  destruct (set_neuron_parameters p self) as [[[e|[]] self1] calls];
    cbn in Hs, Hc; subst.
  { split_and!; [done..|]. by intros ? [= <-]. }
  destruct (run_loop_frame (stim_list self)
              (grid_spike_index_target_list self)
              (seq 0 (length (stim_list self))) run_no_lists
              (with_neuron self m')) as (Hs1 & _).
  destruct (run_base_model_loop_frame (stim_list self)
              (seq 0 (length (stim_list self))) run_base_model_no_lists
              (with_neuron self m')) as (Hs2 & _).
  destruct (run_loop _ _ _ _ _) as [[r1 s1] calls1].
  destruct (run_base_model_loop _ _ _ _) as [[r2 s2] calls2].
  cbn in *. subst. split_and!; [done..|]. by intros ? [=].
Qed.

(** *** One valid mapping after another *)

Lemma set_neuron_parameters_overwrites self p1 p2 :
  valid_params self p1 →
  valid_params self p2 →
  valid_params (mapped self p1) p2 ∧
  mapped (mapped self p1) p2 = mapped self p2.
Proof.
  intros Hv1 Hv2.
  destruct (set_neuron_parameters_valid self p1 Hv1)
    as (m1 & Hrun1 & Hsh1 & Hfr1 & _).
  destruct (set_neuron_parameters_valid self p2 Hv2)
    as (m2 & Hrun2 & _ & Hfr2 & Hlast2).
  assert (mapped self p1 = with_neuron self m1) as ->
    by (unfold mapped; by rewrite Hrun1).
  assert (mapped self p2 = with_neuron self m2) as ->
    by (unfold mapped; by rewrite Hrun2).
  assert (valid_params (with_neuron self m1) p2) as Hv'.
  { destruct Hv2 as [Hnames Hlen].
    split; cbn [neuron with_neuron fit_names_list].
    - eapply Forall_impl; [exact Hnames|]. intros name [Hin Hsome].
      split; [done|]. by eapply shapes_agree_is_Some.
    - by rewrite <-(shapes_agree_required_slots _ _ _ Hsh1). }
  split; [done|].
  destruct (set_neuron_parameters_valid _ p2 Hv')
    as (m2' & Hrun2' & _ & Hfr2' & Hlast2').
  cbn in Hfr2', Hlast2'. unfold mapped. rewrite Hrun2'. cbn. f_equal.
  apply map_eq. intros name.
  destruct (decide (name ∈ fit_names_list self)) as [Hin|Hnot].
  - destruct (elem_of_last_position _ _ Hin) as (i & Hi & Hl).
    rewrite (Hlast2' i name Hi Hl), (Hlast2 i name Hi Hl).
    unfold cursor_at. rewrite <-(shapes_agree_required_slots _ _ _ Hsh1).
    destruct (Hsh1 name) as [a b Hab|]; [cbn|done].
    symmetry. by apply same_shape_chunk.
  - by rewrite (Hfr2' _ Hnot), (Hfr2 _ Hnot), (Hfr1 _ Hnot).
Qed.

(** X5: a valid parameter vector is still valid after another valid one
    has been mapped, and mapping it then gives the state it gives on the
    initial runner; so [run] on a valid vector gives the same results, the
    same calls and the same state whether or not a [run] on another valid
    vector came before: the fit does not depend on the vectors tried
    earlier. *)
Theorem run_after_run self p1 p2 :
  valid_params self p1 →
  valid_params self p2 →
  valid_params (mapped self p1) p2 ∧
  mapped (mapped self p1) p2 = mapped self p2 ∧
  run p2 (run p1 self).1.2 = run p2 self ∧
  run_base_model p2 (run_base_model p1 self).1.2 = run_base_model p2 self.
Proof.
  intros Hv1 Hv2.
  destruct (set_neuron_parameters_overwrites self p1 p2 Hv1 Hv2)
    as [Hv' Heq].
  destruct (run_leaves_mapped_state_aux self p1) as [-> ->].
  split_and!; [done..| |].
  - rewrite !run_eq, (mapped_valid _ _ Hv'), (mapped_valid _ _ Hv2), Heq.
    by rewrite (mapped_with_neuron self p1).
  - rewrite !run_base_model_eq, (mapped_valid _ _ Hv'),
      (mapped_valid _ _ Hv2), Heq.
    by rewrite (mapped_with_neuron self p1).
Qed.

(** *** The calls of the simulator, sweep by sweep *)

Lemma simulate_target_call self i o :
  simulate_target self i = Some o →
  ∃ stim grid mask interp,
    stim_list self !! i = Some stim ∧
    grid_spike_index_target_list self !! i = Some grid ∧
    target_spike_mask self !! i = Some mask ∧
    interpolated_spike_time_target_list self !! i = Some interp ∧
    o = neuron_run_wrt_target_spike_train (neuron self)
          (init_voltage self) (init_threshold self) (init_AScurrents self)
          stim grid mask interp ∧
    target_call self i =
      Some (Call_run_wrt_target_spike_train (neuron self)
              (init_voltage self) (init_threshold self) (init_AScurrents self)
              stim grid mask interp).
Proof.
  unfold simulate_target, target_call.
  destruct (stim_list self !! i) as [stim|]; [cbn|done].
  destruct (grid_spike_index_target_list self !! i) as [g|]; [cbn|done].
  destruct (target_spike_mask self !! i) as [mask|]; [cbn|done].
  destruct (interpolated_spike_time_target_list self !! i) as [it|];
    [cbn|done].
  intros [= <-]. by exists stim, g, mask, it.
Qed.

Lemma simulate_base_call self i o :
  simulate_base self i = Some o →
  ∃ stim,
    stim_list self !! i = Some stim ∧
    o = neuron_run (neuron self)
          (init_voltage self) (init_threshold self) (init_AScurrents self)
          stim ∧
    base_call self i =
      Some (Call_run (neuron self)
              (init_voltage self) (init_threshold self) (init_AScurrents self)
              stim).
Proof.
  unfold simulate_base, base_call.
  destruct (stim_list self !! i) as [stim|]; [cbn|done].
  intros [= <-]. by exists stim.
Qed.

(** One sweep on which the simulator returns. *)
Lemma run_loop_step i r idxs l self :
  simulate_target self i = Some (inr r) →
  ∃ c, target_call self i = Some c ∧
    run_loop (stim_list self) (grid_spike_index_target_list self)
      (i :: idxs) l self =
    ((run_loop (stim_list self) (grid_spike_index_target_list self)
        idxs (run_append l r) self).1,
     c :: (run_loop (stim_list self) (grid_spike_index_target_list self)
             idxs (run_append l r) self).2).
Proof.
  intros (stim & g & mask & it & Hs & Hg & Hm & Hi & Hr & Hc)
    %simulate_target_call.
  eexists. split; [exact Hc|]. cbn.
  unfold mbind, M_bind, get_self, getitem, mret, M_ret. cbn.
  rewrite Hs. cbn. rewrite Hg. cbn. rewrite Hm. cbn. rewrite Hi. cbn.
  unfold call_run_wrt_target_spike_train. rewrite <-Hr. cbn.
  by destruct (run_loop _ _ idxs _ self) as [[out s'] calls].
Qed.

(** One sweep on which the simulator raises. *)
Lemma run_loop_raises i e idxs l self :
  simulate_target self i = Some (inl e) →
  ∃ c, target_call self i = Some c ∧
    run_loop (stim_list self) (grid_spike_index_target_list self)
      (i :: idxs) l self = (inl e, self, [c]).
Proof.
  intros (stim & g & mask & it & Hs & Hg & Hm & Hi & Hr & Hc)
    %simulate_target_call.
  eexists. split; [exact Hc|]. cbn.
  unfold mbind, M_bind, get_self, getitem, mret, M_ret. cbn.
  rewrite Hs. cbn. rewrite Hg. cbn. rewrite Hm. cbn. rewrite Hi. cbn.
  unfold call_run_wrt_target_spike_train. by rewrite <-Hr.
Qed.

(** One sweep for which a list has no entry. *)
Lemma run_loop_index_error i idxs l self :
  simulate_target self i = None →
  run_loop (stim_list self) (grid_spike_index_target_list self)
    (i :: idxs) l self = (inl IndexError, self, []).
Proof.
  unfold simulate_target. intros Hnone. cbn.
  unfold mbind, M_bind, get_self, getitem, mret, M_ret, raise. cbn.
  destruct (stim_list self !! i) as [stim|]; [cbn in *|done].
  destruct (grid_spike_index_target_list self !! i) as [g|]; [cbn in *|done].
  destruct (target_spike_mask self !! i) as [mask|]; [cbn in *|done].
  destruct (interpolated_spike_time_target_list self !! i) as [it|];
    [cbn in *|done].
  done.
Qed.

(** The sweeps on which the simulator returns, then the rest. *)
Lemma run_loop_sweeps idxs rs rest l self :
  Forall2 (λ i r, simulate_target self i = Some (inr r)) idxs rs →
  ∃ calls,
    Forall2 (λ i c, target_call self i = Some c) idxs calls ∧
    run_loop (stim_list self) (grid_spike_index_target_list self)
      (idxs ++ rest) l self =
    ((run_loop (stim_list self) (grid_spike_index_target_list self)
        rest (foldl run_append l rs) self).1,
     calls ++
     (run_loop (stim_list self) (grid_spike_index_target_list self)
        rest (foldl run_append l rs) self).2).
Proof.
  intros Hrs. revert l.
  induction Hrs as [|i r idxs rs Hi _ IH]; intros l.
  { exists []. split; [constructor|]. cbn.
    by destruct (run_loop _ _ rest l self) as [[out s'] calls]. }
  destruct (IH (run_append l r)) as (calls & Hcalls & Hloop).
  destruct (run_loop_step i r (idxs ++ rest) l self Hi) as (c & Hc & Hstep).
  exists (c :: calls). split; [by constructor|].
  rewrite <-app_comm_cons, Hstep, Hloop. done.
Qed.

Lemma run_base_model_loop_step i r idxs l self :
  simulate_base self i = Some (inr r) →
  ∃ c, base_call self i = Some c ∧
    run_base_model_loop (stim_list self) (i :: idxs) l self =
    ((run_base_model_loop (stim_list self) idxs
        (run_base_model_append l r) self).1,
     c :: (run_base_model_loop (stim_list self) idxs
             (run_base_model_append l r) self).2).
Proof.
  intros (stim & Hs & Hr & Hc)%simulate_base_call.
  eexists. split; [exact Hc|]. cbn.
  unfold mbind, M_bind, get_self, getitem, mret, M_ret. cbn.
  rewrite Hs. cbn. unfold call_run. rewrite <-Hr. cbn.
  by destruct (run_base_model_loop _ idxs _ self) as [[out s'] calls].
Qed.

Lemma run_base_model_loop_raises i e idxs l self :
  simulate_base self i = Some (inl e) →
  ∃ c, base_call self i = Some c ∧
    run_base_model_loop (stim_list self) (i :: idxs) l self =
      (inl e, self, [c]).
Proof.
  intros (stim & Hs & Hr & Hc)%simulate_base_call.
  eexists. split; [exact Hc|]. cbn.
  unfold mbind, M_bind, get_self, getitem, mret, M_ret. cbn.
  rewrite Hs. cbn. unfold call_run. by rewrite <-Hr.
Qed.

Lemma run_base_model_loop_sweeps idxs rs rest l self :
  Forall2 (λ i r, simulate_base self i = Some (inr r)) idxs rs →
  ∃ calls,
    Forall2 (λ i c, base_call self i = Some c) idxs calls ∧
    run_base_model_loop (stim_list self) (idxs ++ rest) l self =
    ((run_base_model_loop (stim_list self) rest
        (foldl run_base_model_append l rs) self).1,
     calls ++
     (run_base_model_loop (stim_list self) rest
        (foldl run_base_model_append l rs) self).2).
Proof.
  intros Hrs. revert l.
  induction Hrs as [|i r idxs rs Hi _ IH]; intros l.
  { exists []. split; [constructor|]. cbn.
    by destruct (run_base_model_loop _ rest l self) as [[out s'] calls]. }
  destruct (IH (run_base_model_append l r)) as (calls & Hcalls & Hloop).
  destruct (run_base_model_loop_step i r (idxs ++ rest) l self Hi)
    as (c & Hc & Hstep).
  exists (c :: calls). split; [by constructor|].
  rewrite <-app_comm_cons, Hstep, Hloop. done.
Qed.

Lemma mapped_stim_list self p : stim_list (mapped self p) = stim_list self.
Proof. by rewrite mapped_with_neuron. Qed.

Lemma mapped_grid_spike_index_target_list self p :
  grid_spike_index_target_list (mapped self p) =
  grid_spike_index_target_list self.
Proof. by rewrite mapped_with_neuron. Qed.

Lemma seq_split k n : k ≤ n → seq 0 n = seq 0 k ++ seq k (n - k).
Proof.
  intros Hk. replace n with (k + (n - k)) at 1 by lia. apply seq_app.
Qed.

Lemma seq_head k n : k < n → seq k (n - k) = k :: seq (S k) (n - S k).
Proof. intros Hk. replace (n - k) with (S (n - S k)) by lia. done. Qed.

(** [run] after [k] sweeps on which the simulator returned. *)
Lemma run_prefix self p k rs :
  valid_params self p →
  k ≤ length (stim_list self) →
  length rs = k →
  (∀ i r, rs !! i = Some r →
     simulate_target (mapped self p) i = Some (inr r)) →
  ∃ calls,
    Forall2 (λ i c, target_call (mapped self p) i = Some c) (seq 0 k) calls ∧
    run p self =
    (match (run_loop (stim_list self) (grid_spike_index_target_list self)
              (seq k (length (stim_list self) - k))
              (foldl run_append run_no_lists rs) (mapped self p)).1.1 with
     | inl e => inl e
     | inr l => inr (run_tuple l)
     end,
     mapped self p,
     calls ++
     (run_loop (stim_list self) (grid_spike_index_target_list self)
        (seq k (length (stim_list self) - k))
        (foldl run_append run_no_lists rs) (mapped self p)).2).
Proof.
  intros Hv Hk Hlen Hrs. rewrite run_eq, (mapped_valid _ _ Hv).
  rewrite (seq_split k _ Hk).
  destruct (run_loop_sweeps (seq 0 k) rs
              (seq k (length (stim_list self) - k)) run_no_lists
              (mapped self p)) as (calls & Hcalls & Hloop).
  { by apply Forall2_seq_lookup. }
  exists calls. split; [done|].
  rewrite mapped_stim_list, mapped_grid_spike_index_target_list in Hloop.
  rewrite Hloop.
  destruct (run_loop_frame (stim_list self)
              (grid_spike_index_target_list self)
              (seq k (length (stim_list self) - k))
              (foldl run_append run_no_lists rs) (mapped self p))
    as (Hs & _).
  destruct (run_loop _ _ (seq k _) _ _) as [[out s'] calls'].
  cbn in *. by subst.
Qed.

Lemma run_base_model_prefix self p k rs :
  valid_params self p →
  k ≤ length (stim_list self) →
  length rs = k →
  (∀ i r, rs !! i = Some r →
     simulate_base (mapped self p) i = Some (inr r)) →
  ∃ calls,
    Forall2 (λ i c, base_call (mapped self p) i = Some c) (seq 0 k) calls ∧
    run_base_model p self =
    (match (run_base_model_loop (stim_list self)
              (seq k (length (stim_list self) - k))
              (foldl run_base_model_append run_base_model_no_lists rs)
              (mapped self p)).1.1 with
     | inl e => inl e
     | inr l => inr (run_base_model_tuple l)
     end,
     mapped self p,
     calls ++
     (run_base_model_loop (stim_list self)
        (seq k (length (stim_list self) - k))
        (foldl run_base_model_append run_base_model_no_lists rs)
        (mapped self p)).2).
Proof.
  intros Hv Hk Hlen Hrs. rewrite run_base_model_eq, (mapped_valid _ _ Hv).
  rewrite (seq_split k _ Hk).
  destruct (run_base_model_loop_sweeps (seq 0 k) rs
              (seq k (length (stim_list self) - k)) run_base_model_no_lists
              (mapped self p)) as (calls & Hcalls & Hloop).
  { by apply Forall2_seq_lookup. }
  exists calls. split; [done|].
  rewrite mapped_stim_list in Hloop.
  rewrite Hloop.
  destruct (run_base_model_loop_frame (stim_list self)
              (seq k (length (stim_list self) - k))
              (foldl run_base_model_append run_base_model_no_lists rs)
              (mapped self p)) as (Hs & _).
  destruct (run_base_model_loop _ (seq k _) _ _) as [[out s'] calls'].
  cbn in *. by subst.
Qed.

(** X6: on a valid parameter vector, when the simulator returns on every
    sweep, [run] and [run_base_model] call it exactly once per sweep, in the
    order of the sweeps; call [i] sees the attributes left by the mapping
    and receives the stored initial triple and the entries [i] of the lists
    the method reads (the stimulus, and for [run] the target spike indices,
    the mask and the interpolated target spike times of the same sweep). *)
Theorem run_calls_once_per_sweep self p
    (rs : list (Target.sweep ndarray)) (rs_base : list (Base.sweep ndarray)) :
  valid_params self p →
  length rs = length (stim_list self) →
  (∀ i r, rs !! i = Some r →
     simulate_target (mapped self p) i = Some (inr r)) →
  length rs_base = length (stim_list self) →
  (∀ i r, rs_base !! i = Some r →
     simulate_base (mapped self p) i = Some (inr r)) →
  length (run p self).2 = length (stim_list self) ∧
  length (run_base_model p self).2 = length (stim_list self) ∧
  ∀ i, i < length (stim_list self) →
    is_Some ((run p self).2 !! i) ∧
    (run p self).2 !! i = target_call (mapped self p) i ∧
    (run_base_model p self).2 !! i = base_call (mapped self p) i.
Proof.
  intros Hv Hlen Hrs Hlenb Hrsb.
  destruct (run_prefix self p (length (stim_list self)) rs)
    as (calls & Hcalls & Hrun); [done..|].
  destruct (run_base_model_prefix self p (length (stim_list self)) rs_base)
    as (callsb & Hcallsb & Hrunb); [done..|].
  rewrite Nat.sub_diag in Hrun, Hrunb. cbn in Hrun, Hrunb.
  rewrite app_nil_r in Hrun, Hrunb. rewrite Hrun, Hrunb. cbn.
  pose proof (Forall2_length _ _ _ Hcalls) as Hn.
  pose proof (Forall2_length _ _ _ Hcallsb) as Hnb.
  rewrite length_seq in Hn, Hnb. split_and!; [done..|].
  intros i Hi.
  destruct (Forall2_lookup_l _ _ _ i i Hcalls) as (c & Hc & Hcall).
  { by apply lookup_seq. }
  destruct (Forall2_lookup_l _ _ _ i i Hcallsb) as (cb & Hcb & Hcallb).
  { by apply lookup_seq. }
  rewrite Hc, Hcb, Hcall, Hcallb. by eauto.
Qed.

(** X7: on a valid parameter vector, when the simulator returns on the
    sweeps before sweep [k] and raises on sweep [k], [run] raises the same
    exception after exactly [k + 1] calls: the later sweeps are not
    simulated and the results of the earlier ones are not returned; the
    attributes of the neuron stay mapped. *)
Theorem run_simulator_raises self p k e (rs : list (Target.sweep ndarray)) :
  valid_params self p →
  k < length (stim_list self) →
  length rs = k →
  (∀ i r, rs !! i = Some r →
     simulate_target (mapped self p) i = Some (inr r)) →
  simulate_target (mapped self p) k = Some (inl e) →
  (run p self).1.1 = inl e ∧
  (run p self).1.2 = mapped self p ∧
  length (run p self).2 = S k.
Proof.
  intros Hv Hk Hlen Hrs He.
  destruct (run_prefix self p k rs) as (calls & Hcalls & Hrun);
    [done|lia|done..|].
  pose proof (Forall2_length _ _ _ Hcalls) as Hn. rewrite length_seq in Hn.
  rewrite (seq_head _ _ Hk) in Hrun.
  destruct (run_loop_raises k e
              (seq (S k) (length (stim_list self) - S k))
              (foldl run_append run_no_lists rs) _ He) as (c & _ & Hstop).
  rewrite mapped_stim_list, mapped_grid_spike_index_target_list in Hstop.
  rewrite Hstop in Hrun. rewrite Hrun. cbn.
  split_and!; [done..|]. rewrite length_app. cbn. lia.
Qed.

(** X8: the same for [run_base_model]: an exception of the simulator on
    sweep [k] leaves it after exactly [k + 1] calls, with the attributes of
    the neuron mapped. *)
Theorem run_base_model_simulator_raises self p k e
    (rs : list (Base.sweep ndarray)) :
  valid_params self p →
  k < length (stim_list self) →
  length rs = k →
  (∀ i r, rs !! i = Some r →
     simulate_base (mapped self p) i = Some (inr r)) →
  simulate_base (mapped self p) k = Some (inl e) →
  (run_base_model p self).1.1 = inl e ∧
  (run_base_model p self).1.2 = mapped self p ∧
  length (run_base_model p self).2 = S k.
Proof.
  intros Hv Hk Hlen Hrs He.
  destruct (run_base_model_prefix self p k rs) as (calls & Hcalls & Hrun);
    [done|lia|done..|].
  pose proof (Forall2_length _ _ _ Hcalls) as Hn. rewrite length_seq in Hn.
  rewrite (seq_head _ _ Hk) in Hrun.
  destruct (run_base_model_loop_raises k e
              (seq (S k) (length (stim_list self) - S k))
              (foldl run_base_model_append run_base_model_no_lists rs) _ He)
    as (c & _ & Hstop).
  rewrite mapped_stim_list in Hstop.
  rewrite Hstop in Hrun. rewrite Hrun. cbn.
  split_and!; [done..|]. rewrite length_app. cbn. lia.
Qed.

(** X9: when one of the three target lists [run] reads has no entry for a
    sweep [k] of [stim_list], and the simulator returned on the sweeps
    before it, [run] raises [IndexError] after exactly [k] calls: the
    lengths of the lists are not checked before the sweeps begin. *)
Theorem run_short_target_list self p k (rs : list (Target.sweep ndarray)) :
  valid_params self p →
  k < length (stim_list self) →
  length rs = k →
  (∀ i r, rs !! i = Some r →
     simulate_target (mapped self p) i = Some (inr r)) →
  length (grid_spike_index_target_list self) ≤ k ∨
  length (target_spike_mask self) ≤ k ∨
  length (interpolated_spike_time_target_list self) ≤ k →
  (run p self).1.1 = inl IndexError ∧
  (run p self).1.2 = mapped self p ∧
  length (run p self).2 = k.
Proof.
  intros Hv Hk Hlen Hrs Hshort.
  destruct (run_prefix self p k rs) as (calls & Hcalls & Hrun);
    [done|lia|done..|].
  pose proof (Forall2_length _ _ _ Hcalls) as Hn. rewrite length_seq in Hn.
  rewrite (seq_head _ _ Hk) in Hrun.
  assert (simulate_target (mapped self p) k = None) as Hnone.
  { rewrite (mapped_with_neuron self p). unfold simulate_target. cbn.
    destruct (stim_list self !! k) as [stim|]; [cbn|done].
    destruct Hshort as [Hg|[Hm|Hi]].
    - by rewrite (lookup_ge_None_2 _ _ Hg).
    - destruct (grid_spike_index_target_list self !! k); [cbn|done].
      by rewrite (lookup_ge_None_2 _ _ Hm).
    - destruct (grid_spike_index_target_list self !! k); [cbn|done].
      destruct (target_spike_mask self !! k); [cbn|done].
      by rewrite (lookup_ge_None_2 _ _ Hi). }
  pose proof (run_loop_index_error k
                (seq (S k) (length (stim_list self) - S k))
                (foldl run_append run_no_lists rs) _ Hnone) as Hstop.
  rewrite mapped_stim_list, mapped_grid_spike_index_target_list in Hstop.
  rewrite Hstop in Hrun. rewrite Hrun. cbn.
  split_and!; [done..|]. rewrite length_app. cbn. lia.
Qed.

(** *** What the methods do not read *)

Lemma fit_loop_same_neuron names p c self1 self2 :
  neuron self1 = neuron self2 →
  (fit_loop names p c self1).1.1 = (fit_loop names p c self2).1.1 ∧
  neuron (fit_loop names p c self1).1.2 =
    neuron (fit_loop names p c self2).1.2.
Proof.
  revert c self1 self2.
  induction names as [|n names IH]; intros c self1 self2 Heq; [done|].
  destruct (neuron self1 !! n) as [[x0|xs]|] eqn:Hn1;
    pose proof Hn1 as Hn2; rewrite Heq in Hn2.
  - destruct (p !! c) as [x|] eqn:Hp.
    + rewrite (fit_loop_scalar _ _ _ _ _ _ _ Hn1 Hp),
        (fit_loop_scalar _ _ _ _ _ _ _ Hn2 Hp).
      apply IH. cbn. by rewrite Heq.
    + by rewrite (fit_loop_scalar_short _ _ _ _ _ _ Hn1 Hp),
        (fit_loop_scalar_short _ _ _ _ _ _ Hn2 Hp).
  - rewrite (fit_loop_vector _ _ _ _ _ _ Hn1),
      (fit_loop_vector _ _ _ _ _ _ Hn2).
    apply IH. cbn. by rewrite Heq.
  - by rewrite (fit_loop_missing _ _ _ _ _ Hn1),
      (fit_loop_missing _ _ _ _ _ Hn2).
Qed.

Lemma set_neuron_parameters_same_neuron p self1 self2 :
  neuron self1 = neuron self2 →
  fit_names_list self1 = fit_names_list self2 →
  (set_neuron_parameters p self1).1.1 = (set_neuron_parameters p self2).1.1 ∧
  neuron (mapped self1 p) = neuron (mapped self2 p).
Proof.
  intros Hneuron Hnames. unfold mapped.
  destruct (decide (Forall (λ name, name ∈ FIT_PARAMETERS)
                      (fit_names_list self1))) as [Hall|Hex].
  - rewrite !set_neuron_parameters_allowed by (by rewrite <-?Hnames).
    destruct (fit_loop_same_neuron (fit_names_list self1) p 0 self1 self2
                Hneuron) as [Hout Hm].
    rewrite <-Hnames. unfold mbind, M_bind.
    destruct (fit_loop _ _ _ self1) as [[[e1|c1] s1] calls1];
      destruct (fit_loop _ _ _ self2) as [[[e2|c2] s2] calls2];
      cbn in *; by simplify_eq.
  - apply not_Forall_Exists in Hex; [|apply _].
    rewrite !set_neuron_parameters_not_allowed by (by rewrite <-?Hnames).
    done.
Qed.

Lemma run_base_model_loop_same_inputs sl idxs l self1 self2 :
  neuron self1 = neuron self2 →
  init_voltage self1 = init_voltage self2 →
  init_threshold self1 = init_threshold self2 →
  init_AScurrents self1 = init_AScurrents self2 →
  (run_base_model_loop sl idxs l self1).1.1 =
    (run_base_model_loop sl idxs l self2).1.1 ∧
  (run_base_model_loop sl idxs l self1).2 =
    (run_base_model_loop sl idxs l self2).2.
Proof.
  intros Hn Hv Ht Ha. revert l.
  induction idxs as [|i idxs IH]; intros l; [done|]. cbn.
  unfold mbind, M_bind, get_self, getitem, mret, M_ret, raise. cbn.
  destruct (sl !! i) as [stim|]; [cbn|done].
  unfold call_run. rewrite Hn, Hv, Ht, Ha. cbn.
  destruct (neuron_run _ _ _ _ _) as [e|r]; [done|]. cbn.
  destruct (IH (run_base_model_append l r)) as [Hout Hcalls].
  destruct (run_base_model_loop sl idxs _ self1) as [[o1 s1] c1].
  destruct (run_base_model_loop sl idxs _ self2) as [[o2 s2] c2].
  cbn in *. by subst.
Qed.

Lemma run_loop_same_inputs sl gl idxs l self1 self2 :
  neuron self1 = neuron self2 →
  init_voltage self1 = init_voltage self2 →
  init_threshold self1 = init_threshold self2 →
  init_AScurrents self1 = init_AScurrents self2 →
  target_spike_mask self1 = target_spike_mask self2 →
  interpolated_spike_time_target_list self1 =
    interpolated_spike_time_target_list self2 →
  (run_loop sl gl idxs l self1).1.1 = (run_loop sl gl idxs l self2).1.1 ∧
  (run_loop sl gl idxs l self1).2 = (run_loop sl gl idxs l self2).2.
Proof.
  intros Hn Hv Ht Ha Hm Hi. revert l.
  induction idxs as [|i idxs IH]; intros l; [done|]. cbn.
  unfold mbind, M_bind, get_self, getitem, mret, M_ret, raise. cbn.
  destruct (sl !! i) as [stim|]; [cbn|done].
  destruct (gl !! i) as [g|]; [cbn|done].
  rewrite Hm. destruct (target_spike_mask self2 !! i) as [mask|]; [cbn|done].
  rewrite Hi.
  destruct (interpolated_spike_time_target_list self2 !! i) as [it|];
    [cbn|done].
  unfold call_run_wrt_target_spike_train. rewrite Hn, Hv, Ht, Ha. cbn.
  destruct (neuron_run_wrt_target_spike_train _ _ _ _ _ _ _ _) as [e|r];
    [done|]. cbn.
  destruct (IH (run_append l r)) as [Hout Hcalls].
  destruct (run_loop sl gl idxs _ self1) as [[o1 s1] c1].
  destruct (run_loop sl gl idxs _ self2) as [[o2 s2] c2].
  cbn in *. by subst.
Qed.

(** X10: [run_base_model] reads the neuron, the fit specification, the
    stimuli and the initial triple only: two runners that agree on these
    give the same result (or exception), the same calls of the simulator and
    the same attributes, whatever their target spike data and [dt]. *)
Theorem run_base_model_ignores_target_data self1 self2 p :
  same_base_inputs self1 self2 →
  (run_base_model p self1).1.1 = (run_base_model p self2).1.1 ∧
  (run_base_model p self1).2 = (run_base_model p self2).2 ∧
  neuron (run_base_model p self1).1.2 = neuron (run_base_model p self2).1.2.
Proof.
  intros (Hn & Hnames & Hstim & Hv & Ht & Ha).
  destruct (set_neuron_parameters_same_neuron p self1 self2 Hn Hnames)
    as [Hout Hm].
  destruct (run_leaves_mapped_state_aux self1 p) as [_ Hs1].
  destruct (run_leaves_mapped_state_aux self2 p) as [_ Hs2].
  rewrite Hs1, Hs2. split_and!; [| |done].
  all: rewrite !run_base_model_eq.
  all: pose proof (set_neuron_parameters_frame p self1) as (m1 & Hf1 & Hc1 & _).
  all: pose proof (set_neuron_parameters_frame p self2) as (m2 & Hf2 & Hc2 & _).
  all: unfold mapped in Hm.
  all: destruct (set_neuron_parameters p self1) as [[[e1|[]] s1] calls1];
    destruct (set_neuron_parameters p self2) as [[[e2|[]] s2] calls2];
    cbn in *; simplify_eq; try done.
  all: rewrite Hstim.
  all: destruct (run_base_model_loop_same_inputs (stim_list self2)
              (seq 0 (length (stim_list self2))) run_base_model_no_lists
              (with_neuron self1 m1) (with_neuron self2 m2))
    as [Hlo Hlc]; [done..|].
  all: destruct (run_base_model_loop _ _ _ (with_neuron self1 m1))
    as [[o1 t1] c1].
  all: destruct (run_base_model_loop _ _ _ (with_neuron self2 m2))
    as [[o2 t2] c2].
  all: cbn in *; by subst.
Qed.

(** X11: [run] reads neither [dt] nor [grid_spike_time_target_list]: two
    runners that agree on every other field give the same result (or
    exception), the same calls of the simulator and the same attributes. *)
Theorem run_ignores_dt_and_grid_spike_times self1 self2 p :
  same_target_inputs self1 self2 →
  (run p self1).1.1 = (run p self2).1.1 ∧
  (run p self1).2 = (run p self2).2 ∧
  neuron (run p self1).1.2 = neuron (run p self2).1.2.
Proof.
  intros ((Hn & Hnames & Hstim & Hv & Ht & Ha) & Hgrid & Hmask & Hinterp).
  destruct (set_neuron_parameters_same_neuron p self1 self2 Hn Hnames)
    as [Hout Hm].
  destruct (run_leaves_mapped_state_aux self1 p) as [Hs1 _].
  destruct (run_leaves_mapped_state_aux self2 p) as [Hs2 _].
  rewrite Hs1, Hs2. split_and!; [| |done].
  all: rewrite !run_eq.
  all: pose proof (set_neuron_parameters_frame p self1) as (m1 & Hf1 & Hc1 & _).
  all: pose proof (set_neuron_parameters_frame p self2) as (m2 & Hf2 & Hc2 & _).
  all: unfold mapped in Hm.
  all: destruct (set_neuron_parameters p self1) as [[[e1|[]] s1] calls1];
    destruct (set_neuron_parameters p self2) as [[[e2|[]] s2] calls2];
    cbn in *; simplify_eq; try done.
  all: rewrite Hstim, Hgrid.
  all: destruct (run_loop_same_inputs (stim_list self2)
              (grid_spike_index_target_list self2)
              (seq 0 (length (stim_list self2))) run_no_lists
              (with_neuron self1 m1) (with_neuron self2 m2))
    as [Hlo Hlc]; [done..|].
  all: destruct (run_loop _ _ _ _ (with_neuron self1 m1)) as [[o1 t1] c1].
  all: destruct (run_loop _ _ _ _ (with_neuron self2 m2)) as [[o2 t2] c2].
  all: cbn in *; by subst.
Qed.

End MoreProperties.

(** ** Properties of the client of the data API *)

Section ApiProperties.
Context {json : Type} `{!Api.Web json}.
Implicit Types (self : Api.t) (w : Api.world).

Lemma string_app_assoc (s1 s2 s3 : string) :
  (s1 +:+ s2) +:+ s3 = s1 +:+ (s2 +:+ s3).
Proof.
  induction s1 as [|c s1 IH]; [done|].
  change (String c ((s1 +:+ s2) +:+ s3) = String c (s1 +:+ (s2 +:+ s3))).
  by rewrite IH.
Qed.

Lemma set_api_urls_endpoints url self :
  Api.endpoints_follow_api_url (Api.set_api_urls url self).
Proof. by repeat split. Qed.

Lemma apply_setters_invariant self calls :
  Api.endpoints_follow_api_url self →
  Api.endpoints_follow_api_url (foldl Api.apply_setter self calls) ∧
  Api.api_url (foldl Api.apply_setter self calls) =
    Api.last_api_url (Api.api_url self) calls ∧
  Api.default_working_directory (foldl Api.apply_setter self calls) =
    Api.last_working_directory (Api.default_working_directory self) calls.
Proof.
  revert self. induction calls as [|c calls IH]; intros self Hinv; [done|].
  cbn. destruct c as [url|d]; cbn.
  - apply (IH (Api.set_api_urls url self)), set_api_urls_endpoints.
  - apply (IH (Api.set_default_working_directory d self)), Hinv.
Qed.

Lemma init_endpoints o : Api.endpoints_follow_api_url (Api.init o).
Proof. by repeat split. Qed.

(** X12: after [__init__] and any calls of [set_api_urls] and
    [set_default_working_directory], every endpoint of the object is its
    [api_url] followed by the path of the endpoint; [api_url] is the url of
    the last [set_api_urls] (the one given to [__init__], or
    [default_api_url] when it was [None], if there is none), and
    [default_working_directory] is the directory of the last
    [set_default_working_directory] ([None] if there is none): neither
    setter touches what the other sets. *)
Theorem api_endpoints_follow_api_url (o : option string)
    (calls : list Api.setter) :
  Api.endpoints_follow_api_url (foldl Api.apply_setter (Api.init o) calls) ∧
  Api.api_url (foldl Api.apply_setter (Api.init o) calls) =
    Api.last_api_url (default Api.default_api_url o) calls ∧
  Api.default_working_directory (foldl Api.apply_setter (Api.init o) calls) =
    Api.last_working_directory None calls.
Proof.
  destruct (apply_setters_invariant (Api.init o) calls (init_endpoints o))
    as (Hinv & Hurl & Hdir).
  split_and!; [done| |done]. rewrite Hurl. by destruct o.
Qed.

(** X13: the download url of a well known file is the [api_url] of the
    object, the path [/api/v2/well_known_file_download] and [str] of the
    id, one after the other with nothing between the path and the id; an
    integer id and the string of its decimal digits give the same url, and
    two different integer ids give different urls. *)
Theorem construct_well_known_file_download_url_of_id (o : option string)
    (calls : list Api.setter) (id : Api.file_id) :
  Api.construct_well_known_file_download_url
    (foldl Api.apply_setter (Api.init o) calls) id =
  Api.api_url (foldl Api.apply_setter (Api.init o) calls)
    +:+ "/api/v2/well_known_file_download" +:+ Api.str id ∧
  (∀ z,
     Api.construct_well_known_file_download_url
       (foldl Api.apply_setter (Api.init o) calls) (Api.IdInt z) =
     Api.construct_well_known_file_download_url
       (foldl Api.apply_setter (Api.init o) calls) (Api.IdStr (pretty z))) ∧
  (∀ z1 z2,
     Api.construct_well_known_file_download_url
       (foldl Api.apply_setter (Api.init o) calls) (Api.IdInt z1) =
     Api.construct_well_known_file_download_url
       (foldl Api.apply_setter (Api.init o) calls) (Api.IdInt z2) →
     z1 = z2).
Proof.
  destruct (apply_setters_invariant (Api.init o) calls (init_endpoints o))
    as ((Hwkf & _) & _).
  unfold Api.construct_well_known_file_download_url. split_and!.
  - by rewrite Hwkf, string_app_assoc.
  - done.
  - intros z1 z2 Heq. apply String.app_inj in Heq. cbn in Heq.
    by apply (inj pretty).
Qed.

(** *** The requests *)

Lemma retrieve_parsed_json_over_http_eq url w :
  Api.retrieve_parsed_json_over_http url w =
  (match Api.urlopen url with
   | inl e => inl e
   | inr body => Api.json_load body
   end,
   {| Api.files := Api.files w; Api.log := Api.log w;
      Api.requests := Api.requests w ++ [url] |}).
Proof.
  unfold Api.retrieve_parsed_json_over_http, mbind, Api.IO_bind,
    Api.do_urlopen, Api.call.
  by destruct (Api.urlopen url).
Qed.

(** X14: [load_api_schema] makes exactly one request, to the [api_url] of
    the object followed by [/api/v2/data/enumerate.json]; it returns the
    parsed body, raises what the request or the parser raises, and writes
    no file and no log. *)
Theorem load_api_schema_request (o : option string)
    (calls : list Api.setter) w :
  Api.load_api_schema (foldl Api.apply_setter (Api.init o) calls) w =
  (match Api.urlopen
           (Api.api_url (foldl Api.apply_setter (Api.init o) calls)
              +:+ "/api/v2/data/enumerate.json") with
   | inl e => inl e
   | inr body => Api.json_load body
   end,
   {| Api.files := Api.files w; Api.log := Api.log w;
      Api.requests :=
        Api.requests w ++
        [Api.api_url (foldl Api.apply_setter (Api.init o) calls)
           +:+ "/api/v2/data/enumerate.json"] |}).
Proof.
  destruct (apply_setters_invariant (Api.init o) calls (init_endpoints o))
    as (Hinv & _).
  unfold Api.load_api_schema. rewrite retrieve_parsed_json_over_http_eq.
  do 12 destruct Hinv as [_ Hinv]. by rewrite Hinv, string_app_assoc.
Qed.

(** X15: [do_rma_query] writes no file and no log; when the url builder
    raises it raises the same exception without any request; otherwise it
    makes exactly one request, to the url of the builder passed through
    [quote] with the safe characters [;/?:@&=+$,], and applies the
    traversal function to the parsed body only when the request and the
    parser returned. *)
Theorem do_rma_query_request {A B : Type} (rma_builder_fn : A → Api.exn + string)
    (json_traversal_fn : json → Api.exn + B) (args : A) w :
  Api.files (Api.do_rma_query rma_builder_fn json_traversal_fn args w).2 =
    Api.files w ∧
  Api.log (Api.do_rma_query rma_builder_fn json_traversal_fn args w).2 =
    Api.log w ∧
  match rma_builder_fn args with
  | inl e =>
      Api.do_rma_query rma_builder_fn json_traversal_fn args w = (inl e, w)
  | inr rma_url =>
      (Api.do_rma_query rma_builder_fn json_traversal_fn args w).1 =
        match Api.urlopen (Api.quote rma_url ";/?:@&=+$,") with
        | inl e => inl e
        | inr body =>
            match Api.json_load body with
            | inl e => inl e
            | inr json_parsed_data => json_traversal_fn json_parsed_data
            end
        end ∧
      Api.requests
        (Api.do_rma_query rma_builder_fn json_traversal_fn args w).2 =
        Api.requests w ++ [Api.quote rma_url ";/?:@&=+$,"]
  end.
Proof.
  unfold Api.do_rma_query, mbind, Api.IO_bind, Api.call.
  destruct (rma_builder_fn args) as [e|rma_url]; [done|].
  rewrite retrieve_parsed_json_over_http_eq.
  destruct (Api.urlopen _) as [e|body]; cbn; [done|].
  destruct (Api.json_load body) as [e|j]; cbn; [done|].
  by destruct (json_traversal_fn j).
Qed.

(** *** Downloads *)

(** X16: when the file opens and the request returns,
    [retrieve_file_over_http] leaves the body of the response as the
    content of the file, whatever the file held, and touches no other
    file; it makes exactly one request and logs nothing. *)
Theorem retrieve_file_over_http_saves_body url file_path body w :
  Api.opens file_path = true →
  Api.urlopen url = inr body →
  Api.retrieve_file_over_http url file_path w =
    (inr (),
     {| Api.files := <[file_path := body]> (Api.files w);
        Api.log := Api.log w;
        Api.requests := Api.requests w ++ [url] |}) ∧
  Api.files (Api.retrieve_file_over_http url file_path w).2 !! file_path =
    Some body ∧
  ∀ other, other ≠ file_path →
    Api.files (Api.retrieve_file_over_http url file_path w).2 !! other =
    Api.files w !! other.
Proof.
  intros Hopen Hurl.
  assert (Api.retrieve_file_over_http url file_path w =
    (inr (),
     {| Api.files := <[file_path := body]> (Api.files w);
        Api.log := Api.log w;
        Api.requests := Api.requests w ++ [url] |})) as ->.
  { unfold Api.retrieve_file_over_http, Api.try_except_HTTPError, mbind,
      Api.IO_bind, Api.open_wb, Api.do_urlopen, Api.write.
    rewrite Hopen. cbn. rewrite Hurl. cbn. by rewrite insert_insert_eq. }
  cbn. split_and!; [done|apply lookup_insert_eq|].
  intros other Hne. by apply lookup_insert_ne.
Qed.

(** X17: when the file opens and the request raises,
    [retrieve_file_over_http] raises the same exception and leaves the file
    created and empty: what the file held before is lost.  An
    [HTTPError] is logged once, with the url; any other exception is not
    logged. *)
Theorem retrieve_file_over_http_failure url file_path e w :
  Api.opens file_path = true →
  Api.urlopen url = inl e →
  Api.retrieve_file_over_http url file_path w =
    (inl e,
     {| Api.files := <[file_path := ""]> (Api.files w);
        Api.log :=
          Api.log w ++
          match e with
          | Api.HTTPError _ => ["Couldn't retrieve file from " +:+ url]
          | Api.OtherError _ => []
          end;
        Api.requests := Api.requests w ++ [url] |}).
Proof.
  intros Hopen Hurl.
  unfold Api.retrieve_file_over_http, Api.try_except_HTTPError, mbind,
    Api.IO_bind, Api.open_wb, Api.do_urlopen, Api.write, Api.log_error.
  rewrite Hopen. cbn. rewrite Hurl.
  destruct e as [code|what]; cbn; [done|]. by rewrite app_nil_r.
Qed.

(** X18: when the file does not open, [retrieve_file_over_http] raises
    before any request: the world is as it was. *)
Theorem retrieve_file_over_http_cannot_open url file_path w :
  Api.opens file_path = false →
  ∃ what,
    Api.retrieve_file_over_http url file_path w =
      (inl (Api.OtherError what), w) ∧
    Api.requests (Api.retrieve_file_over_http url file_path w).2 =
      Api.requests w.
Proof.
  intros Hopen. exists "IOError".
  unfold Api.retrieve_file_over_http, Api.try_except_HTTPError, mbind,
    Api.IO_bind, Api.open_wb.
  by rewrite Hopen.
Qed.

End ApiProperties.

(** ** The properties on the concrete runner *)

Section Witnesses.
Import Examples.
#[local] Existing Instance echo.
#[local] Open Scope Z_scope.
#[local] Open Scope string_scope.

Lemma runner_valid sweeps :
  valid_params (runner ["coeff_th"; "coeff_a_vector"] sweeps) [1; 2; 3; 4].
Proof.
  split.
  - apply (bool_decide_unpack _). vm_compute. exact I.
  - vm_compute. lia.
Defined.

Lemma echo_target_results i r :
  target_results !! i = Some r →
  simulate_target
    (mapped (runner ["coeff_th"; "coeff_a_vector"] two_sweeps) [1; 2; 3; 4])
    i = Some (inr r).
Proof.
  destruct i as [|[|i]]; intros Hr; vm_compute in Hr;
    [injection Hr as <-; vm_compute; reflexivity..|discriminate Hr].
Defined.

Lemma echo_base_results i r :
  base_results !! i = Some r →
  simulate_base
    (mapped (runner ["coeff_th"; "coeff_a_vector"] two_sweeps) [1; 2; 3; 4])
    i = Some (inr r).
Proof.
  destruct i as [|[|i]]; intros Hr; vm_compute in Hr;
    [injection Hr as <-; vm_compute; reflexivity..|discriminate Hr].
Defined.

Lemma set_neuron_parameters_layout_witness :
  valid_params (runner ["coeff_th"; "coeff_a_vector"] two_sweeps)
    [1; 2; 3; 4] ∧
  ∃ m',
    set_neuron_parameters [1; 2; 3; 4]
      (runner ["coeff_th"; "coeff_a_vector"] two_sweeps) =
      (inr (),
       with_neuron (runner ["coeff_th"; "coeff_a_vector"] two_sweeps) m',
       []) ∧
    m' !! "coeff_th" = Some (Scalar 1) ∧
    m' !! "coeff_a_vector" = Some (Vector [2; 3; 4]).
Proof.
  split; [apply runner_valid|].
  apply (proj2 set_neuron_parameters_layout
           (runner ["coeff_th"; "coeff_a_vector"] two_sweeps)
           "coeff_th" "coeff_a_vector" 0 [0; 0; 0] 1 2 3 4).
  - reflexivity.
  - apply (bool_decide_unpack _). vm_compute. exact I.
  - apply (bool_decide_unpack _). vm_compute. exact I.
  - vm_compute. reflexivity.
  - vm_compute. reflexivity.
  - reflexivity.
Defined.

Lemma set_neuron_parameters_rejects_unknown_name_witness :
  set_neuron_parameters [1; 2]
    (runner ["coeff_th"; "coeff_x"] two_sweeps) =
    (inl NotAllowed, runner ["coeff_th"; "coeff_x"] two_sweeps, []) ∧
  run [1; 2] (runner ["coeff_th"; "coeff_x"] two_sweeps) =
    (inl NotAllowed, runner ["coeff_th"; "coeff_x"] two_sweeps, []) ∧
  run_base_model [1; 2] (runner ["coeff_th"; "coeff_x"] two_sweeps) =
    (inl NotAllowed, runner ["coeff_th"; "coeff_x"] two_sweeps, []).
Proof.
  apply (set_neuron_parameters_rejects_unknown_name
           (runner ["coeff_th"; "coeff_x"] two_sweeps) [1; 2] "coeff_x").
  - apply (bool_decide_unpack _). vm_compute. exact I.
  - apply (bool_decide_unpack _). vm_compute. exact I.
Defined.

Lemma run_returns_parallel_sequences_witness :
  (∃ calls,
     run [1; 2; 3; 4] (runner ["coeff_th"; "coeff_a_vector"] two_sweeps) =
     (inr (target_sequences target_results),
      mapped (runner ["coeff_th"; "coeff_a_vector"] two_sweeps) [1; 2; 3; 4],
      calls)) ∧
  length (target_sequences target_results) = 11%nat ∧
  Forall (λ sequence, length sequence = 2%nat)
    (target_sequences target_results) ∧
  (∃ calls,
     run_base_model [1; 2; 3; 4]
       (runner ["coeff_th"; "coeff_a_vector"] two_sweeps) =
     (inr (base_sequences base_results),
      mapped (runner ["coeff_th"; "coeff_a_vector"] two_sweeps) [1; 2; 3; 4],
      calls)) ∧
  length (base_sequences base_results) = 8%nat ∧
  Forall (λ sequence, length sequence = 2%nat)
    (base_sequences base_results).
Proof.
  apply (run_returns_parallel_sequences
           (runner ["coeff_th"; "coeff_a_vector"] two_sweeps)
           [1; 2; 3; 4] 2 target_results base_results).
  - repeat split.
  - apply runner_valid.
  - reflexivity.
  - apply echo_target_results.
  - reflexivity.
  - apply echo_base_results.
Defined.

Lemma run_base_model_threshold_is_voltage_witness :
  ∃ l calls,
    run_base_model [1; 2; 3; 4]
      (runner ["coeff_th"; "coeff_a_vector"] two_sweeps) =
      (inr (run_base_model_tuple l),
       mapped (runner ["coeff_th"; "coeff_a_vector"] two_sweeps) [1; 2; 3; 4],
       calls) ∧
    Base.interpolatedSpikeThreshold_list l !! 1%nat = Some [0] ∧
    Base.interpolatedSpikeThreshold_list l !! 1%nat ≠ Some [1].
Proof.
  destruct (run_base_model_threshold_is_voltage
              (runner ["coeff_th"; "coeff_a_vector"] two_sweeps)
              [1; 2; 3; 4] base_results)
    as (l & calls & Hrun & _ & _ & Hentry).
  - apply runner_valid.
  - reflexivity.
  - apply echo_base_results.
  - exists l, calls. split; [exact Hrun|].
    destruct (Hentry 1%nat (Base.Sweep [2; 3; 4] [7] [0; 0] [7] [7] [7] [0] [1])
                eq_refl) as [Hvoltage Hthreshold].
    split; [exact Hvoltage|]. apply Hthreshold. discriminate.
Defined.

Lemma set_neuron_parameters_short_witness :
  (length [1; 2] <
   required_slots
     (neuron (runner ["coeff_th"; "coeff_a_vector"] two_sweeps))
     (fit_names_list (runner ["coeff_th"; "coeff_a_vector"] two_sweeps)))%nat ∧
  (set_neuron_parameters [1; 2]
     (runner ["coeff_th"; "coeff_a_vector"] two_sweeps)).1.1 = inr () ∧
  neuron (mapped (runner ["coeff_th"; "coeff_a_vector"] two_sweeps) [1; 2])
    !! "coeff_th" = Some (Scalar 1) ∧
  neuron (mapped (runner ["coeff_th"; "coeff_a_vector"] two_sweeps) [1; 2])
    !! "coeff_a_vector" = Some (Vector [2]).
Proof.
  assert (length [1; 2] <
          required_slots
            (neuron (runner ["coeff_th"; "coeff_a_vector"] two_sweeps))
            (fit_names_list
               (runner ["coeff_th"; "coeff_a_vector"] two_sweeps)))%nat
    as Hshort by (vm_compute; lia).
  split; [exact Hshort|].
  destruct (proj1 set_neuron_parameters_short
              (runner ["coeff_th"; "coeff_a_vector"] two_sweeps) [1; 2])
    as (_ & Hiff & _ & Hchunks).
  - apply (bool_decide_unpack _). vm_compute. exact I.
  - exact Hshort.
  - assert ((set_neuron_parameters [1; 2]
               (runner ["coeff_th"; "coeff_a_vector"] two_sweeps)).1.1
            = inr ()) as Hreturns.
    { apply Hiff. intros [|[|i]] name x0 Hi Hname; vm_compute in Hi.
      - vm_compute. lia.
      - injection Hi as <-. vm_compute in Hname. discriminate Hname.
      - discriminate Hi. }
    split; [exact Hreturns|].
    destruct (Hchunks Hreturns) as [Hlast _]. split.
    + rewrite (Hlast 0%nat "coeff_th" (Scalar 0)).
      * vm_compute. reflexivity.
      * reflexivity.
      * apply (bool_decide_unpack _). vm_compute. exact I.
      * vm_compute. reflexivity.
    + rewrite (Hlast 1%nat "coeff_a_vector" (Vector [0; 0; 0])).
      * vm_compute. reflexivity.
      * reflexivity.
      * apply (bool_decide_unpack _). vm_compute. exact I.
      * vm_compute. reflexivity.
Defined.

Lemma set_neuron_parameters_swap_witness :
  ∃ m',
    set_neuron_parameters (concat distinct_entries.*2 ++ [9])
      (runner distinct_entries.*1 two_sweeps) =
      (inr (), with_neuron (runner distinct_entries.*1 two_sweeps) m', []) ∧
    set_neuron_parameters
      (concat (swap_entries distinct_entries 0 2).*2 ++ [9])
      (runner (swap_entries distinct_entries 0 2).*1 two_sweeps) =
      (inr (),
       with_neuron (runner (swap_entries distinct_entries 0 2).*1 two_sweeps)
         m',
       []).
Proof.
  apply (set_neuron_parameters_swap
           (runner distinct_entries.*1 two_sweeps)
           (runner (swap_entries distinct_entries 0 2).*1 two_sweeps)
           distinct_entries 0 2 [9]).
  - apply (bool_decide_unpack _). vm_compute. exact I.
  - apply (bool_decide_unpack _). vm_compute. exact I.
  - repeat apply Forall_cons_2; [..|apply Forall_nil_2];
      eexists; (split; [vm_compute; reflexivity|reflexivity]).
  - reflexivity.
  - reflexivity.
  - reflexivity.
Defined.

Lemma run_twice_witness :
  (NoDup (sequence_names
            (neuron (runner ["coeff_th"; "coeff_a_vector"] two_sweeps))
            (fit_names_list
               (runner ["coeff_th"; "coeff_a_vector"] two_sweeps))) ∨
   (required_slots
      (neuron (runner ["coeff_th"; "coeff_a_vector"] two_sweeps))
      (fit_names_list (runner ["coeff_th"; "coeff_a_vector"] two_sweeps))
    ≤ length [1; 2])%nat) ∧
  (run [1; 2]
     (run [1; 2]
        (runner ["coeff_th"; "coeff_a_vector"] two_sweeps)).1.2).1.1 =
    (run [1; 2] (runner ["coeff_th"; "coeff_a_vector"] two_sweeps)).1.1 ∧
  run [1; 2]
    (run [1; 2] (runner ["coeff_th"; "coeff_a_vector"] two_sweeps)).1.2 =
  run [1; 2] (runner ["coeff_th"; "coeff_a_vector"] two_sweeps).
Proof.
  assert (NoDup (sequence_names
                   (neuron (runner ["coeff_th"; "coeff_a_vector"] two_sweeps))
                   (fit_names_list
                      (runner ["coeff_th"; "coeff_a_vector"] two_sweeps))))
    as Honce by (apply (bool_decide_unpack _); vm_compute; exact I).
  split; [left; exact Honce|].
  apply (run_twice (runner ["coeff_th"; "coeff_a_vector"] two_sweeps) [1; 2]).
  left. exact Honce.
Defined.

Lemma set_neuron_parameters_no_names_witness :
  set_neuron_parameters [1; 2] (runner [] two_sweeps) =
    (inr (), runner [] two_sweeps, []) ∧
  set_neuron_parameters [] (runner [] two_sweeps) =
    (inr (), runner [] two_sweeps, []).
Proof.
  apply (set_neuron_parameters_no_names (runner [] two_sweeps) [1; 2]).
  reflexivity.
Defined.

Lemma run_without_sweeps_witness :
  run [1; 2; 3; 4] (runner ["coeff_th"; "coeff_a_vector"] []) =
    (inr (replicate 11 []),
     mapped (runner ["coeff_th"; "coeff_a_vector"] []) [1; 2; 3; 4], []) ∧
  run_base_model [1; 2; 3; 4] (runner ["coeff_th"; "coeff_a_vector"] []) =
    (inr (replicate 8 []),
     mapped (runner ["coeff_th"; "coeff_a_vector"] []) [1; 2; 3; 4], []) ∧
  neuron (runner ["coeff_th"; "coeff_a_vector"] []) !! "coeff_th" =
    Some (Scalar 0) ∧
  neuron (runner ["coeff_th"; "coeff_a_vector"] []) !! "coeff_a_vector" =
    Some (Vector [0; 0; 0]) ∧
  neuron (run [1; 2; 3; 4]
            (runner ["coeff_th"; "coeff_a_vector"] [])).1.2 !! "coeff_th" =
    Some (Scalar 1) ∧
  neuron (run [1; 2; 3; 4]
            (runner ["coeff_th"; "coeff_a_vector"] [])).1.2
    !! "coeff_a_vector" = Some (Vector [2; 3; 4]) ∧
  neuron (run_base_model [1; 2; 3; 4]
            (runner ["coeff_th"; "coeff_a_vector"] [])).1.2 !! "coeff_th" =
    Some (Scalar 1) ∧
  neuron (run_base_model [1; 2; 3; 4]
            (runner ["coeff_th"; "coeff_a_vector"] [])).1.2
    !! "coeff_a_vector" = Some (Vector [2; 3; 4]) ∧
  neuron (run [1; 2; 3; 4]
            (runner ["coeff_th"; "coeff_a_vector"] [])).1.2 !! "coeff_C" =
    Some (Scalar 0).
Proof.
  destruct (run_without_sweeps (runner ["coeff_th"; "coeff_a_vector"] [])
              [1; 2; 3; 4])
    as (_ & Hrun & Hbase & Hnamed & Hothers).
  - reflexivity.
  - apply runner_valid.
  - destruct (Hnamed 0%nat "coeff_th") as (a & Ha & Hr & Hb).
    { reflexivity. }
    { apply (bool_decide_unpack _). vm_compute. exact I. }
    vm_compute in Ha. injection Ha as <-.
    destruct Hr as (x & Hx & Hrx). destruct Hb as (y & Hy & Hby).
    vm_compute in Hx, Hy. injection Hx as <-. injection Hy as <-.
    destruct (Hnamed 1%nat "coeff_a_vector") as (a' & Ha' & Hr' & Hb').
    { reflexivity. }
    { apply (bool_decide_unpack _). vm_compute. exact I. }
    vm_compute in Ha'. injection Ha' as <-.
    destruct Hr' as (_ & Hr'). destruct Hb' as (_ & Hb').
    destruct (Hothers "coeff_C") as [HC _].
    { apply (bool_decide_unpack _). vm_compute. exact I. }
    split_and!;
      [exact Hrun|exact Hbase|reflexivity|reflexivity|exact Hrx|exact Hr'
      |exact Hby|exact Hb'|].
    rewrite HC. reflexivity.
Defined.

(** *** Where the claims as first stated fail *)

(** C5 as stated fails on a number: with [fit_names = ["coeff_th"]], a
    number, and the empty parameter vector (shorter than the one required
    slot), [param_guess[0]] raises [IndexError] and nothing is assigned. *)
Lemma set_neuron_parameters_short_scalar_raises :
  Forall (λ name, name ∈ FIT_PARAMETERS ∧
                  is_Some (neuron (runner ["coeff_th"] two_sweeps) !! name))
    (fit_names_list (runner ["coeff_th"] two_sweeps)) ∧
  (length ([] : list Z) <
   required_slots (neuron (runner ["coeff_th"] two_sweeps))
     (fit_names_list (runner ["coeff_th"] two_sweeps)))%nat ∧
  set_neuron_parameters [] (runner ["coeff_th"] two_sweeps) =
    (inl IndexError, runner ["coeff_th"] two_sweeps, []).
Proof.
  split_and!.
  - apply (bool_decide_unpack _). vm_compute. exact I.
  - vm_compute. lia.
  - vm_compute. reflexivity.
Qed.

(** C6 as stated fails when a name is repeated: with the entries
    [coeff_th:[1], coeff_th:[2], coeff_C:[3]], all allow-listed and each
    slice of the slots of its attribute, exchanging the entries 0 and 2
    leaves [coeff_th] at 1 instead of 2. *)
Lemma set_neuron_parameters_swap_repeated_name_differs :
  Forall (λ entry, entry.1 ∈ FIT_PARAMETERS) repeated_entries ∧
  Forall (entry_fits (neuron (runner repeated_entries.*1 two_sweeps)))
    repeated_entries ∧
  set_neuron_parameters (concat repeated_entries.*2)
    (runner repeated_entries.*1 two_sweeps) =
    (inr (),
     with_neuron (runner repeated_entries.*1 two_sweeps)
       {[ "coeff_th" := Scalar 2; "coeff_C" := Scalar 3;
          "coeff_a_vector" := Vector [0; 0; 0] ]},
     []) ∧
  set_neuron_parameters (concat (swap_entries repeated_entries 0 2).*2)
    (runner (swap_entries repeated_entries 0 2).*1 two_sweeps) =
    (inr (),
     with_neuron (runner (swap_entries repeated_entries 0 2).*1 two_sweeps)
       {[ "coeff_th" := Scalar 1; "coeff_C" := Scalar 3;
          "coeff_a_vector" := Vector [0; 0; 0] ]},
     []) ∧
  neuron (mapped (runner repeated_entries.*1 two_sweeps)
            (concat repeated_entries.*2)) !! "coeff_th" ≠
  neuron (mapped (runner (swap_entries repeated_entries 0 2).*1 two_sweeps)
            (concat (swap_entries repeated_entries 0 2).*2)) !! "coeff_th".
Proof.
  split_and!.
  - apply (bool_decide_unpack _). vm_compute. exact I.
  - repeat apply Forall_cons_2; [..|apply Forall_nil_2];
      eexists; (split; [vm_compute; reflexivity|reflexivity]).
  - vm_compute. reflexivity.
  - vm_compute. reflexivity.
  - vm_compute. discriminate.
Qed.

(** C7 as stated fails on a parameter vector shorter than the required
    slots when a name is repeated: with
    [fit_names = ["coeff_a_vector"; "coeff_a_vector"]], a sequence of
    length 3, and [param_guess = [1; 2; 3; 4]], the first [run] leaves
    [coeff_a_vector = [4]] and simulates with it, the second one leaves
    [[2]]: the voltage sequences of the two bundles differ. *)
Lemma run_twice_short_repeated_name_differs :
  (run [1; 2; 3; 4]
     (runner ["coeff_a_vector"; "coeff_a_vector"] [[5]])).1.1 =
    inr (target_sequences
           [Target.Sweep [4] [5] [0; 0] [5] [5] [5] [5] [0] [1] [0] [1]]) ∧
  (run [1; 2; 3; 4]
     (run [1; 2; 3; 4]
        (runner ["coeff_a_vector"; "coeff_a_vector"] [[5]])).1.2).1.1 =
    inr (target_sequences
           [Target.Sweep [2] [5] [0; 0] [5] [5] [5] [5] [0] [1] [0] [1]]) ∧
  (run [1; 2; 3; 4]
     (run [1; 2; 3; 4]
        (runner ["coeff_a_vector"; "coeff_a_vector"] [[5]])).1.2).1.1 ≠
  (run [1; 2; 3; 4]
     (runner ["coeff_a_vector"; "coeff_a_vector"] [[5]])).1.1.
Proof.
  split_and!.
  - vm_compute. reflexivity.
  - vm_compute. reflexivity.
  - vm_compute. discriminate.
Qed.
End Witnesses.

(** ** The further properties on the concrete runners *)

Section MoreWitnesses.
Import Examples MoreExamples.
#[local] Existing Instance echo.
#[local] Open Scope Z_scope.
#[local] Open Scope string_scope.

Lemma set_neuron_parameters_missing_attribute_witness :
  ∃ m',
    set_neuron_parameters [1; 2; 3]
      (runner ["coeff_th"; "coeff_G"; "coeff_C"] two_sweeps) =
      (inl (AttributeError "coeff_G"),
       with_neuron (runner ["coeff_th"; "coeff_G"; "coeff_C"] two_sweeps) m',
       []) ∧
    m' !! "coeff_th" = Some (Scalar 1).
Proof.
  destruct (set_neuron_parameters_missing_attribute
              (runner ["coeff_th"; "coeff_G"; "coeff_C"] two_sweeps)
              [1; 2; 3] ["coeff_th"] "coeff_G" ["coeff_C"])
    as (m' & Hrun & Hpre & _).
  - reflexivity.
  - apply (bool_decide_unpack _). vm_compute. exact I.
  - apply (bool_decide_unpack _). vm_compute. exact I.
  - vm_compute. lia.
  - vm_compute. reflexivity.
  - exists m'. split; [exact Hrun|].
    destruct (Hpre 0%nat "coeff_th" eq_refl) as (a & Ha & Hreceives).
    + cbn. apply not_elem_of_nil.
    + vm_compute in Ha. injection Ha as <-.
      destruct Hreceives as (x & Hx & Hm). vm_compute in Hx.
      injection Hx as <-. exact Hm.
Defined.

Lemma set_neuron_parameters_index_error_witness :
  ∃ m',
    set_neuron_parameters [1; 2; 3]
      (runner ["coeff_a_vector"; "coeff_th"] two_sweeps) =
      (inl IndexError,
       with_neuron (runner ["coeff_a_vector"; "coeff_th"] two_sweeps) m',
       []) ∧
    m' !! "coeff_a_vector" = Some (Vector [1; 2; 3]).
Proof.
  destruct (set_neuron_parameters_index_error
              (runner ["coeff_a_vector"; "coeff_th"] two_sweeps)
              [1; 2; 3] ["coeff_a_vector"] "coeff_th" [] 0)
    as (m' & Hrun & Hpre & _).
  - reflexivity.
  - apply (bool_decide_unpack _). vm_compute. exact I.
  - apply (bool_decide_unpack _). vm_compute. exact I.
  - vm_compute. reflexivity.
  - vm_compute. reflexivity.
  - exists m'. split; [exact Hrun|].
    destruct (Hpre 0%nat "coeff_a_vector" eq_refl) as (a & Ha & Hreceives).
    + cbn. apply not_elem_of_nil.
    + vm_compute in Ha. injection Ha as <-.
      destruct Hreceives as [_ Hm]. exact Hm.
Defined.

Lemma runner_valid_other sweeps :
  valid_params (runner ["coeff_th"; "coeff_a_vector"] sweeps) [5; 6; 7; 8].
Proof.
  split.
  - apply (bool_decide_unpack _). vm_compute. exact I.
  - vm_compute. lia.
Defined.

Lemma run_after_run_witness :
  run [5; 6; 7; 8]
    (run [1; 2; 3; 4]
       (runner ["coeff_th"; "coeff_a_vector"] two_sweeps)).1.2 =
  run [5; 6; 7; 8] (runner ["coeff_th"; "coeff_a_vector"] two_sweeps).
Proof.
  destruct (run_after_run (runner ["coeff_th"; "coeff_a_vector"] two_sweeps)
              [1; 2; 3; 4] [5; 6; 7; 8])
    as (_ & _ & Hrun & _).
  - apply runner_valid.
  - apply runner_valid_other.
  - exact Hrun.
Defined.

Lemma run_calls_once_per_sweep_witness :
  length (run [1; 2; 3; 4]
            (runner ["coeff_th"; "coeff_a_vector"] two_sweeps)).2 = 2%nat ∧
  length (run_base_model [1; 2; 3; 4]
            (runner ["coeff_th"; "coeff_a_vector"] two_sweeps)).2 = 2%nat.
Proof.
  destruct (run_calls_once_per_sweep
              (runner ["coeff_th"; "coeff_a_vector"] two_sweeps)
              [1; 2; 3; 4] target_results base_results)
    as (Hrun & Hbase & _).
  - apply runner_valid.
  - reflexivity.
  - apply echo_target_results.
  - reflexivity.
  - apply echo_base_results.
  - split; [exact Hrun|exact Hbase].
Defined.

Lemma echo_first_target_result i r :
  [first_target_result] !! i = Some r →
  simulate_target (mapped ragged [1; 2; 3; 4]) i = Some (inr r).
Proof.
  destruct i as [|i]; intros Hr; vm_compute in Hr;
    [injection Hr as <-; vm_compute; reflexivity|discriminate Hr].
Defined.

Lemma run_short_target_list_witness :
  (run [1; 2; 3; 4] ragged).1.1 = inl IndexError ∧
  (run [1; 2; 3; 4] ragged).1.2 = mapped ragged [1; 2; 3; 4] ∧
  length (run [1; 2; 3; 4] ragged).2 = 1%nat.
Proof.
  apply (run_short_target_list ragged [1; 2; 3; 4] 1 [first_target_result]).
  - apply (runner_valid two_sweeps).
  - vm_compute. lia.
  - reflexivity.
  - apply echo_first_target_result.
  - right. left. vm_compute. lia.
Defined.

Lemma run_base_model_ignores_target_data_witness :
  (run_base_model [1; 2; 3; 4]
     (runner ["coeff_th"; "coeff_a_vector"] two_sweeps)).1.1 =
  (run_base_model [1; 2; 3; 4] (other_data [[9]])).1.1.
Proof.
  destruct (run_base_model_ignores_target_data
              (runner ["coeff_th"; "coeff_a_vector"] two_sweeps)
              (other_data [[9]]) [1; 2; 3; 4]) as (Hout & _).
  - repeat split.
  - exact Hout.
Defined.

Lemma run_ignores_dt_and_grid_spike_times_witness :
  (run [1; 2; 3; 4]
     (runner ["coeff_th"; "coeff_a_vector"] two_sweeps)).1.1 =
  (run [1; 2; 3; 4] (other_data two_sweeps)).1.1.
Proof.
  destruct (run_ignores_dt_and_grid_spike_times
              (runner ["coeff_th"; "coeff_a_vector"] two_sweeps)
              (other_data two_sweeps) [1; 2; 3; 4]) as (Hout & _).
  - repeat split.
  - exact Hout.
Defined.
End MoreWitnesses.

Section MoodyWitnesses.
Import Examples MoreExamples.
#[local] Existing Instance moody.
#[local] Open Scope Z_scope.
#[local] Open Scope string_scope.

Lemma moody_first_target_result i r :
  [first_target_result] !! i = Some r →
  simulate_target
    (mapped (runner ["coeff_th"; "coeff_a_vector"] two_sweeps) [1; 2; 3; 4])
    i = Some (inr r).
Proof.
  destruct i as [|i]; intros Hr; vm_compute in Hr;
    [injection Hr as <-; vm_compute; reflexivity|discriminate Hr].
Defined.

Lemma moody_first_base_result i r :
  [first_base_result] !! i = Some r →
  simulate_base
    (mapped (runner ["coeff_th"; "coeff_a_vector"] two_sweeps) [1; 2; 3; 4])
    i = Some (inr r).
Proof.
  destruct i as [|i]; intros Hr; vm_compute in Hr;
    [injection Hr as <-; vm_compute; reflexivity|discriminate Hr].
Defined.

Lemma run_simulator_raises_witness :
  (run [1; 2; 3; 4]
     (runner ["coeff_th"; "coeff_a_vector"] two_sweeps)).1.1 =
    inl SimulationError ∧
  (run [1; 2; 3; 4]
     (runner ["coeff_th"; "coeff_a_vector"] two_sweeps)).1.2 =
    mapped (runner ["coeff_th"; "coeff_a_vector"] two_sweeps) [1; 2; 3; 4] ∧
  length (run [1; 2; 3; 4]
            (runner ["coeff_th"; "coeff_a_vector"] two_sweeps)).2 = 2%nat.
Proof.
  apply (run_simulator_raises
           (runner ["coeff_th"; "coeff_a_vector"] two_sweeps)
           [1; 2; 3; 4] 1 SimulationError [first_target_result]).
  - apply runner_valid.
  - vm_compute. lia.
  - reflexivity.
  - apply moody_first_target_result.
  - vm_compute. reflexivity.
Defined.

Lemma run_base_model_simulator_raises_witness :
  (run_base_model [1; 2; 3; 4]
     (runner ["coeff_th"; "coeff_a_vector"] two_sweeps)).1.1 =
    inl SimulationError ∧
  (run_base_model [1; 2; 3; 4]
     (runner ["coeff_th"; "coeff_a_vector"] two_sweeps)).1.2 =
    mapped (runner ["coeff_th"; "coeff_a_vector"] two_sweeps) [1; 2; 3; 4] ∧
  length (run_base_model [1; 2; 3; 4]
            (runner ["coeff_th"; "coeff_a_vector"] two_sweeps)).2 = 2%nat.
Proof.
  apply (run_base_model_simulator_raises
           (runner ["coeff_th"; "coeff_a_vector"] two_sweeps)
           [1; 2; 3; 4] 1 SimulationError [first_base_result]).
  - apply runner_valid.
  - vm_compute. lia.
  - reflexivity.
  - apply moody_first_base_result.
  - vm_compute. reflexivity.
Defined.
End MoodyWitnesses.

Section ApiWitnesses.
Import MoreExamples.
#[local] Existing Instance web.
#[local] Open Scope string_scope.

Lemma retrieve_file_over_http_saves_body_witness :
  Api.files
    (Api.retrieve_file_over_http "http://host/file" "/tmp/f" world).2
    !! "/tmp/f" = Some "data".
Proof.
  destruct (retrieve_file_over_http_saves_body
              "http://host/file" "/tmp/f" "data" world) as (_ & Hfile & _).
  - reflexivity.
  - reflexivity.
  - exact Hfile.
Defined.

Lemma retrieve_file_over_http_failure_witness :
  Api.retrieve_file_over_http "http://host/gone" "/tmp/f" world =
    (inl (Api.HTTPError 404),
     {| Api.files := <[ "/tmp/f" := "" ]> (Api.files world);
        Api.log :=
          Api.log world ++ ["Couldn't retrieve file from http://host/gone"];
        Api.requests := Api.requests world ++ ["http://host/gone"] |}).
Proof.
  apply (retrieve_file_over_http_failure
           "http://host/gone" "/tmp/f" (Api.HTTPError 404) world).
  - reflexivity.
  - reflexivity.
Defined.

Lemma retrieve_file_over_http_cannot_open_witness :
  ∃ what,
    Api.retrieve_file_over_http "http://host/file" "/nowhere/f" world =
      (inl (Api.OtherError what), world) ∧
    Api.requests
      (Api.retrieve_file_over_http "http://host/file" "/nowhere/f" world).2 =
      Api.requests world.
Proof.
  apply (retrieve_file_over_http_cannot_open
           "http://host/file" "/nowhere/f" world).
  reflexivity.
Defined.
End ApiWitnesses.
